(** * Catalog synchronisation engine: merge, diff, placeholder and CSV
      escaping, embedded from the JavaScript sources.

    Modelling conventions.
    - A catalog is a JSON document as returned by [JSON.parse]: the value
      [undefined] never occurs in it.
    - A JavaScript object is its list of own entries, in the order of
      [Object.entries]; [obj[key] = v] overwrites the entry in place when the
      key is present and appends it otherwise.  Keys of a real object are
      pairwise distinct, which is the predicate [wf_obj] below.  Integer-like
      keys, which JavaScript lists before the others, get no special
      treatment: the order of entries only shows in the equality of whole
      objects.
    - Every object the code handles inherits from [Object.prototype]: for
      the member names of [Object.prototype], [objectPrototypeNames] below,
      [key in obj] is true of every object and [obj[key]] is a function
      when [obj] has no own entry of that name; the member [__proto__] is
      the accessor that reads and sets the prototype of [obj].  [deepMerge]
      is embedded with the prototype chain its result acquires in this way.
      An object stored inside a catalog is kept by its own entries only:
      the spread, [Object.entries] and [JSON.stringify] read nothing else.
    - The files of a [World] are the catalog files.  The log files the
      logger appends to on every call are not among them: a call of the
      logger is the event [EvLog].
    - A JavaScript [Set] of strings is a [gset string]; a JavaScript number
      is a binary64 float.
    - JavaScript strings are sequences of code units; every character the
      embedded code inspects is ASCII, so Rocq strings stand for them. *)

From Stdlib Require Import String Ascii List ZArith Lia Floats.
From stdpp Require Import gmap strings list pretty.

Set Warnings "-register-all,-clear-no-such-hyp".
Local Open Scope Z_scope.

(** ** JSON values *)

Inductive JValue : Type :=
| JNull : JValue
| JBool : bool -> JValue
| JNum : float -> JValue
| JStr : string -> JValue
| JArr : list JValue -> JValue
| JObj : list (string * JValue) -> JValue.

Abbreviation Obj := (list (string * JValue)).

(** ** Induction over JSON trees *)

Section JValue_induction.
Variable P : JValue -> Prop.
Hypothesis Hnull : P JNull.
Hypothesis Hbool : forall b, P (JBool b).
Hypothesis Hnum : forall x, P (JNum x).
Hypothesis Hstr : forall s, P (JStr s).
Hypothesis Harr : forall vs, Forall P vs -> P (JArr vs).
Hypothesis Hobj : forall es, Forall (fun e => P e.2) es -> P (JObj es).

Fixpoint JValue_tree_ind (v : JValue) : P v :=
  match v with
  | JNull => Hnull
  | JBool b => Hbool b
  | JNum x => Hnum x
  | JStr s => Hstr s
  | JArr vs =>
      Harr vs
        ((fix go (l : list JValue) : Forall P l :=
            match l with
            | [] => Forall_nil_2 P
            | w :: rest => Forall_cons_2 P w rest (JValue_tree_ind w) (go rest)
            end) vs)
  | JObj es =>
      Hobj es
        ((fix go (l : Obj) : Forall (fun e => P e.2) l :=
            match l with
            | [] => Forall_nil_2 _
            | e :: rest =>
                Forall_cons_2 (fun e => P e.2) e rest (JValue_tree_ind e.2) (go rest)
            end) es)
  end.
End JValue_induction.

(** [value && typeof value === 'object' && !Array.isArray(value)] *)
Definition isPlainObject (v : JValue) : bool :=
  match v with JObj _ => true | _ => false end.

(** [obj[key]] *)
Fixpoint getProp (key : string) (o : Obj) : option JValue :=
  match o with
  | [] => None
  | (k, v) :: rest => if String.eqb k key then Some v else getProp key rest
  end.

(** [key] is an own property of [obj] *)
Definition hasProp (key : string) (o : Obj) : bool :=
  match getProp key o with Some _ => true | None => false end.

(** The member names of [Object.prototype] in Node.js. *)
Definition objectPrototypeNames : list string :=
  ["constructor"; "__defineGetter__"; "__defineSetter__"; "hasOwnProperty";
   "__lookupGetter__"; "__lookupSetter__"; "isPrototypeOf";
   "propertyIsEnumerable"; "toString"; "valueOf"; "__proto__";
   "toLocaleString"].

Definition protoMember (key : string) : bool :=
  bool_decide (key ∈ objectPrototypeNames).

(** What an object inherits under [key] from the objects set as its
    prototypes, given by their own entries, the nearest first;
    [Object.prototype] ends every chain and is not listed. *)
Fixpoint inherited (key : string) (chain : list Obj) : option JValue :=
  match chain with
  | [] => None
  | proto :: rest =>
      match getProp key proto with
      | Some v => Some v
      | None => inherited key rest
      end
  end.

(** [key in obj], for an object with the given own entries and prototypes. *)
Definition inOperator (key : string) (o : Obj) (chain : list Obj) : bool :=
  hasProp key o
  || match inherited key chain with Some _ => true | None => false end
  || protoMember key.

(** [obj[key] = v] *)
Fixpoint setProp (key : string) (v : JValue) (o : Obj) : Obj :=
  match o with
  | [] => [(key, v)]
  | (k, w) :: rest =>
      if String.eqb k key then (k, v) :: rest else (k, w) :: setProp key v rest
  end.

(** Structural well-formedness: at every level the keys are distinct. *)
Fixpoint wf_value (v : JValue) : Prop :=
  match v with
  | JObj es =>
      NoDup (map fst es) /\
      (fix all (l : Obj) : Prop :=
         match l with
         | [] => True
         | (_, w) :: rest => wf_value w /\ all rest
         end) es
  | JArr vs =>
      (fix all (l : list JValue) : Prop :=
         match l with
         | [] => True
         | w :: rest => wf_value w /\ all rest
         end) vs
  | _ => True
  end.

Definition wf_obj (o : Obj) : Prop := wf_value (JObj o).

(** ** TranslationUpdater.deepMerge (translation-updater.js) *)

(** One turn of the [for (const [key, value] of Object.entries(source))]
    loop, given the recursive call for nested objects.  The state of the loop
    is [result], by its own entries, with the objects set as its prototypes.

    [result[key]] is the own entry if there is one, else the inherited one.
    Without either, [result['__proto__']] is the prototype of [result], an
    object: the first of the chain, or [Object.prototype], which has no
    enumerable entry and is copied by the spread as the empty object; the
    assignment [result['__proto__'] = merged] then sets the prototype and
    adds no entry.  For any other key without entry [result[key]] is a
    function or [undefined], no object, and the assignment adds an entry. *)
Definition mergeEntry (rec : Obj -> Obj * list Obj) (st : Obj * list Obj)
    (key : string) (value : JValue) : Obj * list Obj :=
  let result := st.1 in
  let chain := st.2 in
  if isPlainObject value then
    match getProp key result with
    | Some (JObj tv) => (setProp key (JObj (rec tv).1) result, chain)
    | Some _ => (setProp key value result, chain)
    | None =>
        match inherited key chain with
        | Some (JObj tv) => (setProp key (JObj (rec tv).1) result, chain)
        | Some _ => (setProp key value result, chain)
        | None =>
            if String.eqb key "__proto__"
            then let merged := rec (hd [] chain) in
                 (result, merged.1 :: merged.2)
            else (setProp key value result, chain)
        end
    end
  else if inOperator key result chain then st
  else (setProp key value result, chain).

(** The result of [deepMerge] with its prototype chain. *)
Fixpoint deepMergeValue (target : Obj) (source : JValue) {struct source}
    : Obj * list Obj :=
  match source with
  | JObj entries =>
      (fix loop (st : Obj * list Obj) (es : Obj) {struct es} : Obj * list Obj :=
         match es with
         | [] => st
         | (key, value) :: rest =>
             loop (mergeEntry (fun tv => deepMergeValue tv value) st key value) rest
         end) (target, []) entries
  | _ => (target, [])
  end.

(** The merged object, by its own entries: what [Object.entries] and
    [JSON.stringify] see of it. *)
Definition deepMerge (target source : Obj) : Obj :=
  (deepMergeValue target (JObj source)).1.

(** One turn of the loop, as a function of the entry it visits. *)
Definition mergeTurn (st : Obj * list Obj) (e : string * JValue) : Obj * list Obj :=
  mergeEntry (fun tv => deepMergeValue tv e.2) st e.1 e.2.

(** One turn of the loop on a result whose prototype is [Object.prototype]. *)
Definition mergeStep (result : Obj) (e : string * JValue) : Obj :=
  (mergeTurn (result, []) e).1.

(** No key of the tree, at any level of nested objects, is a member name of
    [Object.prototype]. *)
Fixpoint plainKeysValue (v : JValue) : bool :=
  match v with
  | JObj es =>
      (fix all (l : Obj) : bool :=
         match l with
         | [] => true
         | (k, w) :: rest => negb (protoMember k) && plainKeysValue w && all rest
         end) es
  | _ => true
  end.

Definition plainKeys (o : Obj) : bool := plainKeysValue (JObj o).

(** [covers b r]: the value [r] can stand where [b] stood after merging more
    entries into it. *)
Fixpoint covers (b r : JValue) {struct b} : Prop :=
  match b with
  | JObj bs =>
      match r with
      | JObj rs =>
          (fix below (B R : Obj) {struct B} : Prop :=
             match B with
             | [] => True
             | (k, b') :: B' =>
                 match R with
                 | [] => False
                 | (k', r') :: R' => k = k' /\ covers b' r' /\ below B' R'
                 end
             end) bs rs
      | _ => False
      end
  | _ => match r with JObj _ => True | _ => b = r end
  end.

Definition below (B R : Obj) : Prop := covers (JObj B) (JObj R).

(** The merge step of [updateTranslations], lines 140-145. *)
Definition mergeTranslations (overwriteExisting : bool)
    (originalContent newTranslations : Obj) : Obj :=
  if overwriteExisting then deepMerge originalContent newTranslations
  else deepMerge newTranslations originalContent.

(** ** Key paths: extractAllKeys (translation-updater.js) and extractKeys
       (file-comparator.js) *)

(** [prefix ? `${prefix}.${key}` : key] *)
Definition fullKeyOf (prefix key : string) : string :=
  match prefix with
  | EmptyString => key
  | _ => prefix +:+ "." +:+ key
  end.

Fixpoint extractAllKeysValue (v : JValue) (prefix : string) {struct v} : gset string :=
  match v with
  | JObj entries =>
      (fix loop (es : Obj) {struct es} : gset string :=
         match es with
         | [] => ∅
         | (key, value) :: rest =>
             {[ fullKeyOf prefix key ]}
             ∪ (if isPlainObject value
                then extractAllKeysValue value (fullKeyOf prefix key)
                else ∅)
             ∪ loop rest
         end) entries
  | _ => ∅
  end.

Definition extractAllKeys (obj : Obj) (prefix : string) : gset string :=
  extractAllKeysValue (JObj obj) prefix.

(** The key paths one entry contributes under [prefix]. *)
Definition entryKeys (prefix : string) (e : string * JValue) : gset string :=
  {[ fullKeyOf prefix e.1 ]}
  ∪ (if isPlainObject e.2 then extractAllKeysValue e.2 (fullKeyOf prefix e.1) else ∅).

Fixpoint extractKeysValue (v : JValue) (prefix : string) {struct v} : gset string :=
  match v with
  | JObj entries =>
      (fix loop (es : Obj) {struct es} : gset string :=
         match es with
         | [] => ∅
         | (key, value) :: rest =>
             {[ fullKeyOf prefix key ]}
             ∪ (if isPlainObject value
                then extractKeysValue value (fullKeyOf prefix key)
                else ∅)
             ∪ loop rest
         end) entries
  | _ => ∅
  end.

Definition extractKeys (obj : Obj) (prefix : string) : gset string :=
  extractKeysValue (JObj obj) prefix.

(** [countKeys] of translation-updater.js *)
Fixpoint countKeysValue (v : JValue) {struct v} : nat :=
  match v with
  | JObj entries =>
      (fix loop (es : Obj) {struct es} : nat :=
         match es with
         | [] => O
         | (_, value) :: rest =>
             (1 + (if isPlainObject value then countKeysValue value else 0)
              + loop rest)%nat
         end) entries
  | _ => O
  end.

Definition countKeys (obj : Obj) : nat := countKeysValue (JObj obj).

(** ** JavaScript numbers *)

Definition numberOfNat (n : nat) : float :=
  PrimFloat.of_uint63 (Uint63.of_Z (Z.of_nat n)).

Definition numberOfZ (z : Z) : float :=
  if z <? 0 then PrimFloat.opp (PrimFloat.of_uint63 (Uint63.of_Z (- z)))
  else PrimFloat.of_uint63 (Uint63.of_Z z).

(** [Math.round]: the integer closest to the argument, ties towards
    positive infinity; NaN, infinities and integral values are returned
    unchanged. *)
Definition Math_round (x : float) : float :=
  match Prim2SF x with
  | S754_finite sign m e =>
      if 0 <=? e then x
      else
        let sm := if sign then - Z.pos m else Z.pos m in
        let n := (2 * sm + 2 ^ (- e)) / 2 ^ (- e + 1) in
        if n =? 0 then (if sign then PrimFloat.opp 0%float else 0%float)
        else numberOfZ n
  | _ => x
  end.

(** The expression of file-comparator.js line 131. *)
Definition completionOf (referenceSize missingSize : nat) : float :=
  Math_round
    (PrimFloat.mul
       (PrimFloat.div
          (PrimFloat.sub (numberOfNat referenceSize) (numberOfNat missingSize))
          (numberOfNat referenceSize))
       100%float).

(** ** FileComparator.compare, on the two parsed catalogs *)

(** The key sets and the counts of the record [compare] returns, as lines
    106-110 and 121-131 compute them from the two parsed catalogs.  The loop
    of lines 112-119, which builds the field [missingTranslations] from the
    missing key paths with [getValueByPath] and [setValueByPath], is not
    embedded: it reads none of these fields and writes none, and for a key
    path through [__proto__] it can throw before the record is built. *)
Record ComparisonResult := {
  cr_reference : Obj;
  cr_target : Obj;
  missingKeys : gset string;
  extraKeys : gset string;
  missingCount : nat;
  extraCount : nat;
  totalReferenceKeys : nat;
  totalTargetKeys : nat;
  completionPercentage : float
}.

Definition compareCatalogs (reference target : Obj) : ComparisonResult :=
  let referenceKeys := extractKeys reference "" in
  let targetKeys := extractKeys target "" in
  let missing := filter (fun key => key ∉ targetKeys) referenceKeys in
  let extra := filter (fun key => key ∉ referenceKeys) targetKeys in
  {| cr_reference := reference;
     cr_target := target;
     missingKeys := missing;
     extraKeys := extra;
     missingCount := size missing;
     extraCount := size extra;
     totalReferenceKeys := size referenceKeys;
     totalTargetKeys := size targetKeys;
     completionPercentage := completionOf (size referenceKeys) (size missing) |}.

(** ** The file system and the logger, as state *)

(** A catalog file holds the JSON text of an object-rooted document, or text
    that [JSON.parse] rejects with the given message; a tree written with
    [formatJson] is read back as the same tree.  A file whose text parses to
    [null], an array or a scalar is not represented: what is proved of every
    world is proved of the worlds whose catalog files are of these two
    kinds.  Directories are not modelled and the disk never fails: reading
    or copying throws only when the source file is missing, and writing
    never throws; the [catch] blocks are reached by the failures of
    [JSON.parse] and of the pre-write validation only. *)
Inductive FileContent : Type :=
| Doc : Obj -> FileContent
| Corrupt : string -> FileContent.

Inductive LogMessage : Type :=
| BackupCreated : string -> LogMessage
| BackupFailed : string -> LogMessage
| FileRestored : string -> LogMessage
| RestoreFailed : string -> LogMessage
| ValidationBanner : LogMessage
| ValidationFailed : string -> LogMessage
| ValidationPassed : option nat -> LogMessage
| TranslationsWritten : string -> LogMessage
| CompleteWritten : string -> LogMessage
| WouldUpdate : string -> LogMessage
| WouldUpdateComplete : string -> LogMessage
| UpdateFailed : string -> string -> LogMessage
| CompleteUpdateFailed : string -> string -> LogMessage
| RestoredOriginal : LogMessage
| RestoreAttemptFailed : string -> LogMessage
| Updating : string -> LogMessage
| UpdatingComplete : string -> LogMessage.

(** What the run does to its environment, oldest first. *)
Inductive Event : Type :=
| EvCopy : string -> string -> Event          (* fs.copyFileSync(src, dest) *)
| EvWrite : string -> FileContent -> Event    (* fs.writeFileSync(path, text) *)
| EvLog : LogMessage -> Event.                (* a call of the logger *)

Record World := {
  files : gmap string FileContent;
  isoNow : string;            (* new Date().toISOString() *)
  events : list Event
}.

Record Config := {
  backupEnabled : bool;
  backupDir : string;
  dryRun : bool;
  localesDir : string
}.

Inductive Outcome (A : Type) : Type :=
| Return : A -> Outcome A
| Throw : string -> Outcome A.     (* an Error, by its message *)
Arguments Return {A} _.
Arguments Throw {A} _.

Definition M (A : Type) : Type := World -> Outcome A * World.

#[global] Instance M_ret : MRet M := fun A a w => (Return a, w).

#[global] Instance M_bind : MBind M := fun A B k c w =>
  match c w with
  | (Return a, w') => k a w'
  | (Throw e, w') => (Throw e, w')
  end.

Definition throw {A} (message : string) : M A := fun w => (Throw message, w).

(** [try { body } catch (error) { handler }] *)
Definition tryCatch {A} (body : M A) (handler : string -> M A) : M A :=
  fun w => match body w with
           | (Return a, w') => (Return a, w')
           | (Throw e, w') => handler e w'
           end.

Definition emit (e : Event) : M unit :=
  fun w => (Return tt,
            {| files := files w; isoNow := isoNow w; events := events w ++ [e] |}).

(** A call of the logger.  [Logger.log] prints the entry and appends it to
    the log file of the session with [fs.appendFileSync], and to the error
    log for an error: the event stands for these appends, which change no
    catalog file. *)
Definition logger (m : LogMessage) : M unit := emit (EvLog m).

Definition existsSync (path : string) : M bool :=
  fun w => (Return (bool_decide (is_Some (files w !! path))), w).

(** [JSON.parse(fs.readFileSync(path, 'utf8'))] *)
Definition readJson (path : string) : M Obj :=
  fun w => match files w !! path with
           | Some (Doc o) => (Return o, w)
           | Some (Corrupt message) => (Throw message, w)
           | None => (Throw ("ENOENT: no such file or directory, open '" +:+ path +:+ "'"), w)
           end.

Definition copyFileSync (src dest : string) : M unit :=
  fun w => match files w !! src with
           | Some c =>
               (Return tt,
                {| files := <[dest := c]> (files w); isoNow := isoNow w;
                   events := events w ++ [EvCopy src dest] |})
           | None => (Throw ("ENOENT: no such file or directory, copyfile '" +:+ src +:+ "'"), w)
           end.

(** [fs.writeFileSync(path, text)], on a disk that never fails: the call
    always returns. *)
Definition writeFileSync (path : string) (c : FileContent) : M unit :=
  fun w => (Return tt,
            {| files := <[path := c]> (files w); isoNow := isoNow w;
               events := events w ++ [EvWrite path c] |}).

Definition toISOString : M string := fun w => (Return (isoNow w), w).

(** ** Paths and the backup name *)

Definition isSlash (c : ascii) : bool := Ascii.eqb c "/".

Fixpoint hasSlash (s : string) : bool :=
  match s with
  | EmptyString => false
  | String c r => isSlash c || hasSlash r
  end.

(** [path.basename] *)
Fixpoint basename (s : string) : string :=
  match s with
  | EmptyString => EmptyString
  | String c r =>
      if hasSlash r then basename r
      else if isSlash c then r else s
  end.

(** [path.join] of a directory and a file name *)
Definition pathJoin (dir name : string) : string := dir +:+ "/" +:+ name.

(** [.replace(/[:.]/g, '-')] *)
Fixpoint replaceColonDot (s : string) : string :=
  match s with
  | EmptyString => EmptyString
  | String c r =>
      String (if Ascii.eqb c ":" || Ascii.eqb c "." then "-"%char else c)
             (replaceColonDot r)
  end.

(** [.slice(0, -5)] *)
Definition dropLast5 (s : string) : string :=
  String.substring 0 (String.length s - 5)%nat s.

Definition backupTimestamp (iso : string) : string :=
  dropLast5 (replaceColonDot iso).

(** ** TranslationUpdater (translation-updater.js) *)

(** A path value used as a condition: [null] and the empty string are falsy. *)
Definition truthyPath (p : option string) : bool :=
  match p with
  | Some (String _ _) => true
  | _ => false
  end.

Definition showPath (p : option string) : string :=
  match p with Some s => s | None => "null" end.

Definition createBackup (cfg : Config) (filePath : string) : M (option string) :=
  if negb (backupEnabled cfg) then mret None
  else
    iso ← toISOString;
    let filename := basename filePath in
    let timestamp := backupTimestamp iso in
    let backupFilename := timestamp +:+ "_" +:+ filename in
    let backupPath := pathJoin (backupDir cfg) backupFilename in
    tryCatch
      (present ← existsSync filePath;
       (if present : bool
        then copyFileSync filePath backupPath;; logger (BackupCreated backupPath)
        else mret tt);;
       mret (Some backupPath))
      (fun error => logger (BackupFailed filePath);; throw error).

Definition restoreFromBackup (originalPath : string) (backupPath : option string)
    : M unit :=
  present ← (if truthyPath backupPath then existsSync (showPath backupPath)
             else mret false);
  if negb present then throw ("Backup file not found: " +:+ showPath backupPath)
  else
    tryCatch
      (copyFileSync (showPath backupPath) originalPath;;
       logger (FileRestored originalPath))
      (fun error => logger (RestoreFailed (showPath backupPath));; throw error).

(** [validateJsonStructure]: [JSON.stringify] only throws on a cyclic object
    and [checkForUndefinedValues] only on [undefined]; a JSON tree has
    neither, so the call returns. *)
Definition validateJsonStructure (obj : Obj) : M unit := mret tt.

Record UpdateOptions := {
  overwriteExisting : bool;
  preserveStructure : bool;
  uo_validateResult : bool
}.

Definition defaultUpdateOptions : UpdateOptions :=
  {| overwriteExisting := false; preserveStructure := true; uo_validateResult := true |}.

Inductive UpdateResult : Type :=
| UpdateSuccess (originalKeys newKeys : nat) (addedKeys : Z) (finalKeys : nat)
    (backupPath : option string) (isDryRun : bool)
| UpdateFailure (error : string) (backupPath : option string) (isDryRun : bool).

(** The [catch] block shared by both update functions, up to the log text. *)
Definition recoverUpdate {A} (cfg : Config) (targetPath : string)
    (failedMessage : string -> string -> LogMessage)
    (failure : string -> option string -> bool -> A)
    (backupPath : option string) (error : string) : M A :=
  logger (failedMessage targetPath error);;
  (if truthyPath backupPath && negb (dryRun cfg)
   then tryCatch
          (restoreFromBackup targetPath backupPath;; logger RestoredOriginal)
          (fun restoreError => logger (RestoreAttemptFailed restoreError))
   else mret tt);;
  mret (failure error backupPath (dryRun cfg)).

(** [backupPath] is assigned once inside [try]: an exception raised before
    the assignment reaches the handler with [backupPath = null]. *)
Definition updateTranslations (cfg : Config) (targetPath : string)
    (newTranslations : Obj) (options : UpdateOptions) : M UpdateResult :=
  logger (Updating targetPath);;
  tryCatch
    (present ← existsSync targetPath;
     originalContent ← (if present : bool then readJson targetPath else mret []);
     backupPath ← (if negb (dryRun cfg) then createBackup cfg targetPath
                   else mret None);
     tryCatch
       (let updatedContent :=
          mergeTranslations (overwriteExisting options) originalContent newTranslations in
        let originalKeys := countKeys originalContent in
        let newKeys := countKeys newTranslations in
        let finalKeys := countKeys updatedContent in
        let addedKeys := Z.of_nat finalKeys - Z.of_nat originalKeys in
        (if uo_validateResult options && preserveStructure options
         then validateJsonStructure updatedContent else mret tt);;
        (if negb (dryRun cfg)
         then writeFileSync targetPath (Doc updatedContent);;
              logger (TranslationsWritten targetPath)
         else logger (WouldUpdate targetPath));;
        mret (UpdateSuccess originalKeys newKeys addedKeys finalKeys backupPath
                (dryRun cfg)))
       (recoverUpdate cfg targetPath UpdateFailed UpdateFailure backupPath))
    (recoverUpdate cfg targetPath UpdateFailed UpdateFailure None).

Inductive StructureValidation : Type :=
| NoReference
| Checked (svMissing svExtra : gset string)
    (referenceKeyCount translationKeyCount : nat).

Definition isValid (sv : StructureValidation) : bool :=
  match sv with
  | NoReference => true
  | Checked missing extra _ _ =>
      bool_decide (size missing = 0%nat) && bool_decide (size extra = 0%nat)
  end.

Definition svMessage (sv : StructureValidation) : string :=
  match sv with
  | NoReference => "No reference for structure validation"
  | Checked missing extra _ _ =>
      if isValid sv then "Structure validation passed"
      else "Structure mismatch: " +:+ pretty (size missing) +:+ " missing, "
           +:+ pretty (size extra) +:+ " extra keys"
  end.

Definition svReferenceKeyCount (sv : StructureValidation) : option nat :=
  match sv with
  | NoReference => None
  | Checked _ _ n _ => Some n
  end.

Definition validateTranslationStructure (cfg : Config)
    (completeTranslations : Obj) (referenceJson : option Obj)
    : M StructureValidation :=
  let referencePath := pathJoin (localesDir cfg) "en_US.json" in
  present ← existsSync referencePath;
  referenceJson ← (if present && negb (bool_decide (is_Some referenceJson))
                   then o ← readJson referencePath; mret (Some o)
                   else mret referenceJson);
  match referenceJson with
  | None => mret NoReference
  | Some reference =>
      let referenceKeys := extractAllKeys reference "" in
      let translationKeys := extractAllKeys completeTranslations "" in
      let missing := filter (fun key => key ∉ translationKeys) referenceKeys in
      let extra := filter (fun key => key ∉ referenceKeys) translationKeys in
      mret (Checked missing extra (size referenceKeys) (size translationKeys))
  end.

Record CompleteOptions := {
  validateResult : bool;
  referenceJson : option Obj
}.

Definition defaultCompleteOptions : CompleteOptions :=
  {| validateResult := true; referenceJson := None |}.

Inductive CompleteResult : Type :=
| CompleteSuccess (originalKeys finalKeys totalKeys : nat)
    (backupPath : option string) (isDryRun : bool)
| CompleteFailure (error : string) (backupPath : option string) (isDryRun : bool).

Definition updateCompleteTranslations (cfg : Config) (targetPath : string)
    (completeTranslations : Obj) (options : CompleteOptions) : M CompleteResult :=
  logger (UpdatingComplete targetPath);;
  tryCatch
    (present ← existsSync targetPath;
     originalContent ← (if present : bool then readJson targetPath else mret []);
     backupPath ← (if negb (dryRun cfg) then createBackup cfg targetPath
                   else mret None);
     tryCatch
       (let originalKeys := countKeys originalContent in
        let finalKeys := countKeys completeTranslations in
        (if validateResult options
         then
           validateJsonStructure completeTranslations;;
           structureValidation ←
             validateTranslationStructure cfg completeTranslations
               (referenceJson options);
           if negb (isValid structureValidation)
           then logger ValidationBanner;;
                logger (ValidationFailed (svMessage structureValidation));;
                logger ValidationBanner;;
                throw ("Pre-write validation failed: "
                       +:+ svMessage structureValidation)
           else logger (ValidationPassed (svReferenceKeyCount structureValidation))
         else mret tt);;
        (if negb (dryRun cfg)
         then writeFileSync targetPath (Doc completeTranslations);;
              logger (CompleteWritten targetPath)
         else logger (WouldUpdateComplete targetPath));;
        mret (CompleteSuccess originalKeys finalKeys finalKeys backupPath
                (dryRun cfg)))
       (recoverUpdate cfg targetPath CompleteUpdateFailed CompleteFailure backupPath))
    (recoverUpdate cfg targetPath CompleteUpdateFailed CompleteFailure None).

(** ** Placeholders (validator.js) *)

Definition isOpenBrace (c : ascii) : bool := Ascii.eqb c "{".
Definition isCloseBrace (c : ascii) : bool := Ascii.eqb c "}".

(** [[^}]+], greedy: the longest run of characters other than the closing
    brace, and what follows it. *)
Fixpoint spanBody (s : string) : string * string :=
  match s with
  | EmptyString => (EmptyString, EmptyString)
  | String c r =>
      if isCloseBrace c then (EmptyString, s)
      else let (body, rest) := spanBody r in (String c body, rest)
  end.

(** One attempt of [/\{[^}]+\}/] at the start of [s]: the match and the text
    after it.  The run found by [spanBody] ends at the first closing brace or
    at the end of the text, so giving characters back cannot help. *)
Definition matchAt (s : string) : option (string * string) :=
  match s with
  | String c r =>
      if isOpenBrace c then
        match spanBody r with
        | (String b body, String _ rest) => Some (String c (String b body +:+ "}"), rest)
        | _ => None
        end
      else None
  | EmptyString => None
  end.

(** [text.match(/\{[^}]+\}/g) || []]: leftmost matches, each search resuming
    where the previous match ended. *)
Fixpoint matchFrom (fuel : nat) (s : string) : list string :=
  match fuel with
  | O => []
  | S fuel' =>
      match s with
      | EmptyString => []
      | String _ r =>
          match matchAt s with
          | Some (token, rest) => token :: matchFrom fuel' rest
          | None => matchFrom fuel' r
          end
      end
  end.

Definition matchPlaceholders (text : string) : list string :=
  matchFrom (String.length text) text.

(** [new Set(array)], kept in insertion order. *)
Definition setAdd (acc : list string) (x : string) : list string :=
  if bool_decide (x ∈ acc) then acc else acc ++ [x].

Definition jsSet (l : list string) : list string := fold_left setAdd l [].

Definition setHas (s : list string) (x : string) : bool := bool_decide (x ∈ s).

(** [[a-zA-Z0-9_-]] *)
Definition isIdentChar (c : ascii) : bool :=
  let n := nat_of_ascii c in
  ((97 <=? n)%nat && (n <=? 122)%nat) || ((65 <=? n)%nat && (n <=? 90)%nat)
  || ((48 <=? n)%nat && (n <=? 57)%nat) || (n =? 95)%nat || (n =? 45)%nat.

Fixpoint identsThenClose (s : string) : bool :=
  match s with
  | EmptyString => false
  | String c EmptyString => isCloseBrace c
  | String c r => isIdentChar c && identsThenClose r
  end.

(** [/^\{[a-zA-Z0-9_-]+\}$/.test(placeholder)] *)
Definition isValidPlaceholder (placeholder : string) : bool :=
  match placeholder with
  | String o (String c r) => isOpenBrace o && isIdentChar c && identsThenClose r
  | _ => false
  end.

Inductive ValidatorMessage : Type :=
| MissingPlaceholder (placeholder path : string)
| ExtraPlaceholder (placeholder path : string).

Record Finding := {
  message : ValidatorMessage;
  ctxPath : string;
  ctxPlaceholder : string;
  ctxReference : string;
  ctxTranslation : string
}.

Record Validator := {
  errors : list Finding;
  warnings : list Finding
}.

Definition addError (v : Validator) (f : Finding) : Validator :=
  {| errors := errors v ++ [f]; warnings := warnings v |}.

Definition validatePlaceholderConsistency (v : Validator)
    (referenceText translatedText path : string) : bool * Validator :=
  let refPlaceholders := jsSet (matchPlaceholders referenceText) in
  let transPlaceholders := jsSet (matchPlaceholders translatedText) in
  match List.find (fun placeholder => negb (setHas transPlaceholders placeholder))
          refPlaceholders with
  | Some placeholder =>
      (false,
       addError v {| message := MissingPlaceholder placeholder path;
                     ctxPath := path; ctxPlaceholder := placeholder;
                     ctxReference := referenceText;
                     ctxTranslation := translatedText |})
  | None =>
      match List.find (fun placeholder => negb (setHas refPlaceholders placeholder))
              transPlaceholders with
      | Some placeholder =>
          (false,
           addError v {| message := ExtraPlaceholder placeholder path;
                         ctxPath := path; ctxPlaceholder := placeholder;
                         ctxReference := referenceText;
                         ctxTranslation := translatedText |})
      | None => (true, v)
      end
  end.

(** The tokens a run of the check reports as missing, and as extra. *)
Definition reportedMissing (fs : list Finding) : gset string :=
  list_to_set
    (omap (fun f => match message f with
                    | MissingPlaceholder p _ => Some p
                    | _ => None
                    end) fs).

Definition reportedExtra (fs : list Finding) : gset string :=
  list_to_set
    (omap (fun f => match message f with
                    | ExtraPlaceholder p _ => Some p
                    | _ => None
                    end) fs).

(** ** CSV escaping (new-keys-csv-extractor.js) *)

Definition comma : ascii := ",".
Definition dquote : ascii := "034".
Definition lineFeed : ascii := "010".
Definition carriageReturn : ascii := "013".

(** [stringValue.includes(c)] for a one-character needle *)
Fixpoint includesChar (c : ascii) (s : string) : bool :=
  match s with
  | EmptyString => false
  | String d r => Ascii.eqb d c || includesChar c r
  end.

(** [stringValue.replace] of every double quote by two of them *)
Fixpoint doubleQuotes (s : string) : string :=
  match s with
  | EmptyString => EmptyString
  | String d r =>
      if Ascii.eqb d dquote then String dquote (String dquote (doubleQuotes r))
      else String d (doubleQuotes r)
  end.

(** [value] is [None] for [null] and [undefined], and carries [String(value)]
    otherwise. *)
Definition escapeCSVValue (value : option string) : string :=
  match value with
  | None => EmptyString
  | Some stringValue =>
      if includesChar comma stringValue || includesChar dquote stringValue
         || includesChar lineFeed stringValue
         || includesChar carriageReturn stringValue
      then String dquote (doubleQuotes stringValue +:+ String dquote EmptyString)
      else stringValue
  end.

Definition createCSVRow (rowData : list (option string)) : string :=
  String.concat "," (map escapeCSVValue rowData).

(** The quoting rule in the words of the interface description: the
    characters that force quoting, and a field with every double quote
    doubled and a double quote on either side. *)
Definition csvSpecial (c : ascii) : bool :=
  bool_decide (c ∈ [comma; dquote; lineFeed; carriageReturn]).

Definition csvQuoted (field : list ascii) : list ascii :=
  [dquote]
  ++ flat_map (fun c => if Ascii.eqb c dquote then [dquote; dquote] else [c]) field
  ++ [dquote].

(** ** A concrete installation, for the scenarios *)

Definition scenarioConfig : Config :=
  {| backupEnabled := true; backupDir := "backups"; dryRun := false;
     localesDir := "locales" |}.

Definition scenarioWorld (target : Obj) : World :=
  {| files := {[ "locales/de_DE.json" := Doc target ]};
     isoNow := "2024-01-01T12:34:56.789Z";
     events := [] |}.

Definition scenarioBackup : string := "backups/2024-01-01T12-34-56_de_DE.json".

(** The backup file [createBackup] writes for [filePath] in world [w]. *)
Definition backupPathOf (cfg : Config) (w : World) (filePath : string) : string :=
  pathJoin (backupDir cfg) (backupTimestamp (isoNow w) +:+ "_" +:+ basename filePath).

(** Some event satisfying [P] occurs strictly before one satisfying [Q]. *)
Definition happensBefore (P Q : Event -> Prop) (l : list Event) : Prop :=
  exists (i j : nat) (e1 e2 : Event),
    l !! i = Some e1 /\ l !! j = Some e2 /\ P e1 /\ Q e2 /\ (i < j)%nat.

Definition isValidationPassed (e : Event) : Prop :=
  match e with EvLog (ValidationPassed _) => True | _ => False end.

(** ** Counting keys, entry by entry *)

(** What an entry adds to [countKeys]: itself and, for an object, its
    nested keys. *)
Definition entryCount (v : JValue) : nat :=
  (1 + (if isPlainObject v then countKeysValue v else 0))%nat.

(** The entries of [R] whose key is not in [K]. *)
Abbreviation outside K R := (filter (fun e : string * JValue => e.1 ∉ K) R).

(** The verdict [validateTranslationStructure] reaches once it holds a
    reference catalog. *)
Definition structureVerdict (reference completeTranslations : Obj) : StructureValidation :=
  let referenceKeys := extractAllKeys reference "" in
  let translationKeys := extractAllKeys completeTranslations "" in
  Checked (filter (fun key => key ∉ translationKeys) referenceKeys)
          (filter (fun key => key ∉ referenceKeys) translationKeys)
          (size referenceKeys) (size translationKeys).

(** ** Key paths with their values: extractKeyValueMap
       (new-keys-csv-extractor.js, translation-diff-analyzer.js) *)

(** The [Map] is read by key only, so it is kept as a finite map; a later
    [keyValueMap.set] of the same key path replaces the earlier value. *)
Fixpoint extractKeyValueMapValue (v : JValue) (prefix : string) {struct v}
    : gmap string JValue :=
  match v with
  | JObj entries =>
      (fix loop (keyValueMap : gmap string JValue) (es : Obj) {struct es}
           : gmap string JValue :=
         match es with
         | [] => keyValueMap
         | (key, value) :: rest =>
             loop (if isPlainObject value
                   then extractKeyValueMapValue value (fullKeyOf prefix key) ∪ keyValueMap
                   else <[fullKeyOf prefix key := value]> keyValueMap) rest
         end) ∅ entries
  | _ => ∅
  end.

Definition extractKeyValueMap (obj : Obj) (prefix : string) : gmap string JValue :=
  extractKeyValueMapValue (JObj obj) prefix.

(** One turn of the loop of [extractKeyValueMap]. *)
Definition keyValueStep (prefix : string) (keyValueMap : gmap string JValue)
    (e : string * JValue) : gmap string JValue :=
  if isPlainObject e.2
  then extractKeyValueMapValue e.2 (fullKeyOf prefix e.1) ∪ keyValueMap
  else <[fullKeyOf prefix e.1 := e.2]> keyValueMap.

(** The key paths one entry contributes to the map. *)
Definition entryLeaves (prefix : string) (e : string * JValue) : gset string :=
  if isPlainObject e.2
  then dom (extractKeyValueMapValue e.2 (fullKeyOf prefix e.1))
  else {[ fullKeyOf prefix e.1 ]}.

(** A value used as a condition: [null], [false], [0], [NaN] and the empty
    string are falsy. *)
Definition truthy (v : JValue) : bool :=
  match v with
  | JNull => false
  | JBool b => b
  | JNum x => negb (PrimFloat.eqb x 0) && negb (PrimFloat.is_nan x)
  | JStr s => negb (String.eqb s EmptyString)
  | JArr _ => true
  | JObj _ => true
  end.

(** [NewKeysCSVExtractor.findNewKeys]: the set returned, and the lines the
    call prints with [console.error]. *)
Definition findNewKeys (currentPath backupPath : string)
    : M (gset string * list string) :=
  tryCatch
    (currentData ← readJson currentPath;
     backupData ← readJson backupPath;
     let currentMap := extractKeyValueMap currentData "" in
     let backupMap := extractKeyValueMap backupData "" in
     mret (filter (fun key => backupMap !! key = None) (dom currentMap), []))
    (fun error =>
       mret (∅, ["Error comparing " +:+ currentPath +:+ " with " +:+ backupPath
                 +:+ ": " +:+ error])).

(** [NewKeysCSVExtractor.getKeyValue], for the locales directory the
    extractor is built with; [null] is [JNull]. *)
Definition getKeyValue (localesDir keyPath languageCode : string) : M JValue :=
  tryCatch
    (let filePath := pathJoin localesDir (languageCode +:+ ".json") in
     present ← existsSync filePath;
     if negb present then mret JNull
     else
       data ← readJson filePath;
       let keyMap := extractKeyValueMap data "" in
       mret (match keyMap !! keyPath with
             | Some value => if truthy value then value else JNull
             | None => JNull
             end))
    (fun _ => mret JNull).

(** ** CSV lines read back: parseCSVLine (translation-validator.js) *)

(** The loop of [parseCSVLine] from position [i] on: [line] is the text
    from [line[i]], [nextChar] is [undefined] at its end. *)
Fixpoint parseCSVFrom (line : string) (values : list string) (current : string)
    (inQuotes : bool) {struct line} : list string :=
  match line with
  | EmptyString => values ++ [current]
  | String char rest =>
      if Ascii.eqb char dquote then
        match rest with
        | String nextChar rest' =>
            if inQuotes && Ascii.eqb nextChar dquote
            then parseCSVFrom rest' values (current +:+ String dquote EmptyString) inQuotes
            else parseCSVFrom rest values current (negb inQuotes)
        | EmptyString => parseCSVFrom rest values current (negb inQuotes)
        end
      else if Ascii.eqb char comma && negb inQuotes
      then parseCSVFrom rest (values ++ [current]) EmptyString inQuotes
      else parseCSVFrom rest values (current +:+ String char EmptyString) inQuotes
  end.

Definition parseCSVLine (line : string) : list string :=
  parseCSVFrom line [] EmptyString false.

(** The text a field stands for: [null] and [undefined] are written as the
    empty field. *)
Definition fieldText (value : option string) : string :=
  match value with Some s => s | None => EmptyString end.

(** What follows a field in a row: nothing, or text that does not start
    with a double quote. *)
Definition notQuoteFirst (tail : string) : Prop :=
  match tail with
  | String c _ => c <> dquote
  | EmptyString => True
  end.

(** ** TranslationService (translation-service.js) *)

Module TranslationService.

Fixpoint extractAllKeysValue (v : JValue) (prefix : string) {struct v} : gset string :=
  match v with
  | JObj entries =>
      (fix loop (es : Obj) {struct es} : gset string :=
         match es with
         | [] => ∅
         | (key, value) :: rest =>
             {[ fullKeyOf prefix key ]}
             ∪ (if isPlainObject value
                then extractAllKeysValue value (fullKeyOf prefix key)
                else ∅)
             ∪ loop rest
         end) entries
  | _ => ∅
  end.

Definition extractAllKeys (obj : Obj) (prefix : string) : gset string :=
  extractAllKeysValue (JObj obj) prefix.

(** The arrays [missingKeys] and [extraKeys] are kept as sets: nothing below
    reads their order. *)
Record StructureReport := {
  isValid : bool;
  missingKeys : gset string;
  extraKeys : gset string;
  referenceKeyCount : nat;
  translatedKeyCount : nat
}.

Definition validateJsonStructure (referenceJson translatedJson : Obj)
    : StructureReport :=
  let referenceKeys := extractAllKeys referenceJson "" in
  let translatedKeys := extractAllKeys translatedJson "" in
  let missingKeys := filter (fun key => key ∉ translatedKeys) referenceKeys in
  let extraKeys := filter (fun key => key ∉ referenceKeys) translatedKeys in
  {| isValid := bool_decide (size missingKeys = 0%nat)
                && bool_decide (size extraKeys = 0%nat);
     missingKeys := missingKeys;
     extraKeys := extraKeys;
     referenceKeyCount := size referenceKeys;
     translatedKeyCount := size translatedKeys |}.

(** [countKeys] of the service counts the leaves only.  The loop
    [for (const key in current)] visits the own keys of a parsed object, and
    [current.hasOwnProperty(key)] calls what [current] holds under the name
    [hasOwnProperty]: the method inherited from [Object.prototype], which
    answers true for an own key, unless [current] has an own entry of that
    name; such an entry is a JSON value, no function, and the call throws a
    TypeError. *)
Fixpoint countKeysValue (v : JValue) {struct v} : Outcome nat :=
  match v with
  | JObj entries =>
      (fix traverse (es : Obj) {struct es} : Outcome nat :=
         match es with
         | [] => Return O
         | (_, value) :: rest =>
             if hasProp "hasOwnProperty" entries
             then Throw "current.hasOwnProperty is not a function"
             else
               match (if isPlainObject value then countKeysValue value
                      else Return 1%nat) with
               | Return n =>
                   match traverse rest with
                   | Return m => Return (n + m)%nat
                   | Throw error => Throw error
                   end
               | Throw error => Throw error
               end
         end) entries
  | _ => Return O
  end.

Definition countKeys (obj : Obj) : Outcome nat := countKeysValue (JObj obj).

End TranslationService.



(** ** Validator: keys, and the placeholders of whole catalogs (validator.js) *)

(** [/^[a-zA-Z0-9_-]+$/.test(key)] *)
Definition isValidKey (key : string) : bool :=
  match key with
  | EmptyString => false
  | String _ _ => forallb isIdentChar (list_ascii_of_string key)
  end.

(** [validatePlaceholdersRecursive].  [key in target] and [target[key]] are
    read on the own entries of [target]: what a parsed catalog inherits
    under a key is a function or [Object.prototype], where no string is
    found, so that no error is recorded through an inherited member. *)
Fixpoint validatePlaceholdersRecursiveValue (reference : JValue) (target : Obj)
    (path : string) (v : Validator) {struct reference} : Validator :=
  match reference with
  | JObj entries =>
      (fix loop (es : Obj) (v : Validator) {struct es} : Validator :=
         match es with
         | [] => v
         | (key, refValue) :: rest =>
             let currentPath := fullKeyOf path key in
             loop rest
               (match getProp key target with
                | Some targetValue =>
                    match refValue, targetValue with
                    | JStr refText, JStr targetText =>
                        (validatePlaceholderConsistency v refText targetText
                           currentPath).2
                    | JObj _, JObj targetObject =>
                        validatePlaceholdersRecursiveValue refValue targetObject
                          currentPath v
                    | _, _ => v
                    end
                | None => v
                end)
         end) entries v
  | _ => v
  end.

Definition validatePlaceholdersRecursive (reference target : Obj) (path : string)
    (v : Validator) : Validator :=
  validatePlaceholdersRecursiveValue (JObj reference) target path v.

(** ** The installation of the scenarios, in dry-run mode *)

Definition dryConfig : Config :=
  {| backupEnabled := true; backupDir := "backups"; dryRun := true;
     localesDir := "locales" |}.

(** ** TranslationDiffAnalyzer.compareFiles (translation-diff-analyzer.js) *)

Module TranslationDiffAnalyzer.

(** [currentValue === backupValue] for two leaves that come from two calls of
    [JSON.parse]: arrays are compared by identity, and the two parses share
    no array. *)
Definition strictEquals (a b : JValue) : bool :=
  match a, b with
  | JNull, JNull => true
  | JBool x, JBool y => Bool.eqb x y
  | JNum x, JNum y => PrimFloat.eqb x y
  | JStr x, JStr y => String.eqb x y
  | _, _ => false
  end.

Record ModifiedKey := {
  oldValue : JValue;
  newValue : JValue;
  refValue : JValue
}.

(** The arrays [modifiedKeys], [newKeys] and [removedKeys] hold one record
    per key path; they are kept as finite maps from the key path. *)
Record FileDiff := {
  totalCurrentKeys : nat;
  totalBackupKeys : nat;
  modifiedKeys : gmap string ModifiedKey;
  newKeys : gmap string JValue;
  removedKeys : gmap string JValue;
  hasChanges : bool
}.

(** What [compareFiles] returns: the differences, or [{ error, hasChanges:
    false }]. *)
Inductive Comparison : Type :=
| Compared (diff : FileDiff)
| CompareError (error : string).

(** [loadReferenceData], with the field [this.referenceData] passed in and
    out: [None] is [null]. *)
Definition loadReferenceData (localesDir : string) (referenceData : option Obj)
    : M (Obj * option Obj) :=
  match referenceData with
  | Some data => mret (data, referenceData)
  | None =>
      let referencePath := pathJoin localesDir "en_US.json" in
      present ← existsSync referencePath;
      if present : bool
      then data ← readJson referencePath; mret (data, Some data)
      else mret ([], Some [])
  end.

(** [refMap.get(keyPath) || null] *)
Definition referenceValueIn (refData : Obj) (keyPath : string) : JValue :=
  match extractKeyValueMap refData "" !! keyPath with
  | Some value => if truthy value then value else JNull
  | None => JNull
  end.

Definition getReferenceValue (localesDir : string) (referenceData : option Obj)
    (keyPath : string) : M (JValue * option Obj) :=
  loaded ← loadReferenceData localesDir referenceData;
  mret (referenceValueIn loaded.1 keyPath, loaded.2).

(** The key paths both maps hold with values that are not [===], with the
    old and the new value. *)
Definition changedValues (currentMap backupMap : gmap string JValue)
    : gmap string (JValue * JValue) :=
  merge (fun current backup =>
           match current, backup with
           | Some currentValue, Some backupValue =>
               if strictEquals currentValue backupValue then None
               else Some (backupValue, currentValue)
           | _, _ => None
           end) currentMap backupMap.

(** [getReferenceValue] is called for each modified key path: the first call
    loads the reference file or throws, the later ones find it loaded. *)
Definition compareFiles (localesDir : string) (referenceData : option Obj)
    (currentPath backupPath : string) : M (Comparison * option Obj) :=
  tryCatch
    (currentData ← readJson currentPath;
     backupData ← readJson backupPath;
     let currentMap := extractKeyValueMap currentData "" in
     let backupMap := extractKeyValueMap backupData "" in
     let changed := changedValues currentMap backupMap in
     loaded ← (if bool_decide (changed = ∅) then mret ([], referenceData)
               else loadReferenceData localesDir referenceData);
     let modified :=
       map_imap (fun key values =>
                   Some {| oldValue := values.1; newValue := values.2;
                           refValue := referenceValueIn loaded.1 key |}) changed in
     let new := filter (fun entry => backupMap !! entry.1 = None) currentMap in
     let removed := filter (fun entry => currentMap !! entry.1 = None) backupMap in
     mret (Compared {| totalCurrentKeys := size currentMap;
                       totalBackupKeys := size backupMap;
                       modifiedKeys := modified;
                       newKeys := new;
                       removedKeys := removed;
                       hasChanges := bool_decide (0 < size modified)%nat
                                     || bool_decide (0 < size new)%nat
                                     || bool_decide (0 < size removed)%nat |},
           loaded.2))
    (fun error => mret (CompareError ("Failed to compare files: " +:+ error),
                        referenceData)).

End TranslationDiffAnalyzer.

(** The differences [compareFiles] reports for two catalogs, given the
    reference catalog. *)
Definition diffOf (currentData backupData refData : Obj)
    : TranslationDiffAnalyzer.FileDiff :=
  let currentMap := extractKeyValueMap currentData "" in
  let backupMap := extractKeyValueMap backupData "" in
  let changed := TranslationDiffAnalyzer.changedValues currentMap backupMap in
  let modified :=
    map_imap (fun key values =>
                Some {| TranslationDiffAnalyzer.oldValue := values.1;
                        TranslationDiffAnalyzer.newValue := values.2;
                        TranslationDiffAnalyzer.refValue :=
                          TranslationDiffAnalyzer.referenceValueIn refData key |})
             changed in
  let new := filter (fun entry => backupMap !! entry.1 = None) currentMap in
  let removed := filter (fun entry => currentMap !! entry.1 = None) backupMap in
  {| TranslationDiffAnalyzer.totalCurrentKeys := size currentMap;
     TranslationDiffAnalyzer.totalBackupKeys := size backupMap;
     TranslationDiffAnalyzer.modifiedKeys := modified;
     TranslationDiffAnalyzer.newKeys := new;
     TranslationDiffAnalyzer.removedKeys := removed;
     TranslationDiffAnalyzer.hasChanges :=
       bool_decide (0 < size modified)%nat || bool_decide (0 < size new)%nat
       || bool_decide (0 < size removed)%nat |}.

(** ** TranslationUpdater.generateUpdateSummary (translation-updater.js) *)

(** The fields of an update result that the summary reads; [skipped] is
    [false] where the result has no such field, [addedKeys], [error] and
    [backupPath] are [None] where it has none.  Counts are integers, which
    JavaScript numbers hold exactly below 2^53. *)
Record UpdateOutcome := {
  success : bool;
  skipped : bool;
  uo_addedKeys : option Z;
  uo_error : option string;
  uo_backupPath : option string
}.

Inductive UpdateStatus : Type := StatusSkipped | StatusSuccess | StatusFailed.

Record FileDetail := {
  fd_languageCode : string;
  status : UpdateStatus;
  fd_addedKeys : Z;
  fd_error : option string
}.

Record UpdateSummary := {
  totalFiles : nat;
  successfulUpdates : nat;
  failedUpdates : nat;
  skippedUpdates : nat;
  totalKeysAdded : Z;
  fileDetails : list FileDetail;
  backupFiles : list (string * string)
}.

(** [result.addedKeys || 0] *)
Definition addedKeysOrZero (result : UpdateOutcome) : Z :=
  match uo_addedKeys result with Some n => n | None => 0 end.

(** One turn of the loop over the results. *)
Definition summaryStep (summary : UpdateSummary) (entry : string * UpdateOutcome)
    : UpdateSummary :=
  let languageCode := entry.1 in
  let result := entry.2 in
  let detail :=
    {| fd_languageCode := languageCode;
       status := if success result
                 then (if skipped result then StatusSkipped else StatusSuccess)
                 else StatusFailed;
       fd_addedKeys := addedKeysOrZero result;
       fd_error := uo_error result |} in
  {| totalFiles := totalFiles summary;
     successfulUpdates :=
       if success result && negb (skipped result)
       then S (successfulUpdates summary) else successfulUpdates summary;
     failedUpdates :=
       if success result then failedUpdates summary else S (failedUpdates summary);
     skippedUpdates :=
       if success result && skipped result
       then S (skippedUpdates summary) else skippedUpdates summary;
     totalKeysAdded :=
       if success result && negb (skipped result)
       then totalKeysAdded summary + addedKeysOrZero result
       else totalKeysAdded summary;
     fileDetails := fileDetails summary ++ [detail];
     backupFiles :=
       if truthyPath (uo_backupPath result)
       then backupFiles summary ++ [(languageCode, showPath (uo_backupPath result))]
       else backupFiles summary |}.

(** [updateResults] is the [Map] in the order of its insertion. *)
Definition generateUpdateSummary (updateResults : list (string * UpdateOutcome))
    : UpdateSummary :=
  fold_left summaryStep updateResults
    {| totalFiles := length updateResults;
       successfulUpdates := 0; failedUpdates := 0; skippedUpdates := 0;
       totalKeysAdded := 0; fileDetails := []; backupFiles := [] |}.

(** The keys added that the details list under the status success. *)
Definition addedBySuccess (details : list FileDetail) : Z :=
  foldr (fun detail total =>
           match status detail with
           | StatusSuccess => fd_addedKeys detail + total
           | _ => total
           end) 0 details.

(** * Properties *)

Lemma wf_value_obj (es : Obj) :
  wf_value (JObj es) <-> NoDup es.*1 /\ Forall (fun e => wf_value e.2) es.
Proof.
  cbn [wf_value]. apply and_iff_compat_l.
  induction es as [|[k w] rest IH]; cbn.
  - split; [constructor | done].
  - rewrite Forall_cons, IH. done.
Qed.

(** ** Own properties *)

Lemma String_eqb_decide (a b : string) : String.eqb a b = bool_decide (a = b).
Proof.
  destruct (String.eqb_spec a b); [by rewrite bool_decide_true | by rewrite bool_decide_false].
Qed.

Lemma getProp_None (key : string) (o : Obj) : getProp key o = None <-> key ∉ o.*1.
Proof.
  induction o as [|[k w] rest IH]; cbn.
  - split; [intros _; apply not_elem_of_nil | done].
  - rewrite String_eqb_decide, not_elem_of_cons. case_bool_decide as Hk.
    + split; [done|]. intros [Hne _]. by destruct Hne.
    + rewrite IH. split; [by split; [congruence|] | by intros [_ ?]].
Qed.

Lemma getProp_Some_elem (key : string) (o : Obj) (v : JValue) :
  getProp key o = Some v -> (key, v) ∈ o.
Proof.
  induction o as [|[k w] rest IH]; cbn; [done|].
  rewrite String_eqb_decide. case_bool_decide.
  - intros [= ->]. subst. apply list_elem_of_here.
  - intros ?. apply list_elem_of_further. auto.
Qed.

Lemma getProp_NoDup (key : string) (v : JValue) (o : Obj) :
  NoDup o.*1 -> (key, v) ∈ o -> getProp key o = Some v.
Proof.
  induction o as [|[k w] rest IH]; cbn.
  - intros _ H. by apply elem_of_nil in H.
  - rewrite NoDup_cons, String_eqb_decide. intros [Hk Hnd] Hin.
    apply elem_of_cons in Hin as [[= -> ->]|Hin].
    + by rewrite bool_decide_true.
    + case_bool_decide; [|by auto]. subst. exfalso. apply Hk.
      apply list_elem_of_fmap. by exists (key, v).
Qed.

Lemma hasProp_true (key : string) (o : Obj) : hasProp key o = true <-> key ∈ o.*1.
Proof.
  unfold hasProp. destruct (getProp key o) eqn:E.
  - split; [|done]. intros _. apply getProp_Some_elem in E.
    apply list_elem_of_fmap. by exists (key, j).
  - apply getProp_None in E. naive_solver.
Qed.

Lemma getProp_setProp_eq (key : string) (v : JValue) (o : Obj) :
  getProp key (setProp key v o) = Some v.
Proof.
  induction o as [|[k w] rest IH]; cbn.
  - by rewrite String.eqb_refl.
  - destruct (String.eqb k key) eqn:E; cbn; by rewrite E.
Qed.

Lemma getProp_setProp_ne (key key' : string) (v : JValue) (o : Obj) :
  key <> key' -> getProp key' (setProp key v o) = getProp key' o.
Proof.
  intros Hne. induction o as [|[k w] rest IH]; cbn.
  - rewrite String_eqb_decide. by rewrite bool_decide_false.
  - destruct (String.eqb k key) eqn:E; cbn.
    + apply String.eqb_eq in E as ->.
      rewrite !String_eqb_decide. by rewrite !bool_decide_false.
    + by rewrite IH.
Qed.

Lemma setProp_id (key : string) (v : JValue) (o : Obj) :
  getProp key o = Some v -> setProp key v o = o.
Proof.
  induction o as [|[k w] rest IH]; cbn; [done|].
  destruct (String.eqb k key) eqn:E.
  - by intros [= ->].
  - intros H. by rewrite IH.
Qed.

Lemma setProp_absent (key : string) (v : JValue) (o : Obj) :
  getProp key o = None -> setProp key v o = o ++ [(key, v)].
Proof.
  induction o as [|[k w] rest IH]; cbn; [done|].
  destruct (String.eqb k key) eqn:E; [done|]. intros H. by rewrite IH.
Qed.

Lemma setProp_keys_present (key : string) (v : JValue) (o : Obj) :
  key ∈ o.*1 -> (setProp key v o).*1 = o.*1.
Proof.
  induction o as [|[k w] rest IH]; cbn.
  - intros H. by apply elem_of_nil in H.
  - rewrite String_eqb_decide. intros H. case_bool_decide; cbn; [done|].
    apply elem_of_cons in H as [->|H]; [done|]. by rewrite IH.
Qed.

(** ** deepMerge as a fold over the entries of the source *)

Lemma deepMergeValue_fold (target source : Obj) :
  deepMergeValue target (JObj source) = fold_left mergeTurn source (target, []).
Proof.
  cbn [deepMergeValue]. generalize ((target, []) : Obj * list Obj).
  induction source as [|[k w] rest IH]; intros st; cbn; [done|].
  by rewrite IH.
Qed.

Lemma mergeTurn_leaf (st : Obj * list Obj) (key : string) (value : JValue) :
  isPlainObject value = false ->
  mergeTurn st (key, value)
  = if inOperator key st.1 st.2 then st else (setProp key value st.1, st.2).
Proof. intros H. unfold mergeTurn, mergeEntry. cbn. by rewrite H. Qed.

Lemma mergeTurn_object (st : Obj * list Obj) (key : string) (sv : Obj) :
  mergeTurn st (key, JObj sv)
  = match getProp key st.1 with
    | Some (JObj tv) => (setProp key (JObj (deepMerge tv sv)) st.1, st.2)
    | Some _ => (setProp key (JObj sv) st.1, st.2)
    | None =>
        match inherited key st.2 with
        | Some (JObj tv) => (setProp key (JObj (deepMerge tv sv)) st.1, st.2)
        | Some _ => (setProp key (JObj sv) st.1, st.2)
        | None =>
            if String.eqb key "__proto__"
            then (st.1, (deepMergeValue (hd [] st.2) (JObj sv)).1
                        :: (deepMergeValue (hd [] st.2) (JObj sv)).2)
            else (setProp key (JObj sv) st.1, st.2)
        end
    end.
Proof. reflexivity. Qed.

Lemma inOperator_own (key : string) (o : Obj) (chain : list Obj) :
  hasProp key o = true -> inOperator key o chain = true.
Proof. unfold inOperator. by intros ->. Qed.

Lemma inOperator_plain (key : string) (o : Obj) :
  inOperator key o [] = hasProp key o || protoMember key.
Proof. unfold inOperator. cbn. by rewrite orb_false_r. Qed.

Lemma protoMember_proto : protoMember "__proto__" = true.
Proof. reflexivity. Qed.

Lemma protoMember_false_ne (key : string) :
  protoMember key = false -> key <> "__proto__".
Proof. intros H ->. by rewrite protoMember_proto in H. Qed.

Lemma mergeStep_leaf (result : Obj) (key : string) (value : JValue) :
  isPlainObject value = false ->
  mergeStep result (key, value)
  = if hasProp key result || protoMember key then result
    else setProp key value result.
Proof.
  intros H. unfold mergeStep. rewrite mergeTurn_leaf by done. cbn [fst snd].
  rewrite inOperator_plain. by destruct (hasProp key result || protoMember key).
Qed.

Lemma mergeStep_object (result : Obj) (key : string) (sv : Obj) :
  mergeStep result (key, JObj sv)
  = match getProp key result with
    | Some (JObj tv) => setProp key (JObj (deepMerge tv sv)) result
    | Some _ => setProp key (JObj sv) result
    | None => if String.eqb key "__proto__" then result
              else setProp key (JObj sv) result
    end.
Proof.
  unfold mergeStep. rewrite mergeTurn_object. cbn [fst snd inherited].
  destruct (getProp key result) as [[]|]; try done.
  by destruct (String.eqb key "__proto__").
Qed.

(** With a key that is no member name of [Object.prototype] the turn reads
    and writes own entries only. *)
Lemma mergeStep_leaf_plain (result : Obj) (key : string) (value : JValue) :
  protoMember key = false -> isPlainObject value = false ->
  mergeStep result (key, value)
  = if hasProp key result then result else setProp key value result.
Proof. intros Hk H. rewrite mergeStep_leaf by done. by rewrite Hk, orb_false_r. Qed.

Lemma mergeStep_object_plain (result : Obj) (key : string) (sv : Obj) :
  protoMember key = false ->
  mergeStep result (key, JObj sv)
  = match getProp key result with
    | Some (JObj tv) => setProp key (JObj (deepMerge tv sv)) result
    | _ => setProp key (JObj sv) result
    end.
Proof.
  intros Hk. rewrite mergeStep_object.
  destruct (getProp key result) as [[]|]; try done.
  apply protoMember_false_ne in Hk. rewrite String_eqb_decide.
  by rewrite bool_decide_false.
Qed.

(** Only the entry [__proto__] changes the prototype of the result. *)
Lemma mergeTurn_chain (st : Obj * list Obj) (e : string * JValue) :
  e.1 <> "__proto__" -> (mergeTurn st e).2 = st.2.
Proof.
  destruct e as [k v], st as [result chain]. cbn [fst snd]. intros Hne.
  unfold mergeTurn, mergeEntry. cbn [fst snd].
  destruct (isPlainObject v).
  - destruct (getProp k result) as [[]|]; try done.
    destruct (inherited k chain) as [[]|]; try done.
    rewrite String_eqb_decide. by rewrite bool_decide_false.
  - by destruct (inOperator k result chain).
Qed.

Lemma mergeTurn_plain (result : Obj) (e : string * JValue) :
  e.1 <> "__proto__" -> mergeTurn (result, []) e = (mergeStep result e, []).
Proof.
  intros Hne. unfold mergeStep.
  rewrite (surjective_pairing (mergeTurn (result, []) e)) at 1.
  by rewrite mergeTurn_chain.
Qed.

Lemma deepMergeValue_plain (target source : Obj) :
  Forall (fun e => e.1 <> "__proto__") source ->
  deepMergeValue target (JObj source) = (fold_left mergeStep source target, []).
Proof.
  rewrite deepMergeValue_fold. revert target.
  induction source as [|e rest IH]; intros target Hall; cbn [fold_left]; [done|].
  apply Forall_cons in Hall as [He Hall]. rewrite mergeTurn_plain by done.
  by apply IH.
Qed.

Lemma deepMerge_fold (target source : Obj) :
  Forall (fun e => e.1 <> "__proto__") source ->
  deepMerge target source = fold_left mergeStep source target.
Proof. intros H. unfold deepMerge. by rewrite deepMergeValue_plain. Qed.

Lemma plainKeys_Forall (es : Obj) :
  plainKeys es = true
  <-> Forall (fun e => protoMember e.1 = false /\ plainKeysValue e.2 = true) es.
Proof.
  unfold plainKeys. cbn [plainKeysValue].
  induction es as [|[k w] rest IH]; cbn [fst snd].
  - split; [constructor | done].
  - rewrite Forall_cons, <- IH, !andb_true_iff, negb_true_iff. cbn [fst snd]. tauto.
Qed.

Lemma plainKeys_no_proto (es : Obj) :
  plainKeys es = true -> Forall (fun e => e.1 <> "__proto__") es.
Proof.
  rewrite plainKeys_Forall. intros H. eapply Forall_impl; [exact H|].
  intros e [He _]. by apply protoMember_false_ne.
Qed.

Lemma setProp_setProp (key : string) (v v' : JValue) (o : Obj) :
  setProp key v (setProp key v' o) = setProp key v o.
Proof.
  induction o as [|[k w] rest IH]; cbn.
  - by rewrite String.eqb_refl.
  - destruct (String.eqb k key) eqn:E; cbn; rewrite E; [done|]. by rewrite IH.
Qed.

Lemma setProp_fixed (key : string) (v : JValue) (o : Obj) :
  setProp key v o = o -> getProp key o = Some v.
Proof. intros H. rewrite <- H. apply getProp_setProp_eq. Qed.

Lemma mergeTurn_getProp_other (st : Obj * list Obj) (e : string * JValue)
    (key : string) :
  e.1 <> key -> getProp key (mergeTurn st e).1 = getProp key st.1.
Proof.
  intros Hne. destruct e as [k v], st as [result chain].
  unfold mergeTurn, mergeEntry. cbn [fst snd] in *.
  destruct (isPlainObject v).
  - destruct (getProp k result) as [[]|]; cbn [fst];
      try by rewrite getProp_setProp_ne.
    destruct (inherited k chain) as [[]|]; cbn [fst];
      try by rewrite getProp_setProp_ne.
    destruct (String.eqb k "__proto__"); cbn [fst];
      [done | by rewrite getProp_setProp_ne].
  - destruct (inOperator k result chain); cbn [fst];
      [done | by rewrite getProp_setProp_ne].
Qed.

Lemma mergeStep_getProp_other (result : Obj) (e : string * JValue) (key : string) :
  e.1 <> key -> getProp key (mergeStep result e) = getProp key result.
Proof. intros Hne. unfold mergeStep. by rewrite mergeTurn_getProp_other. Qed.

Lemma fold_mergeTurn_getProp_other (es : Obj) (st : Obj * list Obj) (key : string) :
  key ∉ es.*1 -> getProp key (fold_left mergeTurn es st).1 = getProp key st.1.
Proof.
  revert st. induction es as [|e rest IH]; intros st Hnot; cbn [fold_left]; [done|].
  cbn in Hnot. apply not_elem_of_cons in Hnot as [Hne Hnot].
  rewrite IH by done. apply mergeTurn_getProp_other. congruence.
Qed.

(** A turn that finds on [R] the entry it left for its own key leaves [R]
    alone, and gives it the prototype it gave its own result. *)
Lemma mergeTurn_settled (st : Obj * list Obj) (R : Obj) (e : string * JValue) :
  (forall sv, e.2 = JObj sv ->
     deepMerge sv sv = sv /\
     forall tv, deepMerge (deepMerge tv sv) sv = deepMerge tv sv) ->
  getProp e.1 R = getProp e.1 (mergeTurn st e).1 ->
  mergeTurn (R, st.2) e = (R, (mergeTurn st e).2).
Proof.
  destruct e as [k v], st as [result chain]. cbn [fst snd]. intros Hv.
  destruct (isPlainObject v) eqn:Hplain.
  - destruct v as [| | | | |sv]; try discriminate.
    destruct (Hv sv eq_refl) as [Hself Hidem].
    rewrite !mergeTurn_object. cbn [fst snd].
    destruct (getProp k result) as [w|] eqn:E.
    { destruct w as [| | | | |tv]; cbn [fst snd];
        rewrite getProp_setProp_eq; intros Hget; rewrite Hget, ?Hself, ?Hidem;
        by rewrite setProp_id by done. }
    destruct (inherited k chain) as [w|] eqn:E'.
    { destruct w as [| | | | |tv]; cbn [fst snd];
        rewrite getProp_setProp_eq; intros Hget; rewrite Hget, ?Hself, ?Hidem;
        by rewrite setProp_id by done. }
    destruct (String.eqb k "__proto__"); cbn [fst snd].
    + rewrite E. by intros ->.
    + rewrite getProp_setProp_eq. intros Hget. rewrite Hget, Hself.
      by rewrite setProp_id by done.
  - rewrite !mergeTurn_leaf by done. cbn [fst snd].
    destruct (inOperator k result chain) eqn:Hin; cbn [fst snd].
    + intros Hget. unfold inOperator, hasProp in *. rewrite Hget. by rewrite Hin.
    + rewrite getProp_setProp_eq. intros Hget.
      rewrite inOperator_own; [done|]. unfold hasProp. by rewrite Hget.
Qed.

Lemma fold_mergeTurn_settled (es : Obj) (st : Obj * list Obj) (R : Obj) :
  NoDup es.*1 ->
  Forall (fun e => forall sv, e.2 = JObj sv ->
            deepMerge sv sv = sv /\
            forall tv, deepMerge (deepMerge tv sv) sv = deepMerge tv sv) es ->
  (forall e, e ∈ es -> getProp e.1 R = getProp e.1 (fold_left mergeTurn es st).1) ->
  fold_left mergeTurn es (R, st.2) = (R, (fold_left mergeTurn es st).2).
Proof.
  revert st. induction es as [|e rest IH]; intros st Hnd Hall Hget; cbn [fold_left].
  - done.
  - cbn in Hnd. apply NoDup_cons in Hnd as [Hfresh Hnd].
    apply Forall_cons in Hall as [He Hall]. cbn [fold_left] in Hget.
    rewrite mergeTurn_settled; [|done|].
    + apply (IH (mergeTurn st e)); [done..|].
      intros e' Hin. apply Hget. by apply list_elem_of_further.
    + rewrite (Hget e) by apply list_elem_of_here.
      by apply fold_mergeTurn_getProp_other.
Qed.

Lemma fold_mergeTurn_fixed (es : Obj) (st : Obj * list Obj) :
  (forall e, e ∈ es -> mergeTurn st e = st) ->
  fold_left mergeTurn es st = st.
Proof.
  induction es as [|e rest IH]; intros H; cbn; [done|].
  rewrite (H e) by apply list_elem_of_here.
  apply IH. intros e' He'. apply H. by apply list_elem_of_further.
Qed.

(** Merging an object into itself changes nothing. *)
Lemma deepMerge_self_value (v : JValue) :
  forall sv, v = JObj sv -> wf_value v -> deepMerge sv sv = sv.
Proof.
  induction v as [| | | | |es IH] using JValue_tree_ind; try discriminate.
  intros sv [= <-] Hwf. apply wf_value_obj in Hwf as [Hnd Hall].
  unfold deepMerge. rewrite deepMergeValue_fold, fold_mergeTurn_fixed; [done|].
  intros [k w] Hin.
  pose proof (getProp_NoDup k w es Hnd Hin) as Hget.
  rewrite Forall_forall in IH, Hall.
  destruct (isPlainObject w) eqn:Hw.
  - destruct w as [| | | | |c]; try discriminate.
    rewrite mergeTurn_object. cbn [fst snd]. rewrite Hget.
    rewrite (IH _ Hin c eq_refl (Hall _ Hin)). by rewrite setProp_id.
  - rewrite mergeTurn_leaf by done. cbn [fst snd].
    rewrite inOperator_own; [done|]. unfold hasProp. by rewrite Hget.
Qed.

Lemma deepMerge_idem_value (v : JValue) :
  forall sv, v = JObj sv -> wf_value v ->
  forall tv, deepMerge (deepMerge tv sv) sv = deepMerge tv sv.
Proof.
  induction v as [| | | | |es IH] using JValue_tree_ind; try discriminate.
  intros sv [= <-] Hwf tv. apply wf_value_obj in Hwf as [Hnd Hall].
  unfold deepMerge. rewrite !deepMergeValue_fold.
  rewrite (fold_mergeTurn_settled es (tv, [])); [done|done| |done].
  rewrite Forall_forall in IH, Hall. apply Forall_forall. intros e Hin sv Hsv.
  pose proof (Hall _ Hin) as He. rewrite Hsv in He. split.
  - by apply (deepMerge_self_value (JObj sv)).
  - intros tv0. by apply (IH _ Hin sv Hsv); rewrite ?Hsv.
Qed.

(** ** Key paths of a merge *)

Lemma extractAllKeys_nil (prefix : string) : extractAllKeys [] prefix = ∅.
Proof. reflexivity. Qed.

Lemma extractAllKeys_cons (e : string * JValue) (rest : Obj) (prefix : string) :
  extractAllKeys (e :: rest) prefix = entryKeys prefix e ∪ extractAllKeys rest prefix.
Proof. by destruct e. Qed.

Lemma extractAllKeys_app (o1 o2 : Obj) (prefix : string) :
  extractAllKeys (o1 ++ o2) prefix
  = extractAllKeys o1 prefix ∪ extractAllKeys o2 prefix.
Proof.
  induction o1 as [|e rest IH]; cbn [app].
  - rewrite extractAllKeys_nil. set_solver.
  - rewrite !extractAllKeys_cons, IH. set_solver.
Qed.

Lemma extractAllKeys_elem (e : string * JValue) (o : Obj) (prefix : string) :
  e ∈ o -> entryKeys prefix e ⊆ extractAllKeys o prefix.
Proof.
  induction o as [|e' rest IH]; intros Hin.
  - by apply elem_of_nil in Hin.
  - rewrite extractAllKeys_cons. apply elem_of_cons in Hin as [->|Hin]; set_solver.
Qed.

Lemma extractAllKeys_setProp (key : string) (v : JValue) (o : Obj) (prefix : string) :
  (forall w, getProp key o = Some w ->
     entryKeys prefix (key, w) ⊆ entryKeys prefix (key, v)) ->
  extractAllKeys (setProp key v o) prefix
  = extractAllKeys o prefix ∪ entryKeys prefix (key, v).
Proof.
  induction o as [|[k w] rest IH]; cbn [setProp getProp]; intros Hold.
  - rewrite extractAllKeys_cons, extractAllKeys_nil. set_solver.
  - destruct (String.eqb k key) eqn:E.
    + apply String.eqb_eq in E as ->. specialize (Hold w eq_refl).
      rewrite !extractAllKeys_cons. set_solver.
    + rewrite !extractAllKeys_cons, IH by done. set_solver.
Qed.

Lemma entryKeys_object (prefix key : string) (sv : Obj) :
  entryKeys prefix (key, JObj sv)
  = {[ fullKeyOf prefix key ]} ∪ extractAllKeys sv (fullKeyOf prefix key).
Proof. reflexivity. Qed.

Lemma entryKeys_leaf (prefix key : string) (v : JValue) :
  isPlainObject v = false -> entryKeys prefix (key, v) = {[ fullKeyOf prefix key ]}.
Proof. intros H. unfold entryKeys. cbn. rewrite H. set_solver. Qed.

Lemma entryKeys_own (prefix : string) (e : string * JValue) :
  fullKeyOf prefix e.1 ∈ entryKeys prefix e.
Proof. unfold entryKeys. set_solver. Qed.

Lemma mergeStep_keys (result : Obj) (e : string * JValue) (prefix : string) :
  protoMember e.1 = false ->
  (forall sv, e.2 = JObj sv -> forall tv p,
     extractAllKeys (deepMerge tv sv) p = extractAllKeys tv p ∪ extractAllKeys sv p) ->
  extractAllKeys (mergeStep result e) prefix
  = extractAllKeys result prefix ∪ entryKeys prefix e.
Proof.
  destruct e as [k v]. cbn [fst snd]. intros Hk IH.
  destruct (isPlainObject v) eqn:Hplain.
  - destruct v as [| | | | |sv]; try discriminate.
    specialize (IH sv eq_refl). rewrite mergeStep_object_plain by done.
    destruct (getProp k result) as [w|] eqn:E.
    + pose proof (extractAllKeys_elem _ _ prefix (getProp_Some_elem _ _ _ E)) as Hsub.
      destruct w as [| | | | |tv].
      1-5: rewrite extractAllKeys_setProp; [done|];
           intros w Hw; rewrite E in Hw; injection Hw as <-;
           rewrite entryKeys_leaf by done;
           rewrite entryKeys_object; set_solver.
      rewrite extractAllKeys_setProp.
      * rewrite !entryKeys_object, IH. rewrite entryKeys_object in Hsub. set_solver.
      * intros w Hw. rewrite E in Hw. injection Hw as <-.
        rewrite !entryKeys_object, IH. set_solver.
    + rewrite extractAllKeys_setProp; [done|]. intros w Hw. by rewrite E in Hw.
  - rewrite mergeStep_leaf_plain by done. destruct (hasProp k result) eqn:E.
    + apply hasProp_true in E. apply list_elem_of_fmap in E as ([k' w] & -> & Hin).
      pose proof (extractAllKeys_elem _ _ prefix Hin) as Hsub.
      pose proof (entryKeys_own prefix (k', w)) as Hown. cbn [fst] in *.
      rewrite entryKeys_leaf by done. set_solver.
    + unfold hasProp in E. destruct (getProp k result) eqn:E'; [done|].
      rewrite extractAllKeys_setProp; [done|]. intros w Hw. by rewrite E' in Hw.
Qed.

(** When no key of the source is a member name of [Object.prototype], the key
    paths of the merge are those of its operands. *)
Lemma deepMerge_keys_value (v : JValue) :
  forall sv, v = JObj sv -> plainKeysValue v = true -> forall tv p,
  extractAllKeys (deepMerge tv sv) p = extractAllKeys tv p ∪ extractAllKeys sv p.
Proof.
  induction v as [| | | | |es IH] using JValue_tree_ind; try discriminate.
  intros sv [= <-] Hplain tv p.
  rewrite deepMerge_fold by by apply plainKeys_no_proto.
  apply plainKeys_Forall in Hplain.
  revert tv. induction es as [|e rest IHrest]; intros tv; cbn [fold_left].
  - rewrite extractAllKeys_nil. set_solver.
  - apply Forall_cons in IH as [IHe IH].
    apply Forall_cons in Hplain as [[Hk He] Hplain].
    rewrite IHrest by done. rewrite mergeStep_keys; [| done |].
    + rewrite extractAllKeys_cons. set_solver.
    + intros sv Hsv. by apply IHe.
Qed.

(** A leaf of the source whose key is a member name of [Object.prototype]
    and no key of the target is in no entry of the merge. *)
Lemma deepMerge_drops_leaf (target source : Obj) (key : string) (value : JValue) :
  NoDup source.*1 ->
  (key, value) ∈ source ->
  isPlainObject value = false ->
  protoMember key = true ->
  getProp key target = None ->
  getProp key (deepMerge target source) = None.
Proof.
  intros Hnd Hin Hleaf Hproto Hget. unfold deepMerge. rewrite deepMergeValue_fold.
  apply list_elem_of_split in Hin as (l1 & l2 & ->).
  rewrite fmap_app in Hnd. change (((key, value) :: l2).*1) with (key :: l2.*1) in Hnd.
  apply NoDup_app in Hnd as (_ & Hdisj & Hnd2). apply NoDup_cons in Hnd2 as [Hl2 _].
  assert (Hl1 : key ∉ l1.*1).
  { intros H1. apply (Hdisj _ H1). apply list_elem_of_here. }
  rewrite fold_left_app. cbn [fold_left].
  rewrite fold_mergeTurn_getProp_other by done.
  rewrite mergeTurn_leaf by done.
  assert (Hin : forall st, inOperator key st.1 st.2 = true).
  { intros st. unfold inOperator. rewrite Hproto. by rewrite orb_true_r. }
  rewrite Hin. by rewrite fold_mergeTurn_getProp_other.
Qed.

(** C10: a leaf of the second operand whose key is a member name of
    [Object.prototype] is never added, since [key in result] is true of it:
    [deepMerge({}, {"constructor": "x"})] is [{}], and the key path
    [constructor] of the second operand is dropped; so is every such leaf
    whose key the first operand lacks.  The key paths of a merge are those
    of its two operands, for either argument order, when no key of the
    operands is such a name. *)
Theorem deepMerge_drops_prototype_named_leaf :
  deepMerge [] [("constructor", JStr "x")] = []
  /\ "constructor" ∈ extractAllKeys [("constructor", JStr "x")] ""
  /\ extractAllKeys (deepMerge [] [("constructor", JStr "x")]) "" = ∅
  /\ (forall (target source : Obj) (key : string) (value : JValue),
        NoDup source.*1 -> (key, value) ∈ source -> isPlainObject value = false ->
        protoMember key = true -> getProp key target = None ->
        getProp key (deepMerge target source) = None)
  /\ (forall (A B : Obj) (prefix : string),
        plainKeys A = true -> plainKeys B = true ->
        extractAllKeys (deepMerge A B) prefix
        = extractAllKeys A prefix ∪ extractAllKeys B prefix
        /\ extractAllKeys (deepMerge B A) prefix
           = extractAllKeys A prefix ∪ extractAllKeys B prefix).
Proof.
  split; [reflexivity|]. split; [set_solver|]. split; [reflexivity|].
  split; [exact deepMerge_drops_leaf|].
  intros A B prefix HA HB. split.
  - by apply (deepMerge_keys_value (JObj B)).
  - rewrite (deepMerge_keys_value (JObj A) A eq_refl HA). set_solver.
Qed.

(** C7: merging the same incoming catalog a second time under
    [overwriteExisting = true] changes nothing. *)
Theorem mergeTranslations_idempotent (A B : Obj) :
  wf_obj B ->
  mergeTranslations true (mergeTranslations true A B) B = mergeTranslations true A B.
Proof. intros Hwf. cbn. by apply (deepMerge_idem_value (JObj B)). Qed.

Lemma mergeTranslations_idempotent_witness :
  wf_obj [("menu", JObj [("home", JStr "Accueil")]); ("title", JStr "Titre")]
  /\ mergeTranslations true
       (mergeTranslations true
          [("menu", JStr "flat"); ("title", JStr "Alt")]
          [("menu", JObj [("home", JStr "Accueil")]); ("title", JStr "Titre")])
       [("menu", JObj [("home", JStr "Accueil")]); ("title", JStr "Titre")]
     = mergeTranslations true
         [("menu", JStr "flat"); ("title", JStr "Alt")]
         [("menu", JObj [("home", JStr "Accueil")]); ("title", JStr "Titre")].
Proof.
  assert (Hwf : wf_obj [("menu", JObj [("home", JStr "Accueil")]); ("title", JStr "Titre")]).
  { cbn. repeat split; apply (bool_decide_unpack _); vm_compute; exact I. }
  split; [exact Hwf | apply (mergeTranslations_idempotent _ _ Hwf)].
Defined.

(** ** Comparison of catalogs *)

(** C8: comparing a catalog with itself reports no missing and no extra
    key. *)
Theorem compare_self_no_difference (A : Obj) :
  missingKeys (compareCatalogs A A) = ∅ /\ extraKeys (compareCatalogs A A) = ∅.
Proof.
  cbn. split; apply leibniz_equiv, set_equiv; intros x;
    rewrite elem_of_filter; set_solver.
Qed.

Lemma nan_not_100 : PrimFloat.nan <> 100%float.
Proof.
  intros H. apply (f_equal PrimFloat.is_nan) in H. vm_compute in H. discriminate.
Qed.

(** C4: with an empty reference catalog the quotient of line 131 is 0/0, so
    the completion percentage is NaN and not 100. *)
Theorem compare_empty_reference_nan (target : Obj) :
  totalReferenceKeys (compareCatalogs [] target) = 0%nat
  /\ missingCount (compareCatalogs [] target) = 0%nat
  /\ completionPercentage (compareCatalogs [] target) = PrimFloat.nan
  /\ completionPercentage (compareCatalogs [] target) <> 100%float.
Proof.
  assert (Hm : filter (fun key => key ∉ extractKeys target "") (extractKeys [] "")
               = (∅ : gset string)).
  { change (extractKeys [] "") with (∅ : gset string).
    apply leibniz_equiv, set_equiv. intros x. rewrite elem_of_filter. set_solver. }
  unfold compareCatalogs.
  cbn [totalReferenceKeys missingCount completionPercentage].
  rewrite Hm. change (extractKeys [] "") with (∅ : gset string).
  rewrite size_empty.
  replace (completionOf 0 0) with PrimFloat.nan by (vm_compute; reflexivity).
  split; [reflexivity|]. split; [reflexivity|]. split; [reflexivity|].
  apply nan_not_100.
Qed.

(** The double-precision product of line 131 can fall just below a half
    that the exact quotient reaches: 29 of 200 keys present is 14.5 percent,
    reported as 14. *)
Lemma completionOf_200_171 : completionOf 200 171 = 14%float.
Proof. vm_compute. reflexivity. Qed.

(** ** CSV escaping *)

Lemma includesChar_existsb (c : ascii) (s : string) :
  includesChar c s = existsb (fun d => Ascii.eqb d c) (list_ascii_of_string s).
Proof. induction s as [|d r IH]; cbn; [done|]. by rewrite IH. Qed.

Lemma csvSpecial_cases (c : ascii) :
  csvSpecial c
  = Ascii.eqb c comma || Ascii.eqb c dquote || Ascii.eqb c lineFeed
    || Ascii.eqb c carriageReturn.
Proof.
  unfold csvSpecial.
  destruct (Ascii.eqb_spec c comma) as [->|H1]; [done|].
  destruct (Ascii.eqb_spec c dquote) as [->|H2]; [done|].
  destruct (Ascii.eqb_spec c lineFeed) as [->|H3]; [done|].
  destruct (Ascii.eqb_spec c carriageReturn) as [->|H4]; [done|].
  apply bool_decide_eq_false. rewrite !elem_of_cons, elem_of_nil. tauto.
Qed.

Lemma needsQuoting_existsb (s : string) :
  includesChar comma s || includesChar dquote s || includesChar lineFeed s
  || includesChar carriageReturn s
  = existsb csvSpecial (list_ascii_of_string s).
Proof.
  induction s as [|d r IH]; cbn [includesChar list_ascii_of_string existsb]; [done|].
  rewrite <- IH, csvSpecial_cases.
  destruct (Ascii.eqb d comma), (Ascii.eqb d dquote), (Ascii.eqb d lineFeed),
    (Ascii.eqb d carriageReturn), (includesChar comma r), (includesChar dquote r),
    (includesChar lineFeed r), (includesChar carriageReturn r); reflexivity.
Qed.

Lemma list_ascii_of_string_app (a b : string) :
  list_ascii_of_string (a +:+ b) = list_ascii_of_string a ++ list_ascii_of_string b.
Proof. induction a as [|c r IH]; simpl; [done|]. by rewrite IH. Qed.

Lemma doubleQuotes_flat_map (s : string) :
  list_ascii_of_string (doubleQuotes s)
  = flat_map (fun c => if Ascii.eqb c dquote then [dquote; dquote] else [c])
      (list_ascii_of_string s).
Proof.
  induction s as [|d r IH]; cbn [doubleQuotes list_ascii_of_string flat_map]; [done|].
  destruct (Ascii.eqb d dquote); cbn; by rewrite IH.
Qed.

Lemma escapeCSVValue_null : escapeCSVValue None = EmptyString.
Proof. reflexivity. Qed.

(** C9: a field with a comma, a double quote or a line break (line feed or
    carriage return) is emitted between double quotes with every double
    quote of it doubled; any other field is emitted as it is. *)
Theorem escapeCSVValue_quoting (field : string) :
  list_ascii_of_string (escapeCSVValue (Some field))
  = if existsb csvSpecial (list_ascii_of_string field)
    then csvQuoted (list_ascii_of_string field)
    else list_ascii_of_string field.
Proof.
  unfold escapeCSVValue. rewrite needsQuoting_existsb.
  destruct (existsb csvSpecial (list_ascii_of_string field)); [|done].
  unfold csvQuoted. cbn [list_ascii_of_string app].
  by rewrite list_ascii_of_string_app, doubleQuotes_flat_map.
Qed.

(** ** The two merge policies of updateTranslations *)

(** C1: with [overwriteExisting = true] the existing leaf survives: the file
    ends up holding "old" under "a", where the incoming-wins policy asks
    for "new". *)
Theorem updateTranslations_overwrite_keeps_old :
  let out :=
    updateTranslations scenarioConfig "locales/de_DE.json"
      [("a", JStr "new"); ("b", JStr "added")]
      {| overwriteExisting := true; preserveStructure := true;
         uo_validateResult := true |}
      (scenarioWorld [("a", JStr "old")]) in
  out.1 = Return (UpdateSuccess 1 2 1 2 (Some scenarioBackup) false)
  /\ files out.2 !! "locales/de_DE.json"
     = Some (Doc [("a", JStr "old"); ("b", JStr "added")])
  /\ mergeTranslations true [("a", JStr "old")] [("a", JStr "new"); ("b", JStr "added")]
     <> [("a", JStr "new"); ("b", JStr "added")].
Proof.
  cbv zeta. split; [vm_compute; reflexivity|]. split; [vm_compute; reflexivity|].
  intros H. vm_compute in H. discriminate.
Qed.

(** C2: with [overwriteExisting = false] the existing leaf is replaced: the
    file ends up holding "new" under "a", where the base-wins policy asks
    for "old". *)
Theorem updateTranslations_default_replaces_old :
  let out :=
    updateTranslations scenarioConfig "locales/de_DE.json"
      [("a", JStr "new"); ("b", JStr "added")]
      defaultUpdateOptions
      (scenarioWorld [("a", JStr "old")]) in
  out.1 = Return (UpdateSuccess 1 2 1 2 (Some scenarioBackup) false)
  /\ files out.2 !! "locales/de_DE.json"
     = Some (Doc [("a", JStr "new"); ("b", JStr "added")])
  /\ mergeTranslations false [("a", JStr "old")] [("a", JStr "new"); ("b", JStr "added")]
     <> [("a", JStr "old"); ("b", JStr "added")].
Proof.
  cbv zeta. split; [vm_compute; reflexivity|]. split; [vm_compute; reflexivity|].
  intros H. vm_compute in H. discriminate.
Qed.

(** ** Order of backup, validation and write in updateCompleteTranslations *)

(** A translation that lacks the reference key "b" fails the pre-write
    validation, yet the backup file has been created by then. *)
Lemma updateComplete_backup_despite_invalid :
  let out :=
    updateCompleteTranslations scenarioConfig "locales/de_DE.json"
      [("a", JStr "neu")]
      {| validateResult := true;
         referenceJson := Some [("a", JStr "x"); ("b", JStr "y")] |}
      (scenarioWorld [("a", JStr "alt")]) in
  out.1 = Return (CompleteFailure
                    "Pre-write validation failed: Structure mismatch: 1 missing, 0 extra keys"
                    (Some scenarioBackup) false)
  /\ files (scenarioWorld [("a", JStr "alt")]) !! scenarioBackup = None
  /\ files out.2 !! scenarioBackup = Some (Doc [("a", JStr "alt")])
  /\ events out.2
     = [ EvLog (UpdatingComplete "locales/de_DE.json");
         EvCopy "locales/de_DE.json" scenarioBackup;
         EvLog (BackupCreated scenarioBackup);
         EvLog ValidationBanner;
         EvLog (ValidationFailed "Structure mismatch: 1 missing, 0 extra keys");
         EvLog ValidationBanner;
         EvLog (CompleteUpdateFailed "locales/de_DE.json"
                  "Pre-write validation failed: Structure mismatch: 1 missing, 0 extra keys");
         EvCopy scenarioBackup "locales/de_DE.json";
         EvLog (FileRestored "locales/de_DE.json");
         EvLog RestoredOriginal ].
Proof. cbv zeta. repeat split; vm_compute; reflexivity. Qed.

(** ** Placeholder extraction *)

Lemma string_app_assoc (a b c : string) : (a +:+ b) +:+ c = a +:+ b +:+ c.
Proof.
  induction a as [|x a IH]; [done|].
  change (String x ((a +:+ b) +:+ c) = String x (a +:+ b +:+ c)). by rewrite IH.
Qed.

Lemma string_app_length (a b : string) :
  String.length (a +:+ b) = (String.length a + String.length b)%nat.
Proof.
  induction a as [|x a IH]; [done|].
  change (S (String.length (a +:+ b)) = S (String.length a + String.length b)).
  by rewrite IH.
Qed.

Lemma isCloseBrace_true (c : ascii) : isCloseBrace c = true -> c = "}"%char.
Proof. apply Ascii.eqb_eq. Qed.

Lemma isOpenBrace_true (c : ascii) : isOpenBrace c = true -> c = "{"%char.
Proof. apply Ascii.eqb_eq. Qed.

Lemma spanBody_spec (s body rest : string) :
  spanBody s = (body, rest) ->
  s = body +:+ rest
  /\ includesChar "}" body = false
  /\ (rest = EmptyString \/ exists r, rest = String "}" r).
Proof.
  revert body rest. induction s as [|c r IH]; intros body rest; cbn [spanBody].
  - intros [= <- <-]. auto.
  - destruct (isCloseBrace c) eqn:Hc.
    + intros [= <- <-]. apply isCloseBrace_true in Hc as ->. eauto.
    + destruct (spanBody r) as [b t]. intros [= <- <-].
      destruct (IH b t eq_refl) as (-> & Hb & Ht).
      split; [done|]. split; [|done]. cbn [includesChar].
      unfold isCloseBrace in Hc. by rewrite Hc, Hb.
Qed.

Lemma spanBody_app (body post : string) :
  includesChar "}" body = false ->
  spanBody (body +:+ String "}" post) = (body, String "}" post).
Proof.
  induction body as [|c b IH]; simpl; [done|].
  intros H. apply orb_false_iff in H as [Hc Hb].
  unfold isCloseBrace. by rewrite Hc, IH.
Qed.

Lemma matchAt_spec (s token rest : string) :
  matchAt s = Some (token, rest) ->
  s = token +:+ rest
  /\ exists body, token = String "{" (body +:+ "}")
                  /\ body <> EmptyString /\ includesChar "}" body = false.
Proof.
  destruct s as [|c r]; cbn [matchAt]; [done|].
  destruct (isOpenBrace c) eqn:Hc; [|done]. apply isOpenBrace_true in Hc as ->.
  destruct (spanBody r) as [body t] eqn:Hspan.
  destruct body as [|b body]; [done|]. destruct t as [|x t]; [done|].
  intros [= <- <-]. destruct (spanBody_spec _ _ _ Hspan) as (-> & Hbody & Ht).
  destruct Ht as [Ht|[t' Ht]]; [done|]. injection Ht as -> ->.
  split.
  - change (String "{" (String b body +:+ String "}" t')
            = String "{" ((String b body +:+ "}") +:+ t')).
    by rewrite string_app_assoc.
  - exists (String b body). done.
Qed.

Lemma matchAt_shorter (s token rest : string) :
  matchAt s = Some (token, rest) -> (String.length rest < String.length s)%nat.
Proof.
  intros H. destruct (matchAt_spec _ _ _ H) as (-> & body & -> & _ & _).
  rewrite string_app_length. simpl. lia.
Qed.

(** Fuel beyond the length of the text is never used. *)
Lemma matchFrom_fuel (fuel1 fuel2 : nat) (s : string) :
  (String.length s <= fuel1)%nat -> (String.length s <= fuel2)%nat ->
  matchFrom fuel1 s = matchFrom fuel2 s.
Proof.
  revert fuel2 s. induction fuel1 as [|f1 IH]; intros fuel2 s H1 H2.
  - destruct s; [|simpl in H1; lia]. by destruct fuel2.
  - destruct fuel2 as [|f2]; [destruct s; [done | simpl in H2; lia]|].
    destruct s as [|c r]; [done|]. cbn [matchFrom].
    destruct (matchAt (String c r)) as [[token rest]|] eqn:Hm.
    + apply matchAt_shorter in Hm. f_equal. apply IH; lia.
    + simpl in H1, H2. apply IH; lia.
Qed.

Lemma matchPlaceholders_cons_skip (c : ascii) (r : string) :
  matchAt (String c r) = None ->
  matchPlaceholders (String c r) = matchPlaceholders r.
Proof.
  intros H. unfold matchPlaceholders. cbn [String.length matchFrom]. by rewrite H.
Qed.

Lemma matchPlaceholders_cons_match (s token rest : string) :
  matchAt s = Some (token, rest) ->
  matchPlaceholders s = token :: matchPlaceholders rest.
Proof.
  intros H. pose proof (matchAt_shorter _ _ _ H) as Hlen.
  unfold matchPlaceholders. destruct s as [|c r]; [done|].
  cbn [String.length matchFrom]. rewrite H. f_equal.
  apply matchFrom_fuel; simpl in Hlen; lia.
Qed.

Lemma matchPlaceholders_shape (text token : string) :
  token ∈ matchPlaceholders text ->
  (exists pre post, text = pre +:+ token +:+ post)
  /\ exists body, token = String "{" (body +:+ "}")
                  /\ body <> EmptyString /\ includesChar "}" body = false.
Proof.
  remember (String.length text) as n eqn:Hn. revert text Hn.
  induction (lt_wf n) as [n _ IH]. intros text -> Hin.
  destruct text as [|c r]; [by apply elem_of_nil in Hin|].
  destruct (matchAt (String c r)) as [[tok rest]|] eqn:Hm.
  - rewrite (matchPlaceholders_cons_match _ _ _ Hm) in Hin.
    destruct (matchAt_spec _ _ _ Hm) as (Hs & Hshape).
    apply elem_of_cons in Hin as [->|Hin].
    + split; [|done]. exists EmptyString, rest. by rewrite Hs.
    + destruct (IH (String.length rest) (matchAt_shorter _ _ _ Hm) rest eq_refl Hin)
        as ((pre & post & Hrest) & Hbody).
      split; [|done]. exists (tok +:+ pre), post.
      by rewrite Hs, Hrest, string_app_assoc.
  - rewrite (matchPlaceholders_cons_skip _ _ Hm) in Hin.
    destruct (IH (String.length r) ltac:(simpl; lia) r eq_refl Hin)
      as ((pre & post & Hrest) & Hbody).
    split; [|done]. exists (String c pre), post. by rewrite Hrest.
Qed.

Lemma matchPlaceholders_first (pre body post : string) :
  includesChar "{" pre = false ->
  body <> EmptyString ->
  includesChar "}" body = false ->
  matchPlaceholders (pre +:+ String "{" (body +:+ String "}" post))
  = String "{" (body +:+ "}") :: matchPlaceholders post.
Proof.
  intros Hpre Hbody Hclose. induction pre as [|c pre IH].
  - apply matchPlaceholders_cons_match.
    change (matchAt (String "{" (body +:+ String "}" post))
            = Some (String "{" (body +:+ "}"), post)).
    unfold matchAt. change (isOpenBrace "{") with true. cbv iota.
    rewrite spanBody_app by done. by destruct body.
  - cbn [includesChar] in Hpre. apply orb_false_iff in Hpre as [Hc Hpre].
    change (matchPlaceholders
              (String c (pre +:+ String "{" (body +:+ String "}" post)))
            = String "{" (body +:+ "}") :: matchPlaceholders post).
    rewrite matchPlaceholders_cons_skip; [by apply IH|].
    unfold matchAt, isOpenBrace. by rewrite Hc.
Qed.

(** Where the text does not read "{" body "}" there is no match. *)
Lemma matchAt_None (c : ascii) (r : string) :
  ~ (exists body post, body <> EmptyString /\ includesChar "}" body = false
                       /\ String c r = String "{" (body +:+ String "}" post)) ->
  matchAt (String c r) = None.
Proof.
  intros Hno. destruct (matchAt (String c r)) as [[token rest]|] eqn:Hm; [|done].
  destruct Hno. destruct (matchAt_spec _ _ _ Hm) as (Hs & body & -> & Hne & Hbody).
  exists body, rest. split; [done|]. split; [done|]. rewrite Hs.
  change (String "{" ((body +:+ "}") +:+ rest) = String "{" (body +:+ String "}" rest)).
  by rewrite string_app_assoc.
Qed.

(** C6, as the code has it: the tokens are the leftmost non-overlapping
    substrings of the form "{" body "}", where the body is any non-empty run
    of characters other than the closing brace (not only identifier
    characters).  Every extracted token is such a substring of the text.
    The scan goes from left to right: where the text reads "{" body "}"
    with such a body, that substring is the next token and the scan resumes
    behind it; at any other character the scan moves one character on; the
    empty text holds no token.  Hence a token before which no opening brace
    stands is the first one, and the two tokens of the example are found. *)
Theorem matchPlaceholders_brace_delimited :
  (forall text token : string,
     token ∈ matchPlaceholders text ->
     (exists pre post, text = pre +:+ token +:+ post)
     /\ exists body, token = String "{" (body +:+ "}")
                     /\ body <> EmptyString /\ includesChar "}" body = false)
  /\ matchPlaceholders EmptyString = []
  /\ (forall body post : string,
        body <> EmptyString ->
        includesChar "}" body = false ->
        matchPlaceholders (String "{" (body +:+ String "}" post))
        = String "{" (body +:+ "}") :: matchPlaceholders post)
  /\ (forall (c : ascii) (r : string),
        ~ (exists body post, body <> EmptyString /\ includesChar "}" body = false
                             /\ String c r = String "{" (body +:+ String "}" post)) ->
        matchPlaceholders (String c r) = matchPlaceholders r)
  /\ (forall pre body post : string,
        includesChar "{" pre = false ->
        body <> EmptyString ->
        includesChar "}" body = false ->
        matchPlaceholders (pre +:+ String "{" (body +:+ String "}" post))
        = String "{" (body +:+ "}") :: matchPlaceholders post)
  /\ matchPlaceholders "Hello {name}, {count} items" = ["{name}"; "{count}"]
  /\ matchPlaceholders "{} {a}" = ["{a}"].
Proof.
  split; [exact matchPlaceholders_shape|]. split; [reflexivity|].
  split; [intros body post; apply (matchPlaceholders_first EmptyString); reflexivity|].
  split; [intros c r Hno; by apply matchPlaceholders_cons_skip, matchAt_None|].
  split; [exact matchPlaceholders_first|].
  split; vm_compute; reflexivity.
Qed.

(** A token need not be an identifier between braces, and an identifier
    between braces need not be a token. *)
Lemma matchPlaceholders_not_only_identifiers :
  matchPlaceholders "Total {0, number} in {a{b}" = ["{0, number}"; "{a{b}"]
  /\ isValidPlaceholder "{0, number}" = false
  /\ isValidPlaceholder "{b}" = true
  /\ "{b}" ∉ matchPlaceholders "Total {0, number} in {a{b}".
Proof.
  split; [vm_compute; reflexivity|]. split; [vm_compute; reflexivity|].
  split; [vm_compute; reflexivity|].
  apply (bool_decide_unpack _). vm_compute. exact I.
Qed.

(** ** Placeholder consistency *)

Lemma elem_of_fold_setAdd (x : string) (l acc : list string) :
  x ∈ fold_left setAdd l acc <-> x ∈ acc \/ x ∈ l.
Proof.
  revert acc. induction l as [|y l IH]; intros acc; cbn [fold_left].
  - rewrite elem_of_nil. tauto.
  - rewrite IH, elem_of_cons. unfold setAdd. case_bool_decide as Hy.
    + split; [tauto|]. intros [?|[->|?]]; tauto.
    + rewrite elem_of_app, list_elem_of_singleton. tauto.
Qed.

Lemma elem_of_jsSet (x : string) (l : list string) : x ∈ jsSet l <-> x ∈ l.
Proof. unfold jsSet. rewrite elem_of_fold_setAdd, elem_of_nil. tauto. Qed.

Lemma find_absent_Some (s other : list string) (p : string) :
  List.find (fun x => negb (setHas other x)) s = Some p -> p ∈ s /\ p ∉ other.
Proof.
  intros H. apply find_some in H as [Hin Hno]. split; [by apply list_elem_of_In|].
  unfold setHas in Hno. apply negb_true_iff, bool_decide_eq_false in Hno. done.
Qed.

Lemma find_absent_None (s other : list string) :
  List.find (fun x => negb (setHas other x)) s = None -> forall x, x ∈ s -> x ∈ other.
Proof.
  intros H x Hx. apply list_elem_of_In in Hx.
  pose proof (find_none _ _ H x Hx) as Hno. cbn in Hno.
  unfold setHas in Hno. apply negb_false_iff, bool_decide_eq_true in Hno. done.
Qed.

(** C5, as the code has it: the check answers [false] exactly when some
    token is missing or extra; it then records one error and stops, for a
    missing token if there is one and for an extra token otherwise; an
    answer [true] records nothing. *)
Theorem validatePlaceholderConsistency_one_error
    (v : Validator) (referenceText translatedText path : string) :
  let refTokens : gset string := list_to_set (matchPlaceholders referenceText) in
  let transTokens : gset string := list_to_set (matchPlaceholders translatedText) in
  let missing := refTokens ∖ transTokens in
  let extra := transTokens ∖ refTokens in
  let out := validatePlaceholderConsistency v referenceText translatedText path in
  (out.1 = false <-> missing <> ∅ \/ extra <> ∅)
  /\ warnings out.2 = warnings v
  /\ (out.1 = true -> errors out.2 = errors v)
  /\ (out.1 = false ->
      exists p kind,
        errors out.2
        = errors v ++ [ {| message := kind p path; ctxPath := path;
                           ctxPlaceholder := p; ctxReference := referenceText;
                           ctxTranslation := translatedText |} ]
        /\ (kind = MissingPlaceholder /\ p ∈ missing
            \/ kind = ExtraPlaceholder /\ p ∈ extra /\ missing = ∅)).
Proof.
  intros refTokens transTokens missing extra out.
  subst out missing extra refTokens transTokens.
  unfold validatePlaceholderConsistency.
  destruct (List.find _ (jsSet (matchPlaceholders referenceText))) as [p|] eqn:Href.
  - apply find_absent_Some in Href as [Hin Hout].
    rewrite elem_of_jsSet in Hin, Hout. cbn [fst snd addError errors warnings].
    assert (p ∈ (list_to_set (matchPlaceholders referenceText) : gset string)
                ∖ list_to_set (matchPlaceholders translatedText)) as Hp.
    { rewrite elem_of_difference, !elem_of_list_to_set. done. }
    split; [split; [intros _; left; set_solver | done]|].
    split; [done|]. split; [done|]. intros _.
    exists p, MissingPlaceholder. split; [done|]. by left.
  - pose proof (find_absent_None _ _ Href) as Hall.
    assert ((list_to_set (matchPlaceholders referenceText) : gset string)
              ∖ list_to_set (matchPlaceholders translatedText) = ∅) as Hmissing.
    { apply leibniz_equiv, set_equiv. intros x.
      rewrite elem_of_difference, !elem_of_list_to_set.
      specialize (Hall x). rewrite !elem_of_jsSet in Hall. set_solver. }
    destruct (List.find _ (jsSet (matchPlaceholders translatedText))) as [p|] eqn:Htrans.
    + apply find_absent_Some in Htrans as [Hin Hout].
      rewrite elem_of_jsSet in Hin, Hout. cbn [fst snd addError errors warnings].
      assert (p ∈ (list_to_set (matchPlaceholders translatedText) : gset string)
                  ∖ list_to_set (matchPlaceholders referenceText)) as Hp.
      { rewrite elem_of_difference, !elem_of_list_to_set. done. }
      split; [split; [intros _; right; set_solver | done]|].
      split; [done|]. split; [done|]. intros _.
      exists p, ExtraPlaceholder. split; [done|]. right. done.
    + pose proof (find_absent_None _ _ Htrans) as Hall'.
      assert ((list_to_set (matchPlaceholders translatedText) : gset string)
                ∖ list_to_set (matchPlaceholders referenceText) = ∅) as Hextra.
      { apply leibniz_equiv, set_equiv. intros x.
        rewrite elem_of_difference, !elem_of_list_to_set.
        specialize (Hall' x). rewrite !elem_of_jsSet in Hall'. set_solver. }
      cbn [fst snd]. rewrite Hmissing, Hextra.
      split; [split; [done | intros [?|?]; done]|]. done.
Qed.

(** For "Hi {user}" against "Hola {usuario}" only the missing "{user}" is
    recorded; the extra "{usuario}" is not reported. *)
Lemma validatePlaceholderConsistency_extra_unreported :
  let out :=
    validatePlaceholderConsistency {| errors := []; warnings := [] |}
      "Hi {user}" "Hola {usuario}" "greeting" in
  out.1 = false
  /\ reportedMissing (errors out.2) = {[ "{user}" ]}
  /\ reportedExtra (errors out.2) = ∅
  /\ reportedExtra (errors out.2) <> {[ "{usuario}" ]}.
Proof.
  cbv zeta.
  assert (Hrun :
    validatePlaceholderConsistency {| errors := []; warnings := [] |}
      "Hi {user}" "Hola {usuario}" "greeting"
    = (false,
       {| errors := [ {| message := MissingPlaceholder "{user}" "greeting";
                         ctxPath := "greeting"; ctxPlaceholder := "{user}";
                         ctxReference := "Hi {user}";
                         ctxTranslation := "Hola {usuario}" |} ];
          warnings := [] |})) by (vm_compute; reflexivity).
  rewrite Hrun. cbn [fst snd errors reportedMissing reportedExtra omap message].
  split; [done|]. split; [set_solver|]. split; [set_solver|]. set_solver.
Qed.

(** ** Running the update functions *)

Lemma truthyPath_join (dir name : string) : truthyPath (Some (pathJoin dir name)) = true.
Proof. by destruct dir. Qed.

Lemma is_Some_Some_true {A} (x : A) : bool_decide (is_Some (Some x)) = true.
Proof. apply bool_decide_eq_true. eauto. Qed.

Lemma is_Some_None_false {A} : bool_decide (is_Some (@None A)) = false.
Proof. apply bool_decide_eq_false. by intros [? ?]. Qed.

(** Symbolic execution of the monadic code: unfold the operations, then
    alternate between simplifying and splitting on the next test. *)
Ltac runM :=
  unfold updateCompleteTranslations, recoverUpdate, restoreFromBackup, createBackup,
    validateTranslationStructure, validateJsonStructure, tryCatch, throw, logger, emit,
    existsSync, readJson, copyFileSync, writeFileSync, toISOString,
    mbind, mret, M_bind, M_ret.

Ltac simplM :=
  first
    [ progress cbn [files isoNow events fst snd negb andb showPath] in *
    | rewrite truthyPath_join
    | progress change (truthyPath None) with false
    | rewrite is_Some_Some_true
    | rewrite is_Some_None_false
    | rewrite lookup_insert_eq ].

Ltac caseM :=
  match goal with
  | |- context [bool_decide (is_Some ?y)] =>
      lazymatch y with
      | Some _ => fail
      | None => fail
      | _ => let E := fresh "E" in destruct y eqn:E
      end
  | |- context [match ?x with _ => _ end] =>
      lazymatch x with
      | context [match _ with _ => _ end] => fail
      | negb ?y => let E := fresh "E" in destruct y eqn:E
      | _ => let E := fresh "E" in destruct x eqn:E
      end
  end.

(** [H : e ∈ [e1; ...; en]] with no [ei] of the shape of [e]. *)
Ltac notIn H :=
  repeat (apply elem_of_cons in H as [H|H]; [discriminate H|]);
  by apply elem_of_nil in H.

(** [H : e ∈ [e1; ...; en]]: keep the [ei] of the shape of [e]. *)
Ltac whichIn H :=
  repeat (apply elem_of_cons in H as [H|H];
          [first [discriminate H | injection H as H] |]);
  try (by apply elem_of_nil in H).

Ltac occurAt i j :=
  exists i, j; do 2 eexists;
  split; [reflexivity|]; split; [reflexivity|];
  split; [first [reflexivity | exact I]|]; split; [reflexivity | lia].

(** ** The steps of an update, as equations *)

Lemma createBackup_run (cfg : Config) (filePath : string) (w : World) :
  createBackup cfg filePath w
  = if backupEnabled cfg then
      match files w !! filePath with
      | Some c =>
          (Return (Some (backupPathOf cfg w filePath)),
           {| files := <[backupPathOf cfg w filePath := c]> (files w);
              isoNow := isoNow w;
              events := events w ++ [EvCopy filePath (backupPathOf cfg w filePath);
                                     EvLog (BackupCreated (backupPathOf cfg w filePath))] |})
      | None => (Return (Some (backupPathOf cfg w filePath)), w)
      end
    else (Return None, w).
Proof.
  unfold backupPathOf, createBackup, tryCatch, throw, logger, emit, existsSync,
    copyFileSync, toISOString, mbind, mret, M_bind, M_ret.
  destruct (backupEnabled cfg); [|done]. cbn [negb].
  destruct (files w !! filePath) eqn:E.
  - rewrite is_Some_Some_true. cbn [files isoNow events]. rewrite E.
    cbn [files isoNow events]. by rewrite <- app_assoc.
  - by rewrite is_Some_None_false.
Qed.

Lemma recoverUpdate_run {A} (cfg : Config) (targetPath : string)
    (failedMessage : string -> string -> LogMessage)
    (failure : string -> option string -> bool -> A)
    (backupPath : option string) (error : string) (w : World) :
  recoverUpdate cfg targetPath failedMessage failure backupPath error w
  = (Return (failure error backupPath (dryRun cfg)),
     if truthyPath backupPath && negb (dryRun cfg) then
       match files w !! showPath backupPath with
       | Some c =>
           {| files := <[targetPath := c]> (files w); isoNow := isoNow w;
              events := events w ++ [EvLog (failedMessage targetPath error);
                                     EvCopy (showPath backupPath) targetPath;
                                     EvLog (FileRestored targetPath);
                                     EvLog RestoredOriginal] |}
       | None =>
           {| files := files w; isoNow := isoNow w;
              events := events w ++ [EvLog (failedMessage targetPath error);
                                     EvLog (RestoreAttemptFailed
                                              ("Backup file not found: "
                                               +:+ showPath backupPath))] |}
       end
     else {| files := files w; isoNow := isoNow w;
             events := events w ++ [EvLog (failedMessage targetPath error)] |}).
Proof.
  unfold recoverUpdate, restoreFromBackup, tryCatch, throw, logger, emit, existsSync,
    copyFileSync, mbind, mret, M_bind, M_ret.
  cbn [files isoNow events].
  destruct (truthyPath backupPath) eqn:Ht; cbn [andb]; [|done].
  destruct (dryRun cfg); cbn [negb]; [done|]. cbn [files isoNow events].
  destruct (files w !! showPath backupPath) eqn:E.
  - rewrite is_Some_Some_true. cbn [negb files isoNow events]. rewrite E.
    cbn [files isoNow events]. by rewrite <- !app_assoc.
  - rewrite is_Some_None_false. cbn [negb files isoNow events]. by rewrite <- !app_assoc.
Qed.

Lemma validateTranslationStructure_run (cfg : Config) (completeTranslations : Obj)
    (given : option Obj) (w : World) :
  validateTranslationStructure cfg completeTranslations given w
  = match given with
    | Some reference => (Return (structureVerdict reference completeTranslations), w)
    | None =>
        match files w !! pathJoin (localesDir cfg) "en_US.json" with
        | Some (Doc reference) =>
            (Return (structureVerdict reference completeTranslations), w)
        | Some (Corrupt parseError) => (Throw parseError, w)
        | None => (Return NoReference, w)
        end
    end.
Proof.
  unfold validateTranslationStructure, structureVerdict, existsSync, readJson,
    mbind, mret, M_bind, M_ret.
  destruct given as [reference|].
  - rewrite (is_Some_Some_true reference). cbn [negb]. by rewrite andb_false_r.
  - rewrite (@is_Some_None_false Obj). cbn [negb]. rewrite andb_true_r.
    destruct (files w !! pathJoin (localesDir cfg) "en_US.json") as [[o|m]|] eqn:E.
    + rewrite is_Some_Some_true. by rewrite E.
    + rewrite is_Some_Some_true. by rewrite E.
    + by rewrite is_Some_None_false.
Qed.

Ltac stepM :=
  repeat first
    [ progress cbv beta iota zeta
    | progress cbn [files isoNow events fst snd negb andb]
    | rewrite is_Some_Some_true
    | rewrite is_Some_None_false
    | rewrite truthyPath_join
    | progress change (truthyPath None) with false ].

Ltac stepU :=
  repeat first
    [ progress stepM
    | rewrite createBackup_run
    | rewrite validateTranslationStructure_run
    | rewrite recoverUpdate_run
    | progress unfold backupPathOf
    | progress cbn [showPath]
    | progress change (isValid NoReference) with true
    | rewrite lookup_insert_eq
    | match goal with
      | H : ?x !! ?p = _ |- context [?x !! ?p] => rewrite H
      | H : dryRun ?c = _ |- context [dryRun ?c] => rewrite H
      | H : backupEnabled ?c = _ |- context [backupEnabled ?c] => rewrite H
      end ].

Lemma updateComplete_cases (cfg : Config) (targetPath : string)
    (completeTranslations : Obj) (options : CompleteOptions) (w : World) :
  let out := updateCompleteTranslations cfg targetPath completeTranslations options w in
  let bp := backupPathOf cfg w targetPath in
  match files w !! targetPath with
  | Some (Corrupt parseError) =>
      out.1 = Return (CompleteFailure parseError None (dryRun cfg))
      /\ files out.2 = files w
  | content =>
      let original := match content with Some (Doc o) => o | _ => [] end in
      let copied := negb (dryRun cfg) && backupEnabled cfg in
      let backupPath := if copied then Some bp else None in
      let saved :=
        match content with
        | Some c => if copied then <[bp := c]> (files w) else files w
        | None => files w
        end in
      let verdict :=
        if validateResult options then
          match referenceJson options with
          | Some reference => Return (structureVerdict reference completeTranslations)
          | None =>
              match saved !! pathJoin (localesDir cfg) "en_US.json" with
              | Some (Doc reference) =>
                  Return (structureVerdict reference completeTranslations)
              | Some (Corrupt parseError) => Throw parseError
              | None => Return NoReference
              end
          end
        else Return NoReference in
      let failed error :=
        out.1 = Return (CompleteFailure error backupPath (dryRun cfg))
        /\ files out.2
           = if copied then
               match saved !! bp with
               | Some c => <[targetPath := c]> saved
               | None => saved
               end
             else saved in
      match verdict with
      | Return sv =>
          if isValid sv then
            out.1 = Return (CompleteSuccess (countKeys original)
                              (countKeys completeTranslations)
                              (countKeys completeTranslations) backupPath (dryRun cfg))
            /\ files out.2
               = if dryRun cfg then files w
                 else <[targetPath := Doc completeTranslations]> saved
          else failed ("Pre-write validation failed: " +:+ svMessage sv)
      | Throw error => failed error
      end
  end.
Proof.
  intros out bp. subst out bp.
  unfold updateCompleteTranslations, tryCatch, logger, emit, existsSync, readJson,
    writeFileSync, validateJsonStructure, throw, mbind, mret, M_bind, M_ret.
  stepM.
  destruct (files w !! targetPath) as [[original|parseError]|] eqn:Etp;
    stepU; rewrite ?Etp; stepU.
  2: done.
  all: destruct (dryRun cfg) eqn:Edry; stepU; rewrite ?Etp; stepU.
  all: destruct (backupEnabled cfg) eqn:Eb; stepU; rewrite ?Etp; stepU.
  all: destruct (validateResult options) eqn:Ev; stepU.
  all: try (destruct (referenceJson options) as [reference|] eqn:Er); stepU.
  all: repeat match goal with
       | |- context [match ?x !! ?p with _ => _ end] =>
           let f := fresh "f" in destruct (x !! p) as [f|] eqn:?; [destruct f|]
       end; stepU.
  all: repeat match goal with
       | |- context [isValid ?s] => destruct (isValid s) eqn:?; stepU
       end.
  all: rewrite ?Edry; stepU.
  all: try (split; reflexivity).
  all: repeat match goal with
       | |- context [match ?x !! ?p with _ => _ end] =>
           destruct (x !! p) as [?|] eqn:?
       end; stepU.
  all: try (split; reflexivity).
Qed.

(** The events of a run of [updateCompleteTranslations], in the cases of
    [updateComplete_cases]. *)
Lemma updateComplete_trace (cfg : Config) (targetPath : string)
    (completeTranslations : Obj) (options : CompleteOptions) (w : World) :
  let out := updateCompleteTranslations cfg targetPath completeTranslations options w in
  let bp := backupPathOf cfg w targetPath in
  events out.2
  = events w ++ EvLog (UpdatingComplete targetPath) ::
    match files w !! targetPath with
    | Some (Corrupt parseError) => [EvLog (CompleteUpdateFailed targetPath parseError)]
    | content =>
        let copied := negb (dryRun cfg) && backupEnabled cfg in
        let saved :=
          match content with
          | Some c => if copied then <[bp := c]> (files w) else files w
          | None => files w
          end in
        let verdict :=
          if validateResult options then
            match referenceJson options with
            | Some reference => Return (structureVerdict reference completeTranslations)
            | None =>
                match saved !! pathJoin (localesDir cfg) "en_US.json" with
                | Some (Doc reference) =>
                    Return (structureVerdict reference completeTranslations)
                | Some (Corrupt parseError) => Throw parseError
                | None => Return NoReference
                end
            end
          else Return NoReference in
        let failed error :=
          EvLog (CompleteUpdateFailed targetPath error) ::
          (if copied then
             match saved !! bp with
             | Some _ => [EvCopy bp targetPath; EvLog (FileRestored targetPath);
                          EvLog RestoredOriginal]
             | None => [EvLog (RestoreAttemptFailed ("Backup file not found: " +:+ bp))]
             end
           else []) in
        (match content with
         | Some _ => if copied then [EvCopy targetPath bp; EvLog (BackupCreated bp)]
                     else []
         | None => []
         end)
        ++ match verdict with
           | Return sv =>
               if isValid sv then
                 (if validateResult options
                  then [EvLog (ValidationPassed (svReferenceKeyCount sv))] else [])
                 ++ (if dryRun cfg then [EvLog (WouldUpdateComplete targetPath)]
                     else [EvWrite targetPath (Doc completeTranslations);
                           EvLog (CompleteWritten targetPath)])
               else [EvLog ValidationBanner; EvLog (ValidationFailed (svMessage sv));
                     EvLog ValidationBanner]
                    ++ failed ("Pre-write validation failed: " +:+ svMessage sv)
           | Throw error => failed error
           end
    end.
Proof.
  intros out bp. subst out bp.
  unfold updateCompleteTranslations, tryCatch, logger, emit, existsSync, readJson,
    writeFileSync, validateJsonStructure, throw, mbind, mret, M_bind, M_ret.
  stepM.
  destruct (files w !! targetPath) as [[original|parseError]|] eqn:Etp;
    stepU; rewrite ?Etp; stepU.
  2: by rewrite <- !app_assoc.
  all: destruct (dryRun cfg) eqn:Edry; stepU; rewrite ?Etp; stepU.
  all: destruct (backupEnabled cfg) eqn:Eb; stepU; rewrite ?Etp; stepU.
  all: destruct (validateResult options) eqn:Ev; stepU.
  all: try (destruct (referenceJson options) as [reference|] eqn:Er); stepU.
  all: repeat match goal with
       | |- context [match ?x !! ?p with _ => _ end] =>
           let f := fresh "f" in destruct (x !! p) as [f|] eqn:?; [destruct f|]
       end; stepU.
  all: repeat match goal with
       | |- context [isValid ?s] => destruct (isValid s) eqn:?; stepU
       end.
  all: rewrite ?Edry; stepU.
  all: try (rewrite <- !app_assoc; reflexivity).
  all: repeat match goal with
       | |- context [match ?x !! ?p with _ => _ end] =>
           destruct (x !! p) as [?|] eqn:?
       end; stepU.
  all: try (rewrite <- !app_assoc; reflexivity).
Qed.

(** ** Every run of updateTranslations *)

Ltac runU :=
  unfold updateTranslations, recoverUpdate, restoreFromBackup, createBackup,
    validateJsonStructure, tryCatch, throw, logger, emit,
    existsSync, readJson, copyFileSync, writeFileSync, toISOString,
    mbind, mret, M_bind, M_ret.

Lemma updateTranslations_cases (cfg : Config) (targetPath : string)
    (newTranslations : Obj) (options : UpdateOptions) (w : World) :
  let out := updateTranslations cfg targetPath newTranslations options w in
  let bp := backupPathOf cfg w targetPath in
  match files w !! targetPath with
  | Some (Corrupt parseError) =>
      out.1 = Return (UpdateFailure parseError None (dryRun cfg))
      /\ files out.2 = files w
  | content =>
      let original := match content with Some (Doc o) => o | _ => [] end in
      let merged := mergeTranslations (overwriteExisting options) original newTranslations in
      let backupPath :=
        if dryRun cfg then None
        else if backupEnabled cfg then Some bp else None in
      out.1 = Return (UpdateSuccess (countKeys original) (countKeys newTranslations)
                        (Z.of_nat (countKeys merged) - Z.of_nat (countKeys original))
                        (countKeys merged) backupPath (dryRun cfg))
      /\ files out.2
         = if dryRun cfg then files w
           else <[targetPath := Doc merged]>
                  (match content with
                   | Some c => if backupEnabled cfg then <[bp := c]> (files w) else files w
                   | None => files w
                   end)
  end.
Proof.
  intros out bp. subst out bp. unfold backupPathOf.
  runU. cbv beta iota zeta. cbn [files isoNow events].
  destruct (files w !! targetPath) as [[original|parseError]|] eqn:Etp.
  all: repeat first [simplM | caseM].
  all: simplify_eq.
  all: try (split; reflexivity).
Qed.

(** The events of a run of [updateTranslations]. *)
Lemma updateTranslations_trace (cfg : Config) (targetPath : string)
    (newTranslations : Obj) (options : UpdateOptions) (w : World) :
  let out := updateTranslations cfg targetPath newTranslations options w in
  let bp := backupPathOf cfg w targetPath in
  events out.2
  = events w ++ EvLog (Updating targetPath) ::
    match files w !! targetPath with
    | Some (Corrupt parseError) => [EvLog (UpdateFailed targetPath parseError)]
    | content =>
        let original := match content with Some (Doc o) => o | _ => [] end in
        let merged :=
          mergeTranslations (overwriteExisting options) original newTranslations in
        (match content with
         | Some _ => if negb (dryRun cfg) && backupEnabled cfg
                     then [EvCopy targetPath bp; EvLog (BackupCreated bp)]
                     else []
         | None => []
         end)
        ++ (if dryRun cfg then [EvLog (WouldUpdate targetPath)]
            else [EvWrite targetPath (Doc merged);
                  EvLog (TranslationsWritten targetPath)])
    end.
Proof.
  intros out bp. subst out bp. unfold backupPathOf.
  runU. cbv beta iota zeta. cbn [files isoNow events].
  destruct (files w !! targetPath) as [[original|parseError]|] eqn:Etp.
  all: repeat first [simplM | caseM].
  all: simplify_eq.
  all: rewrite <- ?app_assoc; reflexivity.
Qed.

(** ** Backup, validation and write in every run of updateCompleteTranslations *)

(** C3, as the code has it: the backup comes first, then the validation,
    then the write.  Whenever validation is requested and the translation
    does not have the key paths of the reference it is checked against (the
    one given in the options, else the content of en_US.json), nothing is
    written and the call reports a failure: 'Pre-write validation failed:
    ...' unless the target could not even be parsed.  An existing target
    keeps its content, but with backups enabled and no dry run its backup
    copy has been made before the validation failed, and the backup file
    holds the content of the target.  With validation requested, a write
    happens only after the validation has passed. *)
Theorem updateComplete_backup_then_validation_then_write
    (cfg : Config) (targetPath : string) (completeTranslations : Obj)
    (options : CompleteOptions) (w : World) :
  let out := updateCompleteTranslations cfg targetPath completeTranslations options w in
  let bp := backupPathOf cfg w targetPath in
  let referencePath := pathJoin (localesDir cfg) "en_US.json" in
  exists new, events out.2 = events w ++ new /\
    (forall reference,
       validateResult options = true ->
       (referenceJson options = Some reference
        \/ (referenceJson options = None
            /\ files w !! referencePath = Some (Doc reference)
            /\ bp <> referencePath)) ->
       isValid (structureVerdict reference completeTranslations) = false ->
       let message := svMessage (structureVerdict reference completeTranslations) in
       (forall p c, EvWrite p c ∉ new)
       /\ (exists error backupPath,
             out.1 = Return (CompleteFailure error backupPath (dryRun cfg)))
       /\ ((forall parseError, files w !! targetPath <> Some (Corrupt parseError)) ->
           out.1 = Return (CompleteFailure ("Pre-write validation failed: " +:+ message)
                             (if negb (dryRun cfg) && backupEnabled cfg
                              then Some bp else None)
                             (dryRun cfg))
           /\ EvLog (ValidationFailed message) ∈ new)
       /\ (forall original, files w !! targetPath = Some (Doc original) ->
           files out.2 !! targetPath = Some (Doc original)
           /\ (backupEnabled cfg = true -> dryRun cfg = false ->
               happensBefore (eq (EvCopy targetPath bp))
                 (eq (EvLog (ValidationFailed message))) new
               /\ files out.2 !! bp = Some (Doc original))))
    /\ (forall p c, EvWrite p c ∈ new -> validateResult options = true ->
        happensBefore isValidationPassed (eq (EvWrite p c)) new).
Proof.
  intros out bp referencePath.
  pose proof (updateComplete_cases cfg targetPath completeTranslations options w) as Hc.
  pose proof (updateComplete_trace cfg targetPath completeTranslations options w) as Ht.
  cbv zeta in Hc, Ht. fold out bp referencePath in Hc, Ht.
  eexists. split; [exact Ht|]. clear Ht.
  split.
  - intros reference Hv Href Hinvalid message.
    rewrite Hv in *.
    assert (Hverdict :
      forall saved, (saved = files w \/ exists c, saved = <[bp := c]> (files w)) ->
        match referenceJson options with
        | Some reference0 => Return (structureVerdict reference0 completeTranslations)
        | None =>
            match saved !! referencePath with
            | Some (Doc reference0) =>
                Return (structureVerdict reference0 completeTranslations)
            | Some (Corrupt parseError) => Throw parseError
            | None => Return NoReference
            end
        end = Return (structureVerdict reference completeTranslations)).
    { intros saved Hsaved. destruct Href as [-> | (-> & Hfile & Hne)]; [done|].
      destruct Hsaved as [-> | [c ->]]; [by rewrite Hfile|].
      by rewrite lookup_insert_ne, Hfile. }
    destruct (files w !! targetPath) as [[original|parseError]|] eqn:Etp.
    + rewrite Hverdict in Hc |- *
        by (destruct (negb (dryRun cfg) && backupEnabled cfg); eauto).
      rewrite Hinvalid in Hc |- *. fold message in Hc |- *.
      destruct Hc as [Hres Hfiles].
      destruct (negb (dryRun cfg) && backupEnabled cfg) eqn:Ecopied;
        rewrite ?lookup_insert_eq in Hfiles |- *; cbn [app].
      all: split; [intros p c Hin; notIn Hin|].
      all: split; [eauto|].
      all: split; [intros _; split; [exact Hres|];
                   repeat first [apply list_elem_of_here | apply list_elem_of_further]|].
      all: intros original0 [= <-]; rewrite Hfiles.
      * rewrite lookup_insert_eq. split; [done|]. intros _ _.
        split; [occurAt 1%nat 4%nat|].
        rewrite lookup_insert; case_decide; [done | by rewrite lookup_insert_eq].
      * split; [done|]. intros Hb Hd. by rewrite Hb, Hd in Ecopied.
    + destruct Hc as [Hres Hfiles].
      split; [intros p c Hin; notIn Hin|]. split; [eauto|].
      split; [intros Hno; by destruct (Hno parseError)|]. by intros original [=].
    + rewrite Hverdict in Hc |- * by eauto.
      rewrite Hinvalid in Hc |- *. fold message in Hc |- *.
      destruct Hc as [Hres Hfiles]. cbn [app].
      split.
      { destruct (negb (dryRun cfg) && backupEnabled cfg); [destruct (files w !! bp)|];
          intros p c Hin; notIn Hin. }
      split; [eauto|].
      split; [intros _; split; [exact Hres|];
              repeat first [apply list_elem_of_here | apply list_elem_of_further]|].
      by intros original [=].
  - intros p c Hin Hv. rewrite Hv in Hin |- *. clear Hc.
    destruct (files w !! targetPath) as [[original|parseError]|] eqn:Etp;
      destruct (dryRun cfg), (backupEnabled cfg); cbn [negb andb app] in Hin |- *;
      rewrite ?lookup_insert_eq in Hin |- *.
    all: try (exfalso; notIn Hin).
    all: destruct (referenceJson options) as [given|].
    all: repeat match goal with
         | |- context [match ?x !! ?q with _ => _ end] =>
             let f := fresh "f" in destruct (x !! q) as [f|] eqn:?; [destruct f|]
         end.
    all: repeat match goal with
         | |- context [isValid ?sv] => destruct (isValid sv) eqn:?
         end.
    all: cbn [app] in Hin |- *.
    all: try (exfalso; notIn Hin).
    all: whichIn Hin; subst; first [occurAt 1%nat 2%nat | occurAt 3%nat 4%nat].
Qed.

Lemma updateComplete_backup_then_validation_then_write_witness :
  let w := scenarioWorld [("a", JStr "alt")] in
  let reference := [("a", JStr "x"); ("b", JStr "y")] in
  let out :=
    updateCompleteTranslations scenarioConfig "locales/de_DE.json"
      [("a", JStr "neu")]
      {| validateResult := true; referenceJson := Some reference |} w in
  let message := svMessage (structureVerdict reference [("a", JStr "neu")]) in
  isValid (structureVerdict reference [("a", JStr "neu")]) = false
  /\ (forall p c, EvWrite p c ∉ events out.2)
  /\ out.1 = Return (CompleteFailure ("Pre-write validation failed: " +:+ message)
                       (Some scenarioBackup) false)
  /\ files out.2 !! "locales/de_DE.json" = Some (Doc [("a", JStr "alt")])
  /\ happensBefore (eq (EvCopy "locales/de_DE.json" scenarioBackup))
       (eq (EvLog (ValidationFailed message))) (events out.2)
  /\ files out.2 !! scenarioBackup = Some (Doc [("a", JStr "alt")]).
Proof.
  intros w reference out message.
  assert (Hinvalid : isValid (structureVerdict reference [("a", JStr "neu")]) = false)
    by (vm_compute; reflexivity).
  destruct (updateComplete_backup_then_validation_then_write
              scenarioConfig "locales/de_DE.json" [("a", JStr "neu")]
              {| validateResult := true; referenceJson := Some reference |} w)
    as (new & Hev & Hfail & _).
  fold out in Hev. change (events w) with (@nil Event) in Hev.
  cbn [app] in Hev. rewrite <- Hev in Hfail.
  destruct (Hfail reference eq_refl (or_introl eq_refl) Hinvalid)
    as (Hnowrite & _ & Hres & Hkeep).
  destruct Hres as [Hres _]; [by intros parseError|].
  destruct (Hkeep [("a", JStr "alt")] eq_refl) as [Htarget Hbackup].
  destruct Hbackup as [Hbefore Hfile]; [reflexivity | reflexivity |].
  split; [exact Hinvalid|]. split; [exact Hnowrite|]. split; [exact Hres|].
  split; [exact Htarget|]. split; [exact Hbefore | exact Hfile].
Defined.

Lemma validatePlaceholderConsistency_one_error_witness :
  let out :=
    validatePlaceholderConsistency {| errors := []; warnings := [] |}
      "Hi {user}" "Hola {usuario}" "greeting" in
  out.1 = false
  /\ exists p kind,
       errors out.2
       = [ {| message := kind p "greeting"; ctxPath := "greeting";
              ctxPlaceholder := p; ctxReference := "Hi {user}";
              ctxTranslation := "Hola {usuario}" |} ].
Proof.
  intros out.
  assert (Hfalse : out.1 = false) by (vm_compute; reflexivity).
  split; [exact Hfalse|].
  destruct (validatePlaceholderConsistency_one_error
              {| errors := []; warnings := [] |} "Hi {user}" "Hola {usuario}" "greeting")
    as (_ & _ & _ & Hone).
  destruct (Hone Hfalse) as (p & kind & Herr & _).
  exists p, kind. exact Herr.
Defined.

Lemma matchPlaceholders_brace_delimited_witness :
  "{name}" ∈ matchPlaceholders "Hello {name}"
  /\ (exists pre post, "Hello {name}" = pre +:+ "{name}" +:+ post)
  /\ matchPlaceholders ("Hello " +:+ String "{" ("name" +:+ String "}" "!"))
     = ["{name}"]
  /\ matchPlaceholders (String "{" (String "}" (String " " (String "{" ("a" +:+ String "}" "")))))
     = ["{a}"].
Proof.
  destruct matchPlaceholders_brace_delimited
    as (Hshape & Hnil & Hmatch & Hskip & Hfirst & _).
  assert (Hin : "{name}" ∈ matchPlaceholders "Hello {name}").
  { vm_compute. apply list_elem_of_here. }
  split; [exact Hin|]. split; [exact (proj1 (Hshape _ _ Hin))|].
  split.
  - rewrite (Hfirst "Hello " "name" "!");
      [reflexivity | reflexivity | discriminate | reflexivity].
  - rewrite Hskip.
    + rewrite Hskip; [|by intros (body & post & _ & _ & [=])].
      rewrite Hskip; [|by intros (body & post & _ & _ & [=])].
      rewrite (Hmatch "a" ""); [by rewrite Hnil | discriminate | reflexivity].
    + intros (body & post & Hne & Hbody & [= Heq]).
      destruct body as [|b body]; [done|]. injection Heq as <- _. discriminate Hbody.
Defined.

(** ** What deepMerge does with a key both operands hold as a leaf *)

(** The leaf of the first operand stays, whatever leaf the second operand
    offers for the same key. *)
Lemma deepMerge_keeps_target_leaf (target source : Obj) (key : string) (v : JValue) :
  getProp key target = Some v ->
  isPlainObject v = false ->
  (forall w, (key, w) ∈ source -> isPlainObject w = false) ->
  getProp key (deepMerge target source) = Some v.
Proof.
  unfold deepMerge. rewrite deepMergeValue_fold.
  change target with (target, @nil Obj).1 at 1. generalize ((target, []) : Obj * list Obj).
  induction source as [|[k w] rest IH]; intros st Hget Hleaf Hsrc; cbn [fold_left]; [done|].
  apply IH; [|done|].
  - destruct (decide (k = key)) as [->|Hne].
    + rewrite mergeTurn_leaf by (apply Hsrc, list_elem_of_here).
      rewrite inOperator_own; [done|]. unfold hasProp. by rewrite Hget.
    + by rewrite mergeTurn_getProp_other.
  - intros w' Hin. apply Hsrc. by apply list_elem_of_further.
Qed.

(** Hence [overwriteExisting = true] never replaces an existing leaf by an
    incoming leaf, and [overwriteExisting = false] always lets the incoming
    leaf stand. *)
Lemma mergeTranslations_leaf_precedence
    (originalContent newTranslations : Obj) (key : string) (old new : JValue) :
  getProp key originalContent = Some old -> isPlainObject old = false ->
  getProp key newTranslations = Some new -> isPlainObject new = false ->
  NoDup originalContent.*1 -> NoDup newTranslations.*1 ->
  getProp key (mergeTranslations true originalContent newTranslations) = Some old
  /\ getProp key (mergeTranslations false originalContent newTranslations) = Some new.
Proof.
  intros Hold Hlold Hnew Hlnew Hnd1 Hnd2. split; cbn [mergeTranslations].
  - apply deepMerge_keeps_target_leaf; [done..|].
    intros w Hin. apply (getProp_NoDup _ _ _ Hnd2) in Hin. congruence.
  - apply deepMerge_keeps_target_leaf; [done..|].
    intros w Hin. apply (getProp_NoDup _ _ _ Hnd1) in Hin. congruence.
Qed.

(** ** Merging the same catalog twice, for the other argument order *)

Lemma below_nil (R : Obj) : below [] R.
Proof. exact I. Qed.

Lemma below_cons (k : string) (b : JValue) (B R : Obj) :
  below ((k, b) :: B) R <-> exists r R', R = (k, r) :: R' /\ covers b r /\ below B R'.
Proof.
  unfold below. cbn [covers]. destruct R as [|[k' r'] R'].
  - split; [done|]. by intros (? & ? & ? & _).
  - split.
    + intros (-> & Hc & Hb). eauto.
    + intros (r & R'' & [= -> -> ->] & Hc & Hb). done.
Qed.

Lemma covers_leaf (b r : JValue) :
  isPlainObject b = false -> covers b r <-> (isPlainObject r = true \/ b = r).
Proof.
  intros Hb. destruct b; try discriminate; destruct r; cbn; split; try tauto;
    intros [?|?]; try done.
Qed.

Lemma covers_refl (b : JValue) : wf_value b -> covers b b.
Proof.
  induction b as [| | | | |es IH] using JValue_tree_ind; try done.
  intros Hwf. apply wf_value_obj in Hwf as [_ Hall].
  change (below es es). induction es as [|[k w] rest IHrest]; [done|].
  apply Forall_cons in IH as [IHw IH]. apply Forall_cons in Hall as [Hw Hall].
  apply below_cons. exists w, rest. split; [done|]. split; [by apply IHw | by apply IHrest].
Qed.

Lemma getProp_app_fresh (key : string) (P o : Obj) :
  key ∉ P.*1 -> getProp key (P ++ o) = getProp key o.
Proof.
  induction P as [|[k w] P IH]; cbn; [done|].
  rewrite not_elem_of_cons, String_eqb_decide. intros [Hne Hnot].
  rewrite bool_decide_false by congruence. by apply IH.
Qed.

Lemma setProp_app_fresh (key : string) (v : JValue) (P o : Obj) :
  key ∉ P.*1 -> setProp key v (P ++ o) = P ++ setProp key v o.
Proof.
  induction P as [|[k w] P IH]; cbn; [done|].
  rewrite not_elem_of_cons, String_eqb_decide. intros [Hne Hnot].
  rewrite bool_decide_false by congruence. by rewrite IH.
Qed.

Lemma setProp_head (key : string) (v w : JValue) (o : Obj) :
  setProp key v ((key, w) :: o) = (key, v) :: o.
Proof. cbn. by rewrite String.eqb_refl. Qed.

Lemma getProp_head (key : string) (w : JValue) (o : Obj) :
  getProp key ((key, w) :: o) = Some w.
Proof. cbn. by rewrite String.eqb_refl. Qed.

(** An entry with a key the result lacks, and which is no member name of
    [Object.prototype], is appended. *)
Lemma mergeStep_fresh (result : Obj) (e : string * JValue) :
  e.1 ∉ result.*1 -> protoMember e.1 = false -> mergeStep result e = result ++ [e].
Proof.
  destruct e as [k v]. cbn [fst]. intros Hk Hplain. apply getProp_None in Hk.
  destruct (isPlainObject v) eqn:Hv.
  - destruct v as [| | | | |sv]; try discriminate.
    rewrite mergeStep_object_plain by done. rewrite Hk. by apply setProp_absent.
  - rewrite mergeStep_leaf_plain by done. unfold hasProp. rewrite Hk.
    by apply setProp_absent.
Qed.

Lemma fold_mergeStep_fresh (R P : Obj) :
  NoDup (P ++ R).*1 -> Forall (fun e => protoMember e.1 = false) R ->
  fold_left mergeStep R P = P ++ R.
Proof.
  revert P. induction R as [|e R IH]; intros P Hnd Hplain; cbn [fold_left].
  - by rewrite app_nil_r.
  - apply Forall_cons in Hplain as [He Hplain]. rewrite mergeStep_fresh; [|  |done].
    + rewrite IH; [by rewrite <- app_assoc| |done]. by rewrite <- app_assoc.
    + rewrite fmap_app in Hnd. apply NoDup_app in Hnd as (_ & Hdisj & _).
      intros Hin. apply (Hdisj _ Hin). cbn. apply list_elem_of_here.
Qed.

(** Merging [R] into an object it covers rebuilds [R]. *)
Lemma fold_mergeStep_absorb (B R P : Obj) :
  below B R ->
  NoDup (P ++ R).*1 ->
  Forall (fun e => forall bs rs, e.2 = JObj bs -> below bs rs -> wf_obj rs ->
                               plainKeys rs = true -> deepMerge bs rs = rs) B ->
  Forall (fun e => wf_value e.2) R ->
  Forall (fun e => protoMember e.1 = false /\ plainKeysValue e.2 = true) R ->
  fold_left mergeStep R (P ++ B) = P ++ R.
Proof.
  revert R P. induction B as [|[k b] B IH]; intros R P Hbelow Hnd Hnested Hwf Hplain.
  - rewrite app_nil_r. apply fold_mergeStep_fresh; [done|].
    eapply Forall_impl; [exact Hplain|]. by intros e [He _].
  - apply below_cons in Hbelow as (r & R' & -> & Hc & Hbelow).
    apply Forall_cons in Hnested as [Hb Hnested].
    apply Forall_cons in Hwf as [Hr Hwf]. cbn [snd] in Hb, Hr.
    apply Forall_cons in Hplain as [[Hk' Hpr] Hplain]. cbn [fst snd] in Hk', Hpr.
    assert (Hk : k ∉ P.*1).
    { rewrite fmap_app in Hnd. apply NoDup_app in Hnd as (_ & Hdisj & _).
      intros Hin. apply (Hdisj _ Hin). cbn. apply list_elem_of_here. }
    cbn [fold_left].
    assert (Hstep : mergeStep (P ++ (k, b) :: B) (k, r) = (P ++ [(k, r)]) ++ B).
    { rewrite <- app_assoc. cbn [app].
      destruct (isPlainObject r) eqn:Hobj.
      - destruct r as [| | | | |rs]; try discriminate.
        rewrite mergeStep_object_plain, getProp_app_fresh, getProp_head by done.
        destruct b as [| | | | |bs].
        1-5: by rewrite setProp_app_fresh, setProp_head.
        rewrite (Hb bs rs eq_refl Hc Hr Hpr).
        by rewrite setProp_app_fresh, setProp_head.
      - rewrite mergeStep_leaf_plain by done. unfold hasProp.
        rewrite getProp_app_fresh, getProp_head by done.
        assert (b = r) as -> by (destruct b, r; cbn in Hc; done).
        done. }
    rewrite Hstep, IH; [by rewrite <- app_assoc| done | | done | done | done].
    by rewrite <- app_assoc.
Qed.

Lemma deepMerge_absorb_value (b : JValue) :
  forall bs rs, b = JObj bs -> below bs rs -> wf_obj rs -> plainKeys rs = true ->
  deepMerge bs rs = rs.
Proof.
  induction b as [| | | | |es IH] using JValue_tree_ind; try discriminate.
  intros bs rs [= <-] Hbelow Hwf Hplain. apply wf_value_obj in Hwf as [Hnd Hall].
  rewrite deepMerge_fold by by apply plainKeys_no_proto.
  apply (fold_mergeStep_absorb es rs []); [done..|]. by apply plainKeys_Forall.
Qed.

Lemma mergeStep_cons_ne (k : string) (r : JValue) (R : Obj) (e : string * JValue) :
  k <> e.1 -> mergeStep ((k, r) :: R) e = (k, r) :: mergeStep R e.
Proof.
  destruct e as [key a]. cbn [fst]. intros Hne.
  destruct (isPlainObject a) eqn:Ha.
  - destruct a as [| | | | |sv]; try discriminate. rewrite !mergeStep_object.
    cbn [getProp setProp]. rewrite String_eqb_decide, bool_decide_false by done.
    destruct (getProp key R) as [[]|]; try done.
    by destruct (String.eqb key "__proto__").
  - rewrite !mergeStep_leaf by done. unfold hasProp. cbn [getProp setProp].
    rewrite String_eqb_decide, bool_decide_false by done.
    by destruct (getProp key R), (protoMember key).
Qed.

(** One more merged entry keeps the result above what it covered. *)
Lemma mergeStep_below (B R : Obj) (e : string * JValue) :
  (forall sv, e.2 = JObj sv -> forall bs rs, below bs rs -> below bs (deepMerge rs sv)) ->
  below B R -> below B (mergeStep R e).
Proof.
  intros Hnested. revert R. induction B as [|[k b] B IH]; intros R Hbelow; [done|].
  apply below_cons in Hbelow as (r & R' & -> & Hc & Hbelow).
  apply below_cons. destruct (decide (k = e.1)) as [->|Hne].
  - destruct e as [key a]. cbn [fst snd] in *.
    destruct (isPlainObject a) eqn:Hplain.
    + destruct a as [| | | | |sv]; try discriminate.
      rewrite mergeStep_object, getProp_head.
      destruct r as [| | | | |rs].
      1-5: rewrite setProp_head; eexists _, _; split; [done|]; split; [|done];
           destruct b; cbn in Hc; done.
      rewrite setProp_head. eexists _, _. split; [done|]. split; [|done].
      destruct b as [| | | | |bs]; try done.
      by apply (Hnested sv eq_refl).
    + rewrite mergeStep_leaf by done. unfold hasProp. rewrite getProp_head.
      cbn [orb]. eexists _, _. done.
  - rewrite mergeStep_cons_ne by done. eexists _, _. split; [done|]. split; [done|].
    by apply IH.
Qed.

Lemma deepMerge_below_value (a : JValue) :
  forall sv, a = JObj sv -> plainKeysValue a = true ->
  forall bs rs, below bs rs -> below bs (deepMerge rs sv).
Proof.
  induction a as [| | | | |es IH] using JValue_tree_ind; try discriminate.
  intros sv [= <-] Hplain bs rs Hbelow.
  rewrite deepMerge_fold by by apply plainKeys_no_proto.
  apply plainKeys_Forall in Hplain.
  revert rs Hbelow. induction es as [|e es IHes]; intros rs Hbelow; [done|].
  apply Forall_cons in IH as [IHe IH]. apply Forall_cons in Hplain as [[_ He] Hplain].
  cbn [fold_left].
  apply IHes; [done..|]. apply mergeStep_below; [|done].
  intros sv Hsv. by apply IHe.
Qed.

Lemma wf_obj_cons (k : string) (v : JValue) (o : Obj) :
  wf_obj ((k, v) :: o) <-> (k ∉ o.*1) /\ wf_value v /\ wf_obj o.
Proof.
  unfold wf_obj. rewrite !wf_value_obj. cbn. rewrite NoDup_cons, Forall_cons. cbn.
  tauto.
Qed.

Lemma setProp_keys_absent (key : string) (v : JValue) (o : Obj) :
  key ∉ o.*1 -> (setProp key v o).*1 = o.*1 ++ [key].
Proof.
  intros H. apply getProp_None in H. rewrite setProp_absent by done.
  by rewrite fmap_app.
Qed.

Lemma wf_obj_setProp (key : string) (v : JValue) (o : Obj) :
  wf_obj o -> wf_value v -> wf_obj (setProp key v o).
Proof.
  intros Hwf Hv. induction o as [|[k w] o IH]; cbn [setProp].
  - apply wf_obj_cons. split; [apply not_elem_of_nil|]. split; [done|].
    apply wf_value_obj. split; [constructor | done].
  - apply wf_obj_cons in Hwf as (Hk & Hw & Hwf). rewrite String_eqb_decide.
    case_bool_decide as Hkey.
    + apply wf_obj_cons. done.
    + apply wf_obj_cons. split; [|by split; [|apply IH]].
      destruct (decide (key ∈ o.*1)) as [Hin|Hout].
      * by rewrite setProp_keys_present.
      * rewrite setProp_keys_absent by done. rewrite elem_of_app, list_elem_of_singleton.
        intros [?|?]; [done | congruence].
Qed.

Lemma wf_getProp (key : string) (v : JValue) (o : Obj) :
  wf_obj o -> getProp key o = Some v -> wf_value v.
Proof.
  intros Hwf Hget. apply getProp_Some_elem in Hget.
  apply wf_value_obj in Hwf as [_ Hall]. rewrite Forall_forall in Hall.
  exact (Hall _ Hget).
Qed.

Lemma wf_mergeStep (result : Obj) (e : string * JValue) :
  (forall sv, e.2 = JObj sv -> forall tv, wf_obj tv -> wf_obj (deepMerge tv sv)) ->
  wf_obj result -> wf_value e.2 -> wf_obj (mergeStep result e).
Proof.
  destruct e as [k v]. cbn [snd]. intros Hnested Hwf Hv.
  destruct (isPlainObject v) eqn:Hplain.
  - destruct v as [| | | | |sv]; try discriminate. rewrite mergeStep_object.
    destruct (getProp k result) as [w|] eqn:E;
      [|by destruct (String.eqb k "__proto__"); [|apply wf_obj_setProp]].
    destruct w as [| | | | |tv]; try by apply wf_obj_setProp.
    apply wf_obj_setProp; [done|]. apply (Hnested sv eq_refl).
    exact (wf_getProp _ _ _ Hwf E).
  - rewrite mergeStep_leaf by done.
    destruct (hasProp k result || protoMember k); [done|].
    by apply wf_obj_setProp.
Qed.

Lemma wf_deepMerge_value (a : JValue) :
  forall sv, a = JObj sv -> wf_value a -> plainKeysValue a = true ->
  forall tv, wf_obj tv -> wf_obj (deepMerge tv sv).
Proof.
  induction a as [| | | | |es IH] using JValue_tree_ind; try discriminate.
  intros sv [= <-] Hsrc Hplain tv Htv. apply wf_value_obj in Hsrc as [_ Hall].
  rewrite deepMerge_fold by by apply plainKeys_no_proto.
  apply plainKeys_Forall in Hplain.
  revert tv Htv. induction es as [|e es IHes]; intros tv Htv; [done|].
  apply Forall_cons in IH as [IHe IH]. apply Forall_cons in Hall as [He Hall].
  apply Forall_cons in Hplain as [[_ Hpe] Hplain].
  cbn [fold_left]. apply IHes; [done..|].
  apply wf_mergeStep; [|done..].
  intros sv Hsv tv' Htv'. by apply (IHe sv Hsv).
Qed.

Lemma plainKeys_setProp (key : string) (v : JValue) (o : Obj) :
  protoMember key = false -> plainKeysValue v = true -> plainKeys o = true ->
  plainKeys (setProp key v o) = true.
Proof.
  intros Hk Hv. rewrite !plainKeys_Forall.
  induction o as [|[k w] o IH]; cbn [setProp]; intros Ho.
  - by repeat constructor.
  - apply Forall_cons in Ho as [Hw Ho]. destruct (String.eqb k key) eqn:E.
    + apply String.eqb_eq in E as ->. by constructor.
    + constructor; [done | by apply IH].
Qed.

Lemma plainKeys_getProp (key : string) (v : JValue) (o : Obj) :
  plainKeys o = true -> getProp key o = Some v -> plainKeysValue v = true.
Proof.
  rewrite plainKeys_Forall, Forall_forall. intros Ho Hget.
  apply getProp_Some_elem in Hget. by destruct (Ho _ Hget).
Qed.

(** A merge of catalogs without keys named like members of
    [Object.prototype] has no such key. *)
Lemma plainKeys_deepMerge_value (a : JValue) :
  forall sv, a = JObj sv -> plainKeysValue a = true ->
  forall tv, plainKeys tv = true -> plainKeys (deepMerge tv sv) = true.
Proof.
  induction a as [| | | | |es IH] using JValue_tree_ind; try discriminate.
  intros sv [= <-] Hplain tv Htv.
  rewrite deepMerge_fold by by apply plainKeys_no_proto.
  apply plainKeys_Forall in Hplain.
  revert tv Htv. induction es as [|[k v] es IHes]; intros tv Htv; [done|].
  apply Forall_cons in IH as [IHe IH].
  apply Forall_cons in Hplain as [[Hk Hv] Hplain]. cbn [fst snd] in *.
  cbn [fold_left]. apply IHes; [done..|].
  destruct (isPlainObject v) eqn:Hobj.
  - destruct v as [| | | | |sv]; try discriminate.
    rewrite mergeStep_object_plain by done.
    destruct (getProp k tv) as [w|] eqn:E; [|by apply plainKeys_setProp].
    destruct w as [| | | | |tv']; try by apply plainKeys_setProp.
    apply plainKeys_setProp; [done| |done].
    apply (IHe sv eq_refl Hv). exact (plainKeys_getProp _ _ _ Htv E).
  - rewrite mergeStep_leaf_plain by done. destruct (hasProp k tv); [done|].
    by apply plainKeys_setProp.
Qed.

(** Merging [A] into [B] and then the outcome into [B] again is the same as
    merging [A] into [B] once, for catalogs without keys named like members
    of [Object.prototype]. *)
Lemma deepMerge_absorb (A B : Obj) :
  wf_obj A -> wf_obj B -> plainKeys A = true -> plainKeys B = true ->
  deepMerge B (deepMerge B A) = deepMerge B A.
Proof.
  intros HA HB HpA HpB. apply (deepMerge_absorb_value (JObj B)); [done| | |].
  - apply (deepMerge_below_value (JObj A)); [done..|]. by apply (covers_refl (JObj B)).
  - by apply (wf_deepMerge_value (JObj A)).
  - by apply (plainKeys_deepMerge_value (JObj A)).
Qed.

Lemma mergeTranslations_idempotent_either (overwrite : bool) (A B : Obj) :
  wf_obj A -> wf_obj B -> plainKeys A = true -> plainKeys B = true ->
  mergeTranslations overwrite (mergeTranslations overwrite A B) B
  = mergeTranslations overwrite A B.
Proof.
  intros HA HB HpA HpB. destruct overwrite; cbn [mergeTranslations].
  - by apply (deepMerge_idem_value (JObj B)).
  - by apply deepMerge_absorb.
Qed.

(** * Further properties *)

(** ** Counting keys *)
Lemma countKeys_cons (e : string * JValue) (rest : Obj) :
  countKeys (e :: rest) = (entryCount e.2 + countKeys rest)%nat.
Proof. by destruct e. Qed.

Lemma countKeys_app (o1 o2 : Obj) :
  countKeys (o1 ++ o2) = (countKeys o1 + countKeys o2)%nat.
Proof.
  induction o1 as [|e o1 IH]; [done|].
  cbn [app]. rewrite !countKeys_cons, IH. lia.
Qed.

Lemma entryCount_object (sv : Obj) : entryCount (JObj sv) = S (countKeys sv).
Proof. reflexivity. Qed.

Lemma entryCount_leaf (v : JValue) : isPlainObject v = false -> entryCount v = 1%nat.
Proof. intros H. unfold entryCount. by rewrite H. Qed.

Lemma entryCount_pos (v : JValue) : (1 <= entryCount v)%nat.
Proof. unfold entryCount. lia. Qed.

Lemma countKeys_setProp (key : string) (x : JValue) (o : Obj) :
  (forall w, getProp key o = Some w -> (entryCount w <= entryCount x)%nat) ->
  (countKeys o <= countKeys (setProp key x o))%nat.
Proof.
  induction o as [|[k w] o IH]; cbn [setProp getProp]; intros Hold.
  - rewrite countKeys_cons. cbn. lia.
  - destruct (String.eqb k key) eqn:E.
    + specialize (Hold w eq_refl). rewrite !countKeys_cons. cbn [snd]. lia.
    + rewrite !countKeys_cons. cbn [snd]. specialize (IH Hold). lia.
Qed.

Lemma mergeTurn_count_target (st : Obj * list Obj) (e : string * JValue) :
  (forall sv, e.2 = JObj sv -> forall tv, (countKeys tv <= countKeys (deepMerge tv sv))%nat) ->
  (countKeys st.1 <= countKeys (mergeTurn st e).1)%nat.
Proof.
  destruct e as [k v], st as [result chain]. cbn [fst snd]. intros Hnested.
  destruct (isPlainObject v) eqn:Hplain.
  - destruct v as [| | | | |sv]; try discriminate. rewrite mergeTurn_object.
    cbn [fst snd].
    destruct (getProp k result) as [w|] eqn:E.
    + destruct w as [| | | | |tv]; cbn [fst];
        apply countKeys_setProp; intros w Hw; rewrite E in Hw; injection Hw as <-;
        rewrite ?entryCount_object; try (rewrite entryCount_leaf by done; lia).
      specialize (Hnested sv eq_refl tv). lia.
    + assert (Hadd : forall x, (countKeys result <= countKeys (setProp k x result))%nat).
      { intros x. apply countKeys_setProp. intros w Hw. by rewrite E in Hw. }
      destruct (inherited k chain) as [[]|]; cbn [fst]; try apply Hadd.
      destruct (String.eqb k "__proto__"); cbn [fst]; [done | apply Hadd].
  - rewrite mergeTurn_leaf by done. cbn [fst snd].
    destruct (inOperator k result chain) eqn:E; [done|]. cbn [fst].
    apply countKeys_setProp. intros w Hw.
    rewrite inOperator_own in E; [done|]. unfold hasProp. by rewrite Hw.
Qed.

(** The target never loses a key in a merge, whatever the keys are. *)
Lemma deepMerge_count_target_value (a : JValue) :
  forall sv, a = JObj sv -> forall tv, (countKeys tv <= countKeys (deepMerge tv sv))%nat.
Proof.
  induction a as [| | | | |es IH] using JValue_tree_ind; try discriminate.
  intros sv [= <-] tv. unfold deepMerge. rewrite deepMergeValue_fold.
  change tv with (tv, @nil Obj).1 at 1. generalize ((tv, []) : Obj * list Obj).
  induction es as [|e es IHes]; intros st; [done|].
  apply Forall_cons in IH as [IHe IH]. cbn [fold_left].
  etrans; [|by apply IHes]. by apply mergeTurn_count_target.
Qed.

Lemma outside_keep (k : string) (w : JValue) (K : list string) (R : Obj) :
  k ∉ K -> outside K ((k, w) :: R) = (k, w) :: outside K R.
Proof. intros H. by apply filter_cons_True. Qed.

Lemma outside_drop (k : string) (w : JValue) (K : list string) (R : Obj) :
  k ∈ K -> outside K ((k, w) :: R) = outside K R.
Proof. intros H. apply filter_cons_False. cbn. by intros Hn. Qed.

Lemma outside_nil_keys (R : Obj) : outside [] R = R.
Proof.
  induction R as [|[k w] R IH]; [done|].
  rewrite outside_keep by apply not_elem_of_nil. by rewrite IH.
Qed.

Lemma countKeys_outside_cons (k : string) (K : list string) (R : Obj) :
  (countKeys (outside (k :: K) R) <= countKeys (outside K R))%nat.
Proof.
  induction R as [|[k' w] R IH]; [done|].
  destruct (decide (k' ∈ K)) as [Hin|Hout].
  - rewrite !outside_drop by (try apply list_elem_of_further; done). done.
  - rewrite (outside_keep k' w K) by done. rewrite countKeys_cons.
    destruct (decide (k' = k)) as [->|Hne].
    + rewrite outside_drop by apply list_elem_of_here. lia.
    + rewrite outside_keep by (rewrite not_elem_of_cons; done).
      rewrite countKeys_cons. lia.
Qed.

Lemma countKeys_outside_setProp (k : string) (x : JValue) (K : list string) (R : Obj) :
  k ∉ K ->
  (entryCount x + countKeys (outside (k :: K) R)
   <= countKeys (outside K (setProp k x R)))%nat.
Proof.
  intros Hk. induction R as [|[k' w] R IH]; cbn [setProp].
  - rewrite outside_keep by done. rewrite countKeys_cons. cbn [snd].
    rewrite !filter_nil. change (countKeys []) with 0%nat. lia.
  - rewrite String_eqb_decide. case_bool_decide as Hkey.
    + subst k'. rewrite (outside_keep k x K) by done.
      rewrite outside_drop by apply list_elem_of_here.
      rewrite countKeys_cons. cbn [snd].
      pose proof (countKeys_outside_cons k K R). lia.
    + destruct (decide (k' ∈ K)) as [Hin|Hout].
      * rewrite !outside_drop by (try apply list_elem_of_further; done). done.
      * rewrite (outside_keep k' w K) by done.
        rewrite outside_keep by (rewrite not_elem_of_cons; done).
        rewrite !countKeys_cons. lia.
Qed.

Lemma countKeys_outside_present (k : string) (K : list string) (R : Obj) :
  k ∉ K -> k ∈ R.*1 ->
  (1 + countKeys (outside (k :: K) R) <= countKeys (outside K R))%nat.
Proof.
  intros Hk. induction R as [|[k' w] R IH]; [by intros ?%elem_of_nil|].
  intros Hin. change (k ∈ k' :: R.*1) in Hin.
  destruct (decide (k' = k)) as [->|Hne].
  - rewrite (outside_keep k w K) by done. rewrite outside_drop by apply list_elem_of_here.
    rewrite countKeys_cons. cbn [snd].
    pose proof (countKeys_outside_cons k K R). pose proof (entryCount_pos w). lia.
  - apply elem_of_cons in Hin as [?|Hin]; [congruence|]. specialize (IH Hin).
    destruct (decide (k' ∈ K)) as [Hin'|Hout].
    + rewrite !outside_drop by (try apply list_elem_of_further; done). done.
    + rewrite (outside_keep k' w K) by done.
      rewrite outside_keep by (rewrite not_elem_of_cons; done).
      rewrite !countKeys_cons. lia.
Qed.

Lemma mergeStep_count_source (result : Obj) (e : string * JValue) (K : list string) :
  protoMember e.1 = false ->
  (forall sv, e.2 = JObj sv -> forall tv, (countKeys sv <= countKeys (deepMerge tv sv))%nat) ->
  e.1 ∉ K ->
  (entryCount e.2 + countKeys (outside (e.1 :: K) result)
   <= countKeys (outside K (mergeStep result e)))%nat.
Proof.
  destruct e as [k v]. cbn [fst snd]. intros Hpk Hnested Hk.
  destruct (isPlainObject v) eqn:Hplain.
  - destruct v as [| | | | |sv]; try discriminate. rewrite mergeStep_object_plain by done.
    destruct (getProp k result) as [[| | | | |tv]|] eqn:E;
      try (by apply countKeys_outside_setProp).
    etrans; [|by apply countKeys_outside_setProp].
    rewrite !entryCount_object. specialize (Hnested sv eq_refl tv). lia.
  - rewrite mergeStep_leaf_plain by done. rewrite entryCount_leaf by done.
    destruct (hasProp k result) eqn:E.
    + apply hasProp_true in E. by apply countKeys_outside_present.
    + etrans; [|by apply countKeys_outside_setProp].
      rewrite entryCount_leaf by done. lia.
Qed.

Lemma fold_count_source (es : Obj) (result : Obj) :
  NoDup es.*1 ->
  Forall (fun e => protoMember e.1 = false) es ->
  Forall (fun e => forall sv, e.2 = JObj sv -> forall tv,
                     (countKeys sv <= countKeys (deepMerge tv sv))%nat) es ->
  (countKeys es + countKeys (outside es.*1 result)
   <= countKeys (fold_left mergeStep es result))%nat.
Proof.
  revert result. induction es as [|e es IH]; intros result Hnd Hplain Hnested.
  - cbn [fold_left]. change ([] : Obj).*1 with (@nil string).
    rewrite outside_nil_keys. cbn. lia.
  - apply Forall_cons in Hnested as [He Hnested]. cbn in Hnd.
    apply Forall_cons in Hplain as [Hpe Hplain].
    apply NoDup_cons in Hnd as [Hfresh Hnd]. cbn [fold_left].
    specialize (IH (mergeStep result e) Hnd Hplain Hnested).
    pose proof (mergeStep_count_source result e es.*1 Hpe He Hfresh).
    rewrite countKeys_cons. change ((e :: es).*1) with (e.1 :: es.*1). lia.
Qed.

Lemma deepMerge_count_source_value (a : JValue) :
  forall sv, a = JObj sv -> wf_value a -> plainKeysValue a = true ->
  forall tv, (countKeys sv <= countKeys (deepMerge tv sv))%nat.
Proof.
  induction a as [| | | | |es IH] using JValue_tree_ind; try discriminate.
  intros sv [= <-] Hwf Hplain tv. apply wf_value_obj in Hwf as [Hnd Hall].
  rewrite deepMerge_fold by by apply plainKeys_no_proto.
  apply plainKeys_Forall in Hplain.
  etrans; [|apply fold_count_source; [done| |]].
  - lia.
  - eapply Forall_impl; [exact Hplain|]. by intros e [He _].
  - rewrite Forall_forall in IH, Hall, Hplain. apply Forall_forall.
    intros e He sv Hsv tv'.
    apply (IH e He sv Hsv); [exact (Hall e He) | by destruct (Hplain e He)].
Qed.

(** ** The two copies of the key-path walk *)

Lemma extractKeys_extractAllKeys (o : Obj) (prefix : string) :
  extractKeys o prefix = extractAllKeys o prefix.
Proof. reflexivity. Qed.



(** ** deepMerge with an empty operand, and with a shape conflict *)



(** A leaf of the target gives way to an object of the source. *)
Lemma deepMerge_source_object_wins (target source sv : Obj) (key : string)
    (leaf : JValue) :
  NoDup source.*1 ->
  (key, JObj sv) ∈ source ->
  getProp key target = Some leaf -> isPlainObject leaf = false ->
  getProp key (deepMerge target source) = Some (JObj sv).
Proof.
  intros Hnd Hin Hget Hleaf. unfold deepMerge. rewrite deepMergeValue_fold.
  apply list_elem_of_split in Hin as (l1 & l2 & ->).
  rewrite fmap_app in Hnd. change (((key, JObj sv) :: l2).*1) with (key :: l2.*1) in Hnd.
  apply NoDup_app in Hnd as (_ & Hdisj & Hnd2). apply NoDup_cons in Hnd2 as [Hl2 _].
  assert (Hl1 : key ∉ l1.*1).
  { intros H1. apply (Hdisj _ H1). apply list_elem_of_here. }
  rewrite fold_left_app. cbn [fold_left].
  rewrite fold_mergeTurn_getProp_other by done.
  rewrite mergeTurn_object, fold_mergeTurn_getProp_other by done. cbn [fst].
  rewrite Hget. destruct leaf; try discriminate; apply getProp_setProp_eq.
Qed.

(** ** Objects against leaves, and the number of keys of a merge *)

Lemma deepMerge_keeps_target_value (target source : Obj) (key : string) (v : JValue) :
  getProp key target = Some v ->
  (forall w, (key, w) ∈ source -> isPlainObject w = false) ->
  getProp key (deepMerge target source) = Some v.
Proof.
  unfold deepMerge. rewrite deepMergeValue_fold.
  change target with (target, @nil Obj).1 at 1. generalize ((target, []) : Obj * list Obj).
  induction source as [|[k w] rest IH]; intros st Hget Hsrc; cbn [fold_left]; [done|].
  apply IH.
  - destruct (decide (k = key)) as [->|Hne].
    + rewrite mergeTurn_leaf by (apply Hsrc, list_elem_of_here).
      rewrite inOperator_own; [done|]. unfold hasProp. by rewrite Hget.
    + by rewrite mergeTurn_getProp_other.
  - intros w' Hin. apply Hsrc. by apply list_elem_of_further.
Qed.

(** X1: where one of the two catalogs holds an object at a key and the other a
    leaf (a string, a number, a boolean, null or an array), the merged
    catalog holds the object at that key, under either value of
    [overwriteExisting]: deepMerge never replaces an object by a leaf and
    always replaces a leaf by an object. *)
Theorem mergeTranslations_object_beats_leaf
    (overwrite : bool) (originalContent newTranslations : Obj) (key : string)
    (nested : Obj) (leaf : JValue) :
  NoDup originalContent.*1 ->
  NoDup newTranslations.*1 ->
  isPlainObject leaf = false ->
  (getProp key originalContent = Some (JObj nested)
   /\ getProp key newTranslations = Some leaf)
  \/ (getProp key originalContent = Some leaf
      /\ getProp key newTranslations = Some (JObj nested)) ->
  getProp key (mergeTranslations overwrite originalContent newTranslations)
  = Some (JObj nested).
Proof.
  intros Hnd1 Hnd2 Hleaf Hcase.
  assert (Hkeep : forall target source,
            NoDup source.*1 ->
            getProp key target = Some (JObj nested) -> getProp key source = Some leaf ->
            getProp key (deepMerge target source) = Some (JObj nested)).
  { intros target source Hnd Ht Hs. apply deepMerge_keeps_target_value; [done|].
    intros w Hin. apply (getProp_NoDup _ _ _ Hnd) in Hin. congruence. }
  assert (Hwin : forall target source,
            NoDup source.*1 ->
            getProp key target = Some leaf -> getProp key source = Some (JObj nested) ->
            getProp key (deepMerge target source) = Some (JObj nested)).
  { intros target source Hnd Ht Hs.
    apply (deepMerge_source_object_wins target source nested key leaf); [done| |done..].
    by apply getProp_Some_elem. }
  unfold mergeTranslations.
  destruct overwrite, Hcase as [[H1 H2]|[H1 H2]]; auto.
Qed.

Lemma mergeTranslations_object_beats_leaf_witness :
  getProp "menu"
    (mergeTranslations true [("menu", JStr "flat")] [("menu", JObj [("home", JStr "H")])])
  = Some (JObj [("home", JStr "H")])
  /\ getProp "menu"
       (mergeTranslations false [("menu", JObj [("home", JStr "H")])]
          [("menu", JStr "flat")])
     = Some (JObj [("home", JStr "H")]).
Proof.
  split.
  - apply (mergeTranslations_object_beats_leaf true [("menu", JStr "flat")]
             [("menu", JObj [("home", JStr "H")])] "menu" [("home", JStr "H")]
             (JStr "flat")).
    + apply (bool_decide_unpack _). vm_compute. exact I.
    + apply (bool_decide_unpack _). vm_compute. exact I.
    + reflexivity.
    + right. split; reflexivity.
  - apply (mergeTranslations_object_beats_leaf false
             [("menu", JObj [("home", JStr "H")])] [("menu", JStr "flat")] "menu"
             [("home", JStr "H")] (JStr "flat")).
    + apply (bool_decide_unpack _). vm_compute. exact I.
    + apply (bool_decide_unpack _). vm_compute. exact I.
    + reflexivity.
    + left. split; reflexivity.
Defined.

(** X2: [countKeys] of a merge is at least [countKeys] of the target; it is
    at least [countKeys] of the source when the source has distinct keys,
    none of them named like a member of [Object.prototype]. *)
Theorem deepMerge_never_loses_keys (target source : Obj) :
  (countKeys target <= countKeys (deepMerge target source))%nat
  /\ (wf_obj source -> plainKeys source = true ->
      (countKeys source <= countKeys (deepMerge target source))%nat).
Proof.
  split; [by eapply deepMerge_count_target_value|].
  intros Hwf Hplain. by apply (deepMerge_count_source_value (JObj source)).
Qed.

Lemma deepMerge_never_loses_keys_witness :
  wf_obj [("menu", JObj [("home", JStr "H")]); ("t", JStr "T")]
  /\ plainKeys [("menu", JObj [("home", JStr "H")]); ("t", JStr "T")] = true
  /\ (countKeys [("menu", JStr "flat")]
      <= countKeys (deepMerge [("menu", JStr "flat")]
                      [("menu", JObj [("home", JStr "H")]); ("t", JStr "T")]))%nat
  /\ (countKeys [("menu", JObj [("home", JStr "H")]); ("t", JStr "T")]
      <= countKeys (deepMerge [("menu", JStr "flat")]
                      [("menu", JObj [("home", JStr "H")]); ("t", JStr "T")]))%nat.
Proof.
  assert (Hwf : wf_obj [("menu", JObj [("home", JStr "H")]); ("t", JStr "T")]).
  { cbn. repeat split; apply (bool_decide_unpack _); vm_compute; exact I. }
  split; [exact Hwf|]. split; [reflexivity|].
  destruct (deepMerge_never_loses_keys [("menu", JStr "flat")]
              [("menu", JObj [("home", JStr "H")]); ("t", JStr "T")]) as [Ht Hs].
  split; [exact Ht | exact (Hs Hwf eq_refl)].
Defined.

(** ** More on the comparison of catalogs *)

Lemma filter_notin_difference (X Y : gset string) :
  filter (fun key => key ∉ Y) X = X ∖ Y.
Proof. apply leibniz_equiv, set_equiv. intros x. rewrite elem_of_filter. set_solver. Qed.

(** X3: in the result of a comparison no key path is both missing and extra,
    the counts of missing and of extra key paths are bounded by the totals,
    and totalReferenceKeys + extraCount = totalTargetKeys + missingCount. *)
Theorem compareCatalogs_counts (reference target : Obj) :
  let result := compareCatalogs reference target in
  missingKeys result ## extraKeys result
  /\ (missingCount result <= totalReferenceKeys result)%nat
  /\ (extraCount result <= totalTargetKeys result)%nat
  /\ (totalReferenceKeys result + extraCount result
      = totalTargetKeys result + missingCount result)%nat.
Proof.
  cbn [compareCatalogs missingKeys extraKeys missingCount extraCount
       totalReferenceKeys totalTargetKeys].
  cbv zeta. rewrite !filter_notin_difference.
  set (R := extractKeys reference ""). set (T := extractKeys target "").
  split; [set_solver|].
  split; [apply subseteq_size; set_solver|].
  split; [apply subseteq_size; set_solver|].
  rewrite <- !size_union_alt. f_equal. set_solver.
Qed.

(** X4: after the reference catalog has been merged with a target, in either
    argument order of deepMerge, a comparison against the reference reports
    no missing key path, and the extra key paths are those the target had
    before, when no key of the two catalogs is named like a member of
    [Object.prototype]. *)
Theorem merge_of_reference_leaves_nothing_missing (reference target : Obj) :
  plainKeys reference = true -> plainKeys target = true ->
  missingKeys (compareCatalogs reference (deepMerge target reference)) = ∅
  /\ missingKeys (compareCatalogs reference (deepMerge reference target)) = ∅
  /\ extraKeys (compareCatalogs reference (deepMerge target reference))
     = extraKeys (compareCatalogs reference target)
  /\ extraKeys (compareCatalogs reference (deepMerge reference target))
     = extraKeys (compareCatalogs reference target).
Proof.
  intros Href Htgt.
  cbn [compareCatalogs missingKeys extraKeys]. cbv zeta.
  rewrite !extractKeys_extractAllKeys, !filter_notin_difference.
  rewrite (deepMerge_keys_value (JObj reference) reference eq_refl Href).
  rewrite (deepMerge_keys_value (JObj target) target eq_refl Htgt).
  repeat split; set_solver.
Qed.

Lemma merge_of_reference_leaves_nothing_missing_witness :
  let reference := [("menu", JObj [("home", JStr "Home")]); ("title", JStr "Title")] in
  let target := [("menu", JStr "flat"); ("old", JStr "Alt")] in
  missingKeys (compareCatalogs reference (deepMerge target reference)) = ∅
  /\ extraKeys (compareCatalogs reference (deepMerge reference target))
     = extraKeys (compareCatalogs reference target).
Proof.
  intros reference target.
  destruct (merge_of_reference_leaves_nothing_missing reference target eq_refl eq_refl)
    as (H1 & _ & _ & H4).
  split; [exact H1 | exact H4].
Defined.

(** ** Structure validation against a reference *)

Lemma filter_notin_empty (X Y : gset string) :
  filter (fun key => key ∉ Y) X = ∅ <-> X ⊆ Y.
Proof.
  split.
  - intros H x Hx. destruct (decide (x ∈ Y)) as [|Hn]; [done|].
    assert (x ∈ filter (fun key => key ∉ Y) X) as Hf by (apply elem_of_filter; done).
    rewrite H in Hf. set_solver.
  - intros H. apply leibniz_equiv, set_equiv. intros x. rewrite elem_of_filter. set_solver.
Qed.

Lemma isValid_Checked (R T : gset string) (n m : nat) :
  isValid (Checked (filter (fun key => key ∉ T) R) (filter (fun key => key ∉ R) T) n m)
  = true <-> R = T.
Proof.
  cbn [isValid]. rewrite andb_true_iff, !bool_decide_eq_true, !size_empty_iff.
  rewrite !leibniz_equiv_iff, !filter_notin_empty. set_solver.
Qed.

(** ** What the update functions do to the files *)

(** X7: when the target file exists and cannot be parsed,
    [updateTranslations] does not throw: it reports failure with the message
    of the parser and no backup path, and it has made no backup and written
    nothing, since the file is parsed before the backup is made: its only
    effects are the two calls of the logger. *)
Theorem updateTranslations_unparsable_target_fails_before_backup
    (cfg : Config) (targetPath : string) (newTranslations : Obj)
    (options : UpdateOptions) (w : World) (parseError : string) :
  files w !! targetPath = Some (Corrupt parseError) ->
  let out := updateTranslations cfg targetPath newTranslations options w in
  out.1 = Return (UpdateFailure parseError None (dryRun cfg))
  /\ events out.2
     = events w ++ [EvLog (Updating targetPath);
                    EvLog (UpdateFailed targetPath parseError)]
  /\ files out.2 !! targetPath = Some (Corrupt parseError).
Proof.
  intros Htp out. subst out.
  pose proof (updateTranslations_cases cfg targetPath newTranslations options w) as H.
  pose proof (updateTranslations_trace cfg targetPath newTranslations options w) as Ht.
  cbv zeta in H, Ht. rewrite Htp in H, Ht. destruct H as [Hres Hfiles].
  split; [exact Hres|]. split; [exact Ht|]. by rewrite Hfiles.
Qed.

Lemma updateTranslations_unparsable_target_fails_before_backup_witness :
  let w := {| files := {[ "locales/de_DE.json" := Corrupt "Unexpected end of JSON input" ]};
              isoNow := "2024-01-01T12:34:56.789Z"; events := [] |} in
  let out := updateTranslations scenarioConfig "locales/de_DE.json"
               [("a", JStr "neu")] defaultUpdateOptions w in
  out.1 = Return (UpdateFailure "Unexpected end of JSON input" None false)
  /\ events out.2
     = [EvLog (Updating "locales/de_DE.json");
        EvLog (UpdateFailed "locales/de_DE.json" "Unexpected end of JSON input")].
Proof.
  intros w out.
  destruct (updateTranslations_unparsable_target_fails_before_backup scenarioConfig
              "locales/de_DE.json" [("a", JStr "neu")] defaultUpdateOptions w
              "Unexpected end of JSON input" eq_refl) as (Hres & Hev & _).
  split; [exact Hres | exact Hev].
Defined.

(** [He : e ∈ l] for a list [l] of events given by cases: the goal for each
    event the list can hold. *)
Ltac eachEvent He :=
  repeat match type of He with
         | context [match ?x with _ => _ end] => destruct x
         end;
  cbn [app] in He;
  repeat (apply elem_of_cons in He as [->|He]; [|]);
  try (by apply elem_of_nil in He).

(** X8: in dry-run mode neither [updateTranslations] nor
    [updateCompleteTranslations] copies or writes a file: the only effects
    of the run are calls of the logger. *)
Theorem dry_run_only_logs
    (cfg : Config) (targetPath : string) (translations : Obj)
    (options : UpdateOptions) (completeOptions : CompleteOptions) (w : World) :
  dryRun cfg = true ->
  (exists new,
     events (updateTranslations cfg targetPath translations options w).2
     = events w ++ new
     /\ forall e, e ∈ new -> exists m, e = EvLog m)
  /\ (exists new,
        events (updateCompleteTranslations cfg targetPath translations
                  completeOptions w).2
        = events w ++ new
        /\ forall e, e ∈ new -> exists m, e = EvLog m).
Proof.
  intros Hdry. split.
  - pose proof (updateTranslations_trace cfg targetPath translations options w) as Ht.
    cbv zeta in Ht. rewrite Hdry in Ht. cbn [negb andb] in Ht.
    eexists. split; [exact Ht|]. intros e He. eachEvent He; by eexists.
  - pose proof (updateComplete_trace cfg targetPath translations completeOptions w) as Ht.
    cbv zeta in Ht. rewrite Hdry in Ht. cbn [negb andb] in Ht.
    eexists. split; [exact Ht|]. intros e He. eachEvent He; by eexists.
Qed.

Lemma dry_run_only_logs_witness :
  let w := scenarioWorld [("a", JStr "alt")] in
  dryRun dryConfig = true
  /\ (exists new,
        events (updateTranslations dryConfig "locales/de_DE.json" [("b", JStr "neu")]
                  defaultUpdateOptions w).2 = events w ++ new
        /\ forall e, e ∈ new -> exists m, e = EvLog m)
  /\ (exists new,
        events (updateCompleteTranslations dryConfig "locales/de_DE.json"
                  [("b", JStr "neu")] defaultCompleteOptions w).2 = events w ++ new
        /\ forall e, e ∈ new -> exists m, e = EvLog m).
Proof.
  intros w. split; [reflexivity|].
  apply (dry_run_only_logs dryConfig "locales/de_DE.json" [("b", JStr "neu")]
           defaultUpdateOptions defaultCompleteOptions w).
  reflexivity.
Defined.

(** X9: besides calling the logger, a run of [updateTranslations] or of
    [updateCompleteTranslations] only writes the target file, copies the
    target file to its backup file and copies the backup file back to the
    target. *)
Theorem update_touches_only_target_and_backup
    (cfg : Config) (targetPath : string) (translations : Obj)
    (options : UpdateOptions) (completeOptions : CompleteOptions) (w : World) :
  let bp := backupPathOf cfg w targetPath in
  let allowed e :=
    (exists m, e = EvLog m) \/ (exists c, e = EvWrite targetPath c)
    \/ e = EvCopy targetPath bp \/ e = EvCopy bp targetPath in
  (exists new,
     events (updateTranslations cfg targetPath translations options w).2
     = events w ++ new
     /\ forall e, e ∈ new -> allowed e)
  /\ (exists new,
        events (updateCompleteTranslations cfg targetPath translations
                  completeOptions w).2
        = events w ++ new
        /\ forall e, e ∈ new -> allowed e).
Proof.
  intros bp allowed. subst allowed. cbv beta. split.
  - pose proof (updateTranslations_trace cfg targetPath translations options w) as Ht.
    cbv zeta in Ht. fold bp in Ht.
    eexists. split; [exact Ht|]. intros e He.
    eachEvent He; eauto 6.
  - pose proof (updateComplete_trace cfg targetPath translations completeOptions w) as Ht.
    cbv zeta in Ht. fold bp in Ht.
    eexists. split; [exact Ht|]. intros e He.
    eachEvent He; eauto 6.
Qed.

Lemma restoreFromBackup_run (originalPath backupPath : string) (w : World) :
  backupPath <> EmptyString ->
  restoreFromBackup originalPath (Some backupPath) w
  = match files w !! backupPath with
    | Some c =>
        (Return tt,
         {| files := <[originalPath := c]> (files w); isoNow := isoNow w;
            events := events w ++ [EvCopy backupPath originalPath;
                                   EvLog (FileRestored originalPath)] |})
    | None => (Throw ("Backup file not found: " +:+ backupPath), w)
    end.
Proof.
  intros Hne.
  unfold restoreFromBackup, tryCatch, throw, logger, emit, existsSync, copyFileSync,
    mbind, mret, M_bind, M_ret.
  destruct backupPath as [|c s]; [done|]. cbn [truthyPath showPath].
  destruct (files w !! String c s) eqn:E.
  - rewrite is_Some_Some_true. cbn [negb]. rewrite E. cbn [files isoNow events].
    by rewrite <- app_assoc.
  - by rewrite is_Some_None_false.
Qed.

Lemma pathJoin_nonempty (dir name : string) : pathJoin dir name <> EmptyString.
Proof. by destruct dir. Qed.

(** X10: with backups enabled and no dry run, the update of an existing
    catalog succeeds with the backup path in its result and leaves the
    merged catalog in the target file, and [restoreFromBackup] with that
    path then brings the original catalog back, the backup file being
    another file than the target. *)
Theorem updateTranslations_then_restore
    (cfg : Config) (targetPath : string) (newTranslations : Obj)
    (options : UpdateOptions) (w : World) (original : Obj) :
  files w !! targetPath = Some (Doc original) ->
  backupEnabled cfg = true ->
  dryRun cfg = false ->
  backupPathOf cfg w targetPath <> targetPath ->
  let out := updateTranslations cfg targetPath newTranslations options w in
  let back := restoreFromBackup targetPath (Some (backupPathOf cfg w targetPath)) out.2 in
  (exists originalKeys newKeys addedKeys finalKeys,
     out.1 = Return (UpdateSuccess originalKeys newKeys addedKeys finalKeys
                       (Some (backupPathOf cfg w targetPath)) false))
  /\ files out.2 !! targetPath
     = Some (Doc (mergeTranslations (overwriteExisting options) original newTranslations))
  /\ back.1 = Return tt
  /\ files back.2 !! targetPath = Some (Doc original).
Proof.
  intros Htp Hbe Hdry Hne out back. subst back out.
  pose proof (updateTranslations_cases cfg targetPath newTranslations options w) as H.
  cbv zeta in H. rewrite Htp, Hbe, Hdry in H. destruct H as [Hres Hfiles].
  assert (Hbackup : files (updateTranslations cfg targetPath newTranslations options w).2
                    !! backupPathOf cfg w targetPath = Some (Doc original)).
  { rewrite Hfiles, lookup_insert_ne by done. by rewrite lookup_insert_eq. }
  split; [by repeat eexists|].
  split; [by rewrite Hfiles, lookup_insert_eq|].
  rewrite restoreFromBackup_run by apply pathJoin_nonempty.
  rewrite Hbackup. cbn [fst snd files]. split; [done|]. by rewrite lookup_insert_eq.
Qed.

Lemma updateTranslations_then_restore_witness :
  let w := scenarioWorld [("a", JStr "alt")] in
  let out := updateTranslations scenarioConfig "locales/de_DE.json"
               [("a", JStr "neu"); ("b", JStr "mehr")] defaultUpdateOptions w in
  let back := restoreFromBackup "locales/de_DE.json" (Some scenarioBackup) out.2 in
  files out.2 !! "locales/de_DE.json"
  = Some (Doc [("a", JStr "neu"); ("b", JStr "mehr")])
  /\ back.1 = Return tt
  /\ files back.2 !! "locales/de_DE.json" = Some (Doc [("a", JStr "alt")]).
Proof.
  intros w out back.
  destruct (updateTranslations_then_restore scenarioConfig "locales/de_DE.json"
              [("a", JStr "neu"); ("b", JStr "mehr")] defaultUpdateOptions w
              [("a", JStr "alt")])
    as (_ & Hfile & Hback & Hrestored).
  - reflexivity.
  - reflexivity.
  - reflexivity.
  - vm_compute. discriminate.
  - split; [exact Hfile|]. split; [exact Hback | exact Hrestored].
Defined.

(** X12: when [updateCompleteTranslations] validates against a reference
    catalog given in its options and reports success, the catalog has
    exactly the key paths of the reference, and outside dry-run mode the
    target file holds it. *)
Theorem updateComplete_success_has_reference_keys
    (cfg : Config) (targetPath : string) (completeTranslations : Obj)
    (options : CompleteOptions) (w : World) (reference : Obj)
    (originalKeys finalKeys totalKeys : nat) (backupPath : option string)
    (isDryRun : bool) :
  validateResult options = true ->
  referenceJson options = Some reference ->
  (updateCompleteTranslations cfg targetPath completeTranslations options w).1
  = Return (CompleteSuccess originalKeys finalKeys totalKeys backupPath isDryRun) ->
  extractAllKeys completeTranslations "" = extractAllKeys reference ""
  /\ (dryRun cfg = false ->
      files (updateCompleteTranslations cfg targetPath completeTranslations options w).2
        !! targetPath
      = Some (Doc completeTranslations)).
Proof.
  intros Hv Href Hok.
  pose proof (updateComplete_cases cfg targetPath completeTranslations options w) as H.
  cbv zeta in H. rewrite Hv, Href in H.
  assert (Hcase :
    isValid (structureVerdict reference completeTranslations) = true
    /\ files (updateCompleteTranslations cfg targetPath completeTranslations options w).2
       = if dryRun cfg then files w
         else <[targetPath := Doc completeTranslations]>
                (match files w !! targetPath with
                 | Some c => if negb (dryRun cfg) && backupEnabled cfg
                             then <[backupPathOf cfg w targetPath := c]> (files w)
                             else files w
                 | None => files w
                 end)).
  { destruct (files w !! targetPath) as [[original|parseError]|].
    2: { destruct H as [H _]. congruence. }
    all: destruct (isValid (structureVerdict reference completeTranslations)) eqn:Hvalid;
      [by destruct H as [_ ->]|].
    all: destruct H as [H _]; congruence. }
  destruct Hcase as [Hvalid Hfiles]. split.
  - symmetry. by apply isValid_Checked in Hvalid.
  - intros Hdry. rewrite Hfiles, Hdry. by rewrite lookup_insert_eq.
Qed.

Lemma updateComplete_success_has_reference_keys_witness :
  let w := scenarioWorld [("a", JStr "alt")] in
  let options := {| validateResult := true;
                    referenceJson := Some [("a", JStr "x")] |} in
  let out := updateCompleteTranslations scenarioConfig "locales/de_DE.json"
               [("a", JStr "neu")] options w in
  out.1 = Return (CompleteSuccess 1 1 1 (Some scenarioBackup) false)
  /\ extractAllKeys [("a", JStr "neu")] "" = extractAllKeys [("a", JStr "x")] ""
  /\ files out.2 !! "locales/de_DE.json" = Some (Doc [("a", JStr "neu")]).
Proof.
  intros w options out.
  assert (Hok : out.1 = Return (CompleteSuccess 1 1 1 (Some scenarioBackup) false))
    by (vm_compute; reflexivity).
  split; [exact Hok|].
  destruct (updateComplete_success_has_reference_keys scenarioConfig
              "locales/de_DE.json" [("a", JStr "neu")] options w [("a", JStr "x")]
              1 1 1 (Some scenarioBackup) false eq_refl eq_refl Hok) as [Hkeys Hfile].
  split; [exact Hkeys | exact (Hfile eq_refl)].
Defined.





(** X15: for catalogs with distinct keys, none of them named like a member of
    [Object.prototype], a successful [updateTranslations] never reports a
    negative addedKeys nor fewer final keys than the original file or the
    new translations had, and finalKeys = originalKeys + addedKeys. *)
Theorem updateTranslations_never_reports_fewer_keys
    (cfg : Config) (targetPath : string) (newTranslations : Obj)
    (options : UpdateOptions) (w : World) (original : Obj)
    (originalKeys newKeys finalKeys : nat) (addedKeys : Z)
    (backupPath : option string) (isDryRun : bool) :
  files w !! targetPath = Some (Doc original) ->
  wf_obj original ->
  wf_obj newTranslations ->
  plainKeys original = true ->
  plainKeys newTranslations = true ->
  (updateTranslations cfg targetPath newTranslations options w).1
  = Return (UpdateSuccess originalKeys newKeys addedKeys finalKeys backupPath isDryRun) ->
  (0 <= addedKeys)%Z
  /\ (originalKeys <= finalKeys)%nat
  /\ (newKeys <= finalKeys)%nat
  /\ Z.of_nat finalKeys = (Z.of_nat originalKeys + addedKeys)%Z.
Proof.
  intros Htp Hwo Hwn Hpo Hpn Hok.
  pose proof (updateTranslations_cases cfg targetPath newTranslations options w) as H.
  cbv zeta in H. rewrite Htp in H. destruct H as [H _]. rewrite H in Hok.
  injection Hok as <- <- <- <- _ _.
  assert (countKeys original
          <= countKeys (mergeTranslations (overwriteExisting options) original
                          newTranslations)
          /\ countKeys newTranslations
             <= countKeys (mergeTranslations (overwriteExisting options) original
                             newTranslations))%nat as [H1 H2].
  { unfold mergeTranslations. destruct (overwriteExisting options); split.
    - by eapply deepMerge_count_target_value.
    - by apply (deepMerge_count_source_value (JObj newTranslations)).
    - by apply (deepMerge_count_source_value (JObj original)).
    - by eapply deepMerge_count_target_value. }
  lia.
Qed.

Lemma updateTranslations_never_reports_fewer_keys_witness :
  let w := scenarioWorld [("a", JStr "alt")] in
  let out := updateTranslations scenarioConfig "locales/de_DE.json"
               [("a", JStr "neu"); ("b", JStr "mehr")] defaultUpdateOptions w in
  out.1 = Return (UpdateSuccess 1 2 1 2 (Some scenarioBackup) false)
  /\ (0 <= 1)%Z /\ (1 <= 2)%nat /\ (2 <= 2)%nat /\ Z.of_nat 2 = (Z.of_nat 1 + 1)%Z.
Proof.
  intros w out.
  assert (Hok : out.1 = Return (UpdateSuccess 1 2 1 2 (Some scenarioBackup) false))
    by (vm_compute; reflexivity).
  split; [exact Hok|].
  apply (updateTranslations_never_reports_fewer_keys scenarioConfig "locales/de_DE.json"
           [("a", JStr "neu"); ("b", JStr "mehr")] defaultUpdateOptions w
           [("a", JStr "alt")] 1 2 2 1 (Some scenarioBackup) false eq_refl).
  - cbn. repeat split; apply (bool_decide_unpack _); vm_compute; exact I.
  - cbn. repeat split; apply (bool_decide_unpack _); vm_compute; exact I.
  - reflexivity.
  - reflexivity.
  - exact Hok.
Defined.

(** ** Key paths with their values *)

Lemma extractKeyValueMap_fold (o : Obj) (prefix : string) :
  extractKeyValueMap o prefix = fold_left (keyValueStep prefix) o ∅.
Proof.
  unfold extractKeyValueMap. cbn [extractKeyValueMapValue].
  generalize (∅ : gmap string JValue).
  induction o as [|[k v] rest IH]; intros m; cbn [fold_left]; [done|].
  by rewrite IH.
Qed.

Lemma dom_keyValueStep (prefix : string) (m : gmap string JValue)
    (e : string * JValue) :
  dom (keyValueStep prefix m e) = entryLeaves prefix e ∪ dom m.
Proof.
  unfold keyValueStep, entryLeaves. destruct (isPlainObject e.2).
  - by rewrite dom_union_L.
  - by rewrite dom_insert_L.
Qed.

Lemma dom_fold_keyValueStep (prefix : string) (es : Obj) (m : gmap string JValue) :
  dom (fold_left (keyValueStep prefix) es m)
  = dom m ∪ dom (fold_left (keyValueStep prefix) es ∅).
Proof.
  revert m. induction es as [|e rest IH]; intros m; cbn [fold_left].
  - rewrite dom_empty_L. set_solver.
  - rewrite IH, (IH (keyValueStep prefix ∅ e)), !dom_keyValueStep, dom_empty_L.
    set_solver.
Qed.

Lemma dom_extractKeyValueMap_nil (prefix : string) :
  dom (extractKeyValueMap [] prefix) = ∅.
Proof. apply dom_empty_L. Qed.

Lemma dom_extractKeyValueMap_cons (e : string * JValue) (rest : Obj) (prefix : string) :
  dom (extractKeyValueMap (e :: rest) prefix)
  = entryLeaves prefix e ∪ dom (extractKeyValueMap rest prefix).
Proof.
  rewrite !extractKeyValueMap_fold. cbn [fold_left].
  rewrite dom_fold_keyValueStep, dom_keyValueStep, dom_empty_L. set_solver.
Qed.

Lemma entryLeaves_object (prefix key : string) (sv : Obj) :
  entryLeaves prefix (key, JObj sv) = dom (extractKeyValueMap sv (fullKeyOf prefix key)).
Proof. reflexivity. Qed.

Lemma entryLeaves_leaf (prefix key : string) (v : JValue) :
  isPlainObject v = false -> entryLeaves prefix (key, v) = {[ fullKeyOf prefix key ]}.
Proof. unfold entryLeaves. cbn. by intros ->. Qed.

Lemma dom_extractKeyValueMap_elem (e : string * JValue) (o : Obj) (prefix : string) :
  e ∈ o -> entryLeaves prefix e ⊆ dom (extractKeyValueMap o prefix).
Proof.
  induction o as [|e' rest IH]; intros Hin.
  - by apply elem_of_nil in Hin.
  - rewrite dom_extractKeyValueMap_cons.
    apply elem_of_cons in Hin as [->|Hin]; set_solver.
Qed.

Lemma dom_extractKeyValueMap_setProp (key : string) (v : JValue) (o : Obj)
    (prefix : string) :
  dom (extractKeyValueMap (setProp key v o) prefix)
  ⊆ dom (extractKeyValueMap o prefix) ∪ entryLeaves prefix (key, v).
Proof.
  induction o as [|[k x] rest IH]; cbn [setProp].
  - rewrite dom_extractKeyValueMap_cons. set_solver.
  - destruct (String.eqb k key) eqn:E.
    + apply String.eqb_eq in E as ->. rewrite !dom_extractKeyValueMap_cons. set_solver.
    + rewrite !dom_extractKeyValueMap_cons. set_solver.
Qed.

(** Every key path of the map is a key path of [extractAllKeys]. *)
Lemma dom_extractKeyValueMap_keys (v : JValue) :
  forall o, v = JObj o -> forall prefix,
  dom (extractKeyValueMap o prefix) ⊆ extractAllKeys o prefix.
Proof.
  induction v as [| | | | |es IH] using JValue_tree_ind; try discriminate.
  intros o [= <-]. induction es as [|[k x] rest IHrest]; intros prefix.
  - by rewrite dom_extractKeyValueMap_nil.
  - apply Forall_cons in IH as [IHe IH].
    rewrite dom_extractKeyValueMap_cons, extractAllKeys_cons.
    specialize (IHrest IH prefix).
    destruct x as [| | | | |sv].
    6: { rewrite entryLeaves_object, entryKeys_object.
         specialize (IHe sv eq_refl (fullKeyOf prefix k)). set_solver. }
    all: rewrite entryLeaves_leaf by done; rewrite entryKeys_leaf by done; set_solver.
Qed.

(** The values of the map are leaves. *)
Lemma extractKeyValueMap_leaves (v : JValue) :
  forall o, v = JObj o -> forall prefix,
  map_Forall (fun _ value => isPlainObject value = false) (extractKeyValueMap o prefix).
Proof.
  induction v as [| | | | |es IH] using JValue_tree_ind; try discriminate.
  intros o [= <-] prefix. rewrite extractKeyValueMap_fold.
  assert (Hacc : map_Forall (fun _ value => isPlainObject value = false)
                   (∅ : gmap string JValue)) by apply map_Forall_empty.
  revert Hacc. generalize (∅ : gmap string JValue).
  induction es as [|[k x] rest IHrest]; intros m Hm; cbn [fold_left]; [done|].
  apply Forall_cons in IH as [IHe IH]. apply IHrest; [done|].
  unfold keyValueStep. cbn [fst snd].
  destruct x as [| | | | |sv].
  6: { cbn [isPlainObject]. apply map_Forall_union_2; [|done].
       apply (IHe sv eq_refl). }
  all: cbn [isPlainObject]; by apply map_Forall_insert_2.
Qed.

(** The leaf paths of a merge come from its operands. *)
Lemma mergeStep_leaves (result : Obj) (e : string * JValue) (prefix : string) :
  (forall sv, e.2 = JObj sv -> forall tv p,
     dom (extractKeyValueMap (deepMerge tv sv) p)
     ⊆ dom (extractKeyValueMap tv p) ∪ dom (extractKeyValueMap sv p)) ->
  dom (extractKeyValueMap (mergeStep result e) prefix)
  ⊆ dom (extractKeyValueMap result prefix) ∪ entryLeaves prefix e.
Proof.
  destruct e as [k v]. cbn [snd]. intros IH.
  destruct (isPlainObject v) eqn:Hplain.
  - destruct v as [| | | | |sv]; try discriminate.
    specialize (IH sv eq_refl). rewrite mergeStep_object.
    destruct (getProp k result) as [x|] eqn:E.
    + pose proof (dom_extractKeyValueMap_elem _ _ prefix (getProp_Some_elem _ _ _ E))
        as Hsub.
      destruct x as [| | | | |tv].
      6: { etrans; [apply dom_extractKeyValueMap_setProp|].
           rewrite !entryLeaves_object in *.
           specialize (IH tv (fullKeyOf prefix k)). set_solver. }
      all: apply dom_extractKeyValueMap_setProp.
    + destruct (String.eqb k "__proto__"); [set_solver|].
      apply dom_extractKeyValueMap_setProp.
  - rewrite mergeStep_leaf by done.
    destruct (hasProp k result || protoMember k); [set_solver|].
    apply dom_extractKeyValueMap_setProp.
Qed.

Lemma deepMerge_leaves_value (v : JValue) :
  forall sv, v = JObj sv -> plainKeysValue v = true -> forall tv p,
  dom (extractKeyValueMap (deepMerge tv sv) p)
  ⊆ dom (extractKeyValueMap tv p) ∪ dom (extractKeyValueMap sv p).
Proof.
  induction v as [| | | | |es IH] using JValue_tree_ind; try discriminate.
  intros sv [= <-] Hplain tv p.
  rewrite deepMerge_fold by by apply plainKeys_no_proto.
  apply plainKeys_Forall in Hplain.
  revert tv. induction es as [|e rest IHrest]; intros tv; cbn [fold_left].
  - set_solver.
  - apply Forall_cons in IH as [IHe IH].
    apply Forall_cons in Hplain as [[_ He] Hplain].
    etrans; [apply (IHrest IH Hplain)|].
    rewrite dom_extractKeyValueMap_cons.
    assert (Hnested : forall sv, e.2 = JObj sv -> forall tv p,
              dom (extractKeyValueMap (deepMerge tv sv) p)
              ⊆ dom (extractKeyValueMap tv p) ∪ dom (extractKeyValueMap sv p)).
    { intros sv Hsv. by apply IHe. }
    pose proof (mergeStep_leaves tv e p Hnested). set_solver.
Qed.

(** ** findNewKeys and getKeyValue *)

Lemma findNewKeys_run (currentPath backupPath : string) (w : World) :
  findNewKeys currentPath backupPath w
  = match files w !! currentPath, files w !! backupPath with
    | Some (Doc currentData), Some (Doc backupData) =>
        (Return (dom (extractKeyValueMap currentData "")
                 ∖ dom (extractKeyValueMap backupData ""), []), w)
    | Some (Doc _), Some (Corrupt error) | Some (Corrupt error), _ =>
        (Return (∅, ["Error comparing " +:+ currentPath +:+ " with " +:+ backupPath
                     +:+ ": " +:+ error]), w)
    | Some (Doc _), None =>
        (Return (∅, ["Error comparing " +:+ currentPath +:+ " with " +:+ backupPath
                     +:+ ": " +:+ "ENOENT: no such file or directory, open '"
                     +:+ backupPath +:+ "'"]), w)
    | None, _ =>
        (Return (∅, ["Error comparing " +:+ currentPath +:+ " with " +:+ backupPath
                     +:+ ": " +:+ "ENOENT: no such file or directory, open '"
                     +:+ currentPath +:+ "'"]), w)
    end.
Proof.
  unfold findNewKeys, tryCatch, readJson, mbind, mret, M_bind, M_ret.
  destruct (files w !! currentPath) as [[currentData|error]|]; [|done..].
  destruct (files w !! backupPath) as [[backupData|error]|]; [|done..].
  do 3 f_equal. apply leibniz_equiv, set_equiv. intros key.
  rewrite elem_of_filter, elem_of_difference, not_elem_of_dom. tauto.
Qed.

(** X16: every key of the map of [extractKeyValueMap] is a key path of
    [extractKeys], and its value is a leaf, never a nested object. *)
Theorem extractKeyValueMap_holds_leaves_at_key_paths
    (obj : Obj) (key : string) (value : JValue) :
  extractKeyValueMap obj "" !! key = Some value ->
  key ∈ extractKeys obj "" /\ isPlainObject value = false.
Proof.
  intros Hget. split.
  - rewrite extractKeys_extractAllKeys.
    apply (dom_extractKeyValueMap_keys (JObj obj) obj eq_refl "").
    by apply elem_of_dom_2 in Hget.
  - exact (extractKeyValueMap_leaves (JObj obj) obj eq_refl "" key value Hget).
Qed.

Lemma extractKeyValueMap_holds_leaves_at_key_paths_witness :
  extractKeyValueMap [("menu", JObj [("home", JStr "Home")]); ("title", JStr "T")] ""
    !! "menu.home" = Some (JStr "Home")
  /\ "menu.home" ∈ extractKeys
                     [("menu", JObj [("home", JStr "Home")]); ("title", JStr "T")] ""
  /\ isPlainObject (JStr "Home") = false.
Proof.
  assert (Hget : extractKeyValueMap
                   [("menu", JObj [("home", JStr "Home")]); ("title", JStr "T")] ""
                   !! "menu.home" = Some (JStr "Home")) by (vm_compute; reflexivity).
  split; [exact Hget|].
  exact (extractKeyValueMap_holds_leaves_at_key_paths _ _ _ Hget).
Defined.

(** X17: [findNewKeys] never throws and changes nothing, whatever the two
    files are; for two catalogs it returns the leaf key paths of the current
    one that the backup lacks; a file compared with itself has no new key;
    and when either file is missing or unparsable the call returns the
    empty set, the answer it gives for no new keys, after one line on the
    console. *)
Theorem findNewKeys_empty_when_same_or_unreadable
    (currentPath backupPath : string) (w : World) :
  (exists newKeys console,
     findNewKeys currentPath backupPath w = (Return (newKeys, console), w))
  /\ (forall currentData backupData,
        files w !! currentPath = Some (Doc currentData) ->
        files w !! backupPath = Some (Doc backupData) ->
        findNewKeys currentPath backupPath w
        = (Return (dom (extractKeyValueMap currentData "")
                   ∖ dom (extractKeyValueMap backupData ""), []), w))
  /\ (exists console, findNewKeys currentPath currentPath w = (Return (∅, console), w))
  /\ (let unreadable path :=
        files w !! path = None \/ exists parseError, files w !! path = Some (Corrupt parseError) in
      unreadable currentPath \/ unreadable backupPath ->
      exists line, findNewKeys currentPath backupPath w = (Return (∅, [line]), w)).
Proof.
  split; [|split; [|split]].
  - rewrite findNewKeys_run.
    destruct (files w !! currentPath) as [[currentData|error]|],
             (files w !! backupPath) as [[backupData|error']|]; by do 2 eexists.
  - intros currentData backupData Hc Hb. by rewrite findNewKeys_run, Hc, Hb.
  - rewrite findNewKeys_run.
    destruct (files w !! currentPath) as [[data|error]|]; eexists; try reflexivity.
    by rewrite difference_diag_L.
  - intros unreadable Hbad. subst unreadable. cbv beta in Hbad.
    rewrite findNewKeys_run.
    destruct (files w !! currentPath) as [[currentData|error]|],
             (files w !! backupPath) as [[backupData|error']|].
    all: try (eexists; reflexivity).
    destruct Hbad as [[Hbad|[? Hbad]]|[Hbad|[? Hbad]]]; discriminate Hbad.
Qed.

(** X18: after [updateTranslations] of an existing catalog, with backups
    enabled and no dry run, [findNewKeys] on the target and its backup
    finds only leaf key paths of the new translations, and none that the
    original catalog had, when no key of the two catalogs is named like a
    member of [Object.prototype]. *)
Theorem findNewKeys_after_update_within_new_translations
    (cfg : Config) (targetPath : string) (newTranslations : Obj)
    (options : UpdateOptions) (w : World) (original : Obj) :
  files w !! targetPath = Some (Doc original) ->
  plainKeys original = true ->
  plainKeys newTranslations = true ->
  backupEnabled cfg = true ->
  dryRun cfg = false ->
  backupPathOf cfg w targetPath <> targetPath ->
  let out := updateTranslations cfg targetPath newTranslations options w in
  exists newKeys,
    (findNewKeys targetPath (backupPathOf cfg w targetPath) out.2).1
    = Return (newKeys, [])
    /\ newKeys ⊆ dom (extractKeyValueMap newTranslations "")
    /\ newKeys ## dom (extractKeyValueMap original "").
Proof.
  intros Htp Hpo Hpn Hbe Hdry Hne out. subst out.
  pose proof (updateTranslations_cases cfg targetPath newTranslations options w) as H.
  cbv zeta in H. rewrite Htp, Hbe, Hdry in H. destruct H as [_ Hfiles].
  rewrite findNewKeys_run, Hfiles, lookup_insert_eq.
  rewrite lookup_insert_ne by done. rewrite lookup_insert_eq.
  eexists. split; [reflexivity|]. split; [|set_solver].
  unfold mergeTranslations. destruct (overwriteExisting options).
  - pose proof (deepMerge_leaves_value (JObj newTranslations) newTranslations eq_refl
                  Hpn original "").
    set_solver.
  - pose proof (deepMerge_leaves_value (JObj original) original eq_refl
                  Hpo newTranslations "").
    set_solver.
Qed.

Lemma findNewKeys_after_update_within_new_translations_witness :
  let w := scenarioWorld [("a", JStr "alt")] in
  let out := updateTranslations scenarioConfig "locales/de_DE.json"
               [("a", JStr "neu"); ("b", JStr "mehr")] defaultUpdateOptions w in
  exists newKeys,
    (findNewKeys "locales/de_DE.json" scenarioBackup out.2).1 = Return (newKeys, [])
    /\ newKeys ⊆ dom (extractKeyValueMap [("a", JStr "neu"); ("b", JStr "mehr")] "")
    /\ newKeys ## dom (extractKeyValueMap [("a", JStr "alt")] "").
Proof.
  intros w out.
  apply (findNewKeys_after_update_within_new_translations scenarioConfig
           "locales/de_DE.json" [("a", JStr "neu"); ("b", JStr "mehr")]
           defaultUpdateOptions w [("a", JStr "alt")]).
  - reflexivity.
  - reflexivity.
  - reflexivity.
  - reflexivity.
  - reflexivity.
  - vm_compute. discriminate.
Defined.

(** X19: [getKeyValue] never throws and changes nothing.  For a catalog file
    that holds a leaf at the key path it returns that leaf when it is
    truthy, and null when it is the empty string, 0, false or null; it
    returns null as well when the catalog has no leaf at the key path and
    when the file is missing or unparsable.  So the result is null or a
    truthy leaf. *)
Theorem getKeyValue_null_or_truthy_leaf
    (localesDir keyPath languageCode : string) (w : World) :
  let filePath := pathJoin localesDir (languageCode +:+ ".json") in
  exists value,
    getKeyValue localesDir keyPath languageCode w = (Return value, w)
    /\ (forall data stored,
          files w !! filePath = Some (Doc data) ->
          extractKeyValueMap data "" !! keyPath = Some stored ->
          value = (if truthy stored then stored else JNull)
          /\ (stored = JStr EmptyString \/ stored = JNum 0%float
              \/ stored = JBool false \/ stored = JNull -> value = JNull))
    /\ (forall data,
          files w !! filePath = Some (Doc data) ->
          extractKeyValueMap data "" !! keyPath = None -> value = JNull)
    /\ (files w !! filePath = None
        \/ (exists parseError, files w !! filePath = Some (Corrupt parseError)) ->
        value = JNull)
    /\ (value = JNull \/ (truthy value = true /\ isPlainObject value = false)).
Proof.
  intros filePath. subst filePath.
  unfold getKeyValue, tryCatch, existsSync, readJson, mbind, mret, M_bind, M_ret.
  destruct (files w !! pathJoin localesDir (languageCode +:+ ".json"))
    as [[data|error]|] eqn:E.
  - rewrite is_Some_Some_true. cbn [negb]. rewrite E.
    eexists. split; [reflexivity|].
    split; [|split; [|split]].
    + intros data' stored [= <-] ->. split; [done|].
      intros [ -> | [ -> | [ -> | -> ]]]; reflexivity.
    + by intros data' [= <-] ->.
    + by intros [Hno|[? Hno]].
    + destruct (extractKeyValueMap data "" !! keyPath) as [stored|] eqn:Hget;
        [|by left].
      destruct (truthy stored) eqn:Ht; [|by left].
      right. split; [done|].
      exact (extractKeyValueMap_leaves (JObj data) data eq_refl "" keyPath stored Hget).
  - rewrite is_Some_Some_true. cbn [negb]. rewrite E.
    eexists. split; [reflexivity|]. split; [done|]. split; [done|]. split; [done|].
    by left.
  - rewrite is_Some_None_false. cbn [negb].
    eexists. split; [reflexivity|]. split; [done|]. split; [done|]. split; [done|].
    by left.
Qed.

(** ** The three structure checks *)

Lemma TranslationService_extractAllKeys (obj : Obj) (prefix : string) :
  TranslationService.extractAllKeys obj prefix = extractAllKeys obj prefix.
Proof. reflexivity. Qed.

(** X20: the three structure checks agree: the pre-write validation of the
    updater, [validateJsonStructure] of the translation service and the
    missing and extra keys of the comparator accept a translated catalog
    exactly when it has the same set of key paths as the reference. *)
Theorem structure_checks_agree
    (cfg : Config) (reference translated : Obj) (w : World)
    (sv : StructureValidation) :
  (validateTranslationStructure cfg translated (Some reference) w).1 = Return sv ->
  TranslationService.isValid
    (TranslationService.validateJsonStructure reference translated)
  = isValid sv
  /\ (isValid sv = true
      <-> missingKeys (compareCatalogs reference translated) = ∅
          /\ extraKeys (compareCatalogs reference translated) = ∅)
  /\ (isValid sv = true <-> extractAllKeys reference "" = extractAllKeys translated "").
Proof.
  rewrite validateTranslationStructure_run. cbn [fst]. intros [= <-].
  split; [reflexivity|]. unfold structureVerdict. rewrite isValid_Checked.
  split; [|done].
  cbn [compareCatalogs missingKeys extraKeys]. cbv zeta.
  change (extractKeys reference "") with (extractAllKeys reference "").
  change (extractKeys translated "") with (extractAllKeys translated "").
  rewrite !filter_notin_empty. set_solver.
Qed.

Lemma structure_checks_agree_witness :
  let reference := [("a", JStr "x"); ("b", JStr "y")] in
  let translated := [("a", JStr "neu")] in
  let sv := Checked {[ "b" ]} ∅ 2 1 in
  TranslationService.isValid
    (TranslationService.validateJsonStructure reference translated) = isValid sv
  /\ (isValid sv = true
      <-> missingKeys (compareCatalogs reference translated) = ∅
          /\ extraKeys (compareCatalogs reference translated) = ∅)
  /\ (isValid sv = true <-> extractAllKeys reference "" = extractAllKeys translated "").
Proof.
  intros reference translated sv.
  apply (structure_checks_agree scenarioConfig reference translated
           (scenarioWorld [("a", JStr "alt")]) sv).
  vm_compute. reflexivity.
Defined.

(** ** The two ways of counting keys *)







(** ** A CSV row written by the extractor and read back by the validator *)

Lemma string_app_nil_r (s : string) : s +:+ EmptyString = s.
Proof.
  induction s as [|c r IH]; [done|].
  change (String c (r +:+ EmptyString) = String c r). by rewrite IH.
Qed.

Lemma string_app_snoc (s r : string) (c : ascii) :
  (s +:+ String c EmptyString) +:+ r = s +:+ String c r.
Proof. by rewrite string_app_assoc. Qed.

Lemma parseCSVFrom_open (rest : string) (values : list string) (current : string) :
  parseCSVFrom (String dquote rest) values current false
  = parseCSVFrom rest values current true.
Proof. by destruct rest. Qed.

Lemma parseCSVFrom_close (tail : string) (values : list string) (current : string) :
  notQuoteFirst tail ->
  parseCSVFrom (String dquote tail) values current true
  = parseCSVFrom tail values current false.
Proof.
  destruct tail as [|c r]; [done|]. cbn [notQuoteFirst]. intros Hc.
  cbn [parseCSVFrom]. rewrite Ascii.eqb_refl. cbn [andb negb].
  by rewrite (proj2 (Ascii.eqb_neq c dquote) Hc).
Qed.

Lemma parseCSVFrom_plain (s tail : string) (values : list string) (current : string) :
  includesChar comma s = false ->
  includesChar dquote s = false ->
  parseCSVFrom (s +:+ tail) values current false
  = parseCSVFrom tail values (current +:+ s) false.
Proof.
  revert current. induction s as [|c r IH]; intros current Hcomma Hquote.
  - by rewrite string_app_nil_r.
  - cbn [includesChar] in Hcomma, Hquote.
    apply orb_false_iff in Hcomma as [Hc1 Hcomma].
    apply orb_false_iff in Hquote as [Hc2 Hquote].
    change (String c r +:+ tail) with (String c (r +:+ tail)).
    cbn [parseCSVFrom]. rewrite Hc1, Hc2. cbn [andb].
    rewrite IH by done. by rewrite string_app_snoc.
Qed.

Lemma parseCSVFrom_quoted (s tail : string) (values : list string) (current : string) :
  notQuoteFirst tail ->
  parseCSVFrom (doubleQuotes s +:+ String dquote tail) values current true
  = parseCSVFrom tail values (current +:+ s) false.
Proof.
  intros Htail. revert current. induction s as [|c r IH]; intros current.
  - rewrite string_app_nil_r. by apply parseCSVFrom_close.
  - cbn [doubleQuotes]. destruct (Ascii.eqb c dquote) eqn:Hc.
    + apply Ascii.eqb_eq in Hc as ->.
      change (parseCSVFrom (String dquote (String dquote
                (doubleQuotes r +:+ String dquote tail))) values current true
              = parseCSVFrom tail values (current +:+ String dquote r) false).
      cbn [parseCSVFrom]. rewrite Ascii.eqb_refl. cbn [andb].
      rewrite IH. by rewrite string_app_snoc.
    + change (parseCSVFrom (String c (doubleQuotes r +:+ String dquote tail))
                values current true
              = parseCSVFrom tail values (current +:+ String c r) false).
      cbn [parseCSVFrom]. rewrite Hc. cbn [negb]. rewrite andb_false_r.
      rewrite IH. by rewrite string_app_snoc.
Qed.

Lemma parseCSVFrom_field (value : option string) (tail : string)
    (values : list string) (current : string) :
  notQuoteFirst tail ->
  parseCSVFrom (escapeCSVValue value +:+ tail) values current false
  = parseCSVFrom tail values (current +:+ fieldText value) false.
Proof.
  intros Htail. destruct value as [s|]; cbn [escapeCSVValue fieldText].
  2: by rewrite string_app_nil_r.
  destruct (includesChar comma s) eqn:Hcomma, (includesChar dquote s) eqn:Hquote,
    (includesChar lineFeed s), (includesChar carriageReturn s); cbn [orb].
  16: by apply parseCSVFrom_plain.
  all: change (parseCSVFrom (String dquote
                 ((doubleQuotes s +:+ String dquote EmptyString) +:+ tail))
                 values current false
               = parseCSVFrom tail values (current +:+ s) false).
  all: rewrite parseCSVFrom_open, string_app_snoc; by apply parseCSVFrom_quoted.
Qed.

Lemma parseCSVFrom_row (rowData : list (option string)) :
  rowData <> [] ->
  forall values,
  parseCSVFrom (createCSVRow rowData) values EmptyString false
  = values ++ map fieldText rowData.
Proof.
  induction rowData as [|value rest IH]; [done|]. intros _ values.
  destruct rest as [|value' rest].
  - change (createCSVRow [value]) with (escapeCSVValue value).
    rewrite <- (string_app_nil_r (escapeCSVValue value)).
    by rewrite parseCSVFrom_field.
  - change (createCSVRow (value :: value' :: rest))
      with (escapeCSVValue value +:+ String comma (createCSVRow (value' :: rest))).
    rewrite parseCSVFrom_field by (cbn; discriminate).
    cbn [parseCSVFrom]. change (Ascii.eqb comma dquote) with false.
    rewrite Ascii.eqb_refl. cbn [andb negb].
    rewrite IH by done. cbn [map]. by rewrite <- app_assoc.
Qed.

(** X22: a row written by [createCSVRow] is read back by [parseCSVLine] as
    the texts of its fields, null as the empty text, whatever commas, double
    quotes and line breaks the fields hold. *)
Theorem parseCSVLine_reads_createCSVRow (rowData : list (option string)) :
  rowData <> [] ->
  parseCSVLine (createCSVRow rowData)
  = map (fun value => match value with Some s => s | None => EmptyString end) rowData.
Proof.
  intros Hne. unfold parseCSVLine. by rewrite parseCSVFrom_row.
Qed.

Lemma parseCSVLine_reads_createCSVRow_witness :
  parseCSVLine (createCSVRow [Some "a,b"; None; Some (String dquote "hi")])
  = ["a,b"; EmptyString; String dquote "hi"].
Proof.
  apply (parseCSVLine_reads_createCSVRow [Some "a,b"; None; Some (String dquote "hi")]).
  discriminate.
Defined.

(** ** Valid placeholders *)

Lemma isIdentChar_not_close (c : ascii) : isIdentChar c = true -> isCloseBrace c = false.
Proof.
  intros H. destruct (isCloseBrace c) eqn:Hc; [|done].
  apply isCloseBrace_true in Hc as ->. vm_compute in H. discriminate.
Qed.

Lemma identsThenClose_spec (r : string) :
  identsThenClose r = true
  <-> exists k, r = k +:+ "}" /\ forallb isIdentChar (list_ascii_of_string k) = true.
Proof.
  induction r as [|c r IH].
  - split; [done|]. intros (k & Hk & _). by destruct k.
  - destruct r as [|d r].
    + cbn [identsThenClose]. split.
      * intros Hc. apply isCloseBrace_true in Hc as ->. by exists EmptyString.
      * intros (k & Hk & Hid). destruct k as [|x k].
        -- by injection Hk as ->.
        -- injection Hk as -> Hk. by destruct k.
    + change (identsThenClose (String c (String d r)))
        with (isIdentChar c && identsThenClose (String d r)).
      rewrite andb_true_iff, IH. split.
      * intros (Hc & k & -> & Hk). exists (String c k). split; [done|].
        cbn [list_ascii_of_string forallb]. by rewrite Hc, Hk.
      * intros (k & Hk & Hid). destruct k as [|x k]; [done|].
        injection Hk as -> Hk. cbn [list_ascii_of_string forallb] in Hid.
        apply andb_true_iff in Hid as [Hc Hid]. split; [done|]. by exists k.
Qed.

Lemma idents_no_close (k : string) :
  forallb isIdentChar (list_ascii_of_string k) = true -> includesChar "}" k = false.
Proof.
  induction k as [|c k IH]; [done|]. cbn [list_ascii_of_string forallb includesChar].
  rewrite andb_true_iff. intros [Hc Hk]. rewrite (IH Hk), orb_false_r.
  by apply isIdentChar_not_close.
Qed.

(** X23: [isValidPlaceholder] accepts exactly the texts made of an opening
    brace, a key that [isValidKey] accepts and a closing brace, and the
    placeholder extraction returns such a text as its one token. *)
Theorem isValidPlaceholder_braces_around_valid_key (placeholder : string) :
  (isValidPlaceholder placeholder = true
   <-> exists key, placeholder = String "{" (key +:+ "}") /\ isValidKey key = true)
  /\ (isValidPlaceholder placeholder = true ->
      matchPlaceholders placeholder = [placeholder]).
Proof.
  assert (Hkey : isValidPlaceholder placeholder = true ->
                 exists key, placeholder = String "{" (key +:+ "}")
                             /\ isValidKey key = true).
  { destruct placeholder as [|o [|c r]]; [done..|]. cbn [isValidPlaceholder].
    rewrite !andb_true_iff, identsThenClose_spec.
    intros [[Ho Hc] (k & -> & Hk)]. apply isOpenBrace_true in Ho as ->.
    exists (String c k). split; [done|].
    cbn [isValidKey list_ascii_of_string forallb]. by rewrite Hc, Hk. }
  split; [split; [exact Hkey|]|].
  - intros (key & -> & Hk). destruct key as [|c k]; [done|].
    cbn [isValidKey list_ascii_of_string forallb] in Hk.
    apply andb_true_iff in Hk as [Hc Hk].
    change (isOpenBrace "{" && isIdentChar c && identsThenClose (k +:+ "}") = true).
    rewrite Hc. change (isOpenBrace "{") with true. cbn [andb].
    apply identsThenClose_spec. by exists k.
  - intros H. apply Hkey in H as (key & -> & Hk).
    destruct key as [|c k]; [done|].
    pose proof (matchPlaceholders_first EmptyString (String c k) EmptyString) as Hm.
    apply Hm; [done|done|]. apply idents_no_close. exact Hk.
Qed.

(** ** Placeholder consistency of texts and of whole catalogs *)

Lemma find_absent_self (s : list string) :
  List.find (fun x => negb (setHas s x)) s = None.
Proof.
  destruct (List.find (fun x => negb (setHas s x)) s) as [p|] eqn:H; [|done].
  apply find_absent_Some in H as [Hin Hno]. done.
Qed.

(** The answer of the check, from the two searches it makes. *)
Lemma validatePlaceholderConsistency_answer (v : Validator)
    (referenceText translatedText path : string) :
  (validatePlaceholderConsistency v referenceText translatedText path).1 = true
  <-> (forall x, x ∈ matchPlaceholders referenceText
                 <-> x ∈ matchPlaceholders translatedText).
Proof.
  unfold validatePlaceholderConsistency.
  destruct (List.find _ (jsSet (matchPlaceholders referenceText))) as [p|] eqn:H1.
  - apply find_absent_Some in H1 as [Hin Hno]. rewrite elem_of_jsSet in Hin, Hno.
    split; [done|]. intros H. by apply H in Hin.
  - destruct (List.find _ (jsSet (matchPlaceholders translatedText))) as [p|] eqn:H2.
    + apply find_absent_Some in H2 as [Hin Hno]. rewrite elem_of_jsSet in Hin, Hno.
      split; [done|]. intros H. by apply H in Hin.
    + pose proof (find_absent_None _ _ H1) as Ha.
      pose proof (find_absent_None _ _ H2) as Hb.
      split; [|done]. intros _ x. specialize (Ha x). specialize (Hb x).
      rewrite !elem_of_jsSet in Ha, Hb. tauto.
Qed.

(** What one check adds to the validator. *)
Lemma validatePlaceholderConsistency_adds (v : Validator)
    (referenceText translatedText path : string) :
  let out := validatePlaceholderConsistency v referenceText translatedText path in
  warnings out.2 = warnings v
  /\ exists added, errors out.2 = errors v ++ added
                   /\ Forall (fun f => ctxPath f = path) added
                   /\ (out.1 = true -> added = []).
Proof.
  unfold validatePlaceholderConsistency.
  destruct (List.find _ (jsSet (matchPlaceholders referenceText))) as [p|].
  - cbn. split; [done|]. eexists. split; [done|]. split; [|done].
    by apply Forall_singleton.
  - destruct (List.find _ (jsSet (matchPlaceholders translatedText))) as [p|].
    + cbn. split; [done|]. eexists. split; [done|]. split; [|done].
      by apply Forall_singleton.
    + cbn. split; [done|]. exists []. by rewrite app_nil_r.
Qed.

(** X24: the answer of [validatePlaceholderConsistency] does not depend on
    which of the two texts is the reference, nor on the path or on the state
    of the validator, and a text is consistent with itself, which leaves the
    validator as it was. *)
Theorem validatePlaceholderConsistency_symmetric_answer
    (v v' : Validator) (referenceText translatedText path path' : string) :
  (validatePlaceholderConsistency v referenceText translatedText path).1
  = (validatePlaceholderConsistency v' translatedText referenceText path').1
  /\ validatePlaceholderConsistency v referenceText referenceText path = (true, v).
Proof.
  split.
  - pose proof (validatePlaceholderConsistency_answer v referenceText translatedText path)
      as H1.
    pose proof (validatePlaceholderConsistency_answer v' translatedText referenceText
                  path') as H2.
    destruct (validatePlaceholderConsistency v referenceText translatedText path).1,
      (validatePlaceholderConsistency v' translatedText referenceText path').1;
      try done.
    + symmetry. apply H2. intros x. symmetry. by apply H1.
    + apply H1. intros x. symmetry. by apply H2.
  - unfold validatePlaceholderConsistency. by rewrite !find_absent_self.
Qed.

Lemma validatePlaceholdersRecursive_cons (key : string) (refValue : JValue)
    (rest target : Obj) (path : string) (v : Validator) :
  validatePlaceholdersRecursive ((key, refValue) :: rest) target path v
  = validatePlaceholdersRecursive rest target path
      (match getProp key target with
       | Some targetValue =>
           match refValue, targetValue with
           | JStr refText, JStr targetText =>
               (validatePlaceholderConsistency v refText targetText
                  (fullKeyOf path key)).2
           | JObj refObject, JObj targetObject =>
               validatePlaceholdersRecursive refObject targetObject
                 (fullKeyOf path key) v
           | _, _ => v
           end
       | None => v
       end).
Proof.
  unfold validatePlaceholdersRecursive. cbn [validatePlaceholdersRecursiveValue].
  f_equal. destruct (getProp key target) as [targetValue|]; [|done].
  by destruct refValue, targetValue.
Qed.

Lemma fullKeyOf_in_keys (key : string) (value : JValue) (o : Obj) (prefix : string) :
  (key, value) ∈ o -> fullKeyOf prefix key ∈ extractAllKeys o prefix.
Proof.
  intros Hin. apply (extractAllKeys_elem _ _ prefix Hin). apply entryKeys_own.
Qed.

Lemma nested_in_keys (key : string) (sv o : Obj) (prefix : string) :
  (key, JObj sv) ∈ o ->
  extractAllKeys sv (fullKeyOf prefix key) ⊆ extractAllKeys o prefix.
Proof.
  intros Hin. etrans; [|apply (extractAllKeys_elem _ _ prefix Hin)].
  rewrite entryKeys_object. set_solver.
Qed.

(** The findings of a run over two catalogs. *)
Lemma validatePlaceholdersRecursive_adds_value (r : JValue) :
  forall reference, r = JObj reference -> forall target path v,
  let out := validatePlaceholdersRecursive reference target path v in
  warnings out = warnings v
  /\ exists added, errors out = errors v ++ added
                   /\ Forall (fun f => ctxPath f ∈ extractAllKeys reference path
                                       /\ ctxPath f ∈ extractAllKeys target path) added.
Proof.
  induction r as [| | | | |es IH] using JValue_tree_ind; try discriminate.
  intros reference [= <-]. induction es as [|[key refValue] rest IHrest];
    intros target path v.
  - cbn. split; [done|]. exists []. by rewrite app_nil_r.
  - apply Forall_cons in IH as [IHe IH]. specialize (IHrest IH). cbv zeta.
    rewrite validatePlaceholdersRecursive_cons.
    set (v1 := match getProp key target with Some _ => _ | None => v end).
    assert (Hstep : warnings v1 = warnings v
                    /\ exists added, errors v1 = errors v ++ added
                       /\ Forall (fun f =>
                            ctxPath f ∈ extractAllKeys ((key, refValue) :: rest) path
                            /\ ctxPath f ∈ extractAllKeys target path) added).
    { subst v1. destruct (getProp key target) as [targetValue|] eqn:Hget.
      2: { split; [done|]. exists []. by rewrite app_nil_r. }
      apply getProp_Some_elem in Hget.
      destruct refValue as [| | |refText| |refObject].
      all: try (split; [done|]; exists []; by rewrite app_nil_r).
      - destruct targetValue as [| | |targetText| |].
        all: try (split; [done|]; exists []; by rewrite app_nil_r).
        destruct (validatePlaceholderConsistency_adds v refText targetText
                    (fullKeyOf path key)) as (Hw & added & He & Hp & _).
        split; [done|]. exists added. split; [done|].
        eapply Forall_impl; [exact Hp|]. cbn beta. intros f ->. split.
        + apply (fullKeyOf_in_keys key (JStr refText)). apply list_elem_of_here.
        + by apply (fullKeyOf_in_keys key (JStr targetText)).
      - destruct targetValue as [| | | | |targetObject].
        all: try (split; [done|]; exists []; by rewrite app_nil_r).
        destruct (IHe refObject eq_refl targetObject (fullKeyOf path key) v)
          as (Hw & added & He & Hp).
        split; [done|]. exists added. split; [done|].
        eapply Forall_impl; [exact Hp|]. cbn beta. intros f [H1 H2]. split.
        + apply (nested_in_keys key refObject); [apply list_elem_of_here | done].
        + by apply (nested_in_keys key targetObject). }
    destruct Hstep as (Hw1 & added1 & He1 & Hp1).
    destruct (IHrest target path v1) as (Hw2 & added2 & He2 & Hp2).
    split; [congruence|]. exists (added1 ++ added2).
    split; [by rewrite He2, He1, app_assoc|].
    apply Forall_app. split; [done|].
    eapply Forall_impl; [exact Hp2|]. cbn beta. intros f [H1 H2]. split; [|done].
    rewrite extractAllKeys_cons. set_solver.
Qed.

(** X25: [validatePlaceholdersRecursive] never adds a warning and only appends
    errors, each of them reported at a key path that both catalogs hold. *)
Theorem validatePlaceholdersRecursive_only_adds_errors_at_shared_keys
    (reference target : Obj) (path : string) (v : Validator) :
  let out := validatePlaceholdersRecursive reference target path v in
  warnings out = warnings v
  /\ exists added, errors out = errors v ++ added
                   /\ Forall (fun f => ctxPath f ∈ extractAllKeys reference path
                                       /\ ctxPath f ∈ extractAllKeys target path) added.
Proof.
  exact (validatePlaceholdersRecursive_adds_value (JObj reference) reference eq_refl
           target path v).
Qed.

Lemma validatePlaceholdersRecursive_self_value (r : JValue) :
  forall reference, r = JObj reference -> wf_value r -> forall path v,
  validatePlaceholdersRecursive reference reference path v = v.
Proof.
  induction r as [| | | | |es IH] using JValue_tree_ind; try discriminate.
  intros reference [= <-] Hwf path v.
  assert (Hgen : forall seen rest, es = seen ++ rest ->
            validatePlaceholdersRecursive rest es path v = v).
  { intros seen rest. revert seen. induction rest as [|[key refValue] rest IHrest];
      intros seen Hes; [done|].
    rewrite validatePlaceholdersRecursive_cons.
    assert (Hin : (key, refValue) ∈ es).
    { rewrite Hes. apply elem_of_app. right. apply list_elem_of_here. }
    apply wf_value_obj in Hwf as Hwf'. destruct Hwf' as [Hnd Hall].
    rewrite (getProp_NoDup key refValue es Hnd Hin).
    rewrite Forall_forall in IH. rewrite Forall_forall in Hall.
    specialize (IH _ Hin). specialize (Hall _ Hin). cbn [snd] in IH, Hall.
    replace (match refValue with
             | JStr refText =>
                 match refValue with
                 | JStr targetText =>
                     (validatePlaceholderConsistency v refText targetText
                        (fullKeyOf path key)).2
                 | _ => v
                 end
             | JObj refObject =>
                 match refValue with
                 | JObj targetObject =>
                     validatePlaceholdersRecursive refObject targetObject
                       (fullKeyOf path key) v
                 | _ => v
                 end
             | _ => v
             end) with v.
    - apply (IHrest (seen ++ [(key, refValue)])). by rewrite <- app_assoc.
    - destruct refValue as [| | |refText| |refObject]; try done.
      + unfold validatePlaceholderConsistency. by rewrite !find_absent_self.
      + symmetry. by apply IH. }
  exact (Hgen [] es eq_refl).
Qed.

(** X26: checking a catalog with distinct keys against itself leaves the
    validator as it was. *)
Theorem validatePlaceholdersRecursive_self_is_clean
    (catalog : Obj) (path : string) (v : Validator) :
  wf_obj catalog ->
  validatePlaceholdersRecursive catalog catalog path v = v.
Proof.
  intros Hwf.
  exact (validatePlaceholdersRecursive_self_value (JObj catalog) catalog eq_refl Hwf path v).
Qed.

Lemma validatePlaceholdersRecursive_self_is_clean_witness :
  wf_obj [("menu", JObj [("hello", JStr "Hi {name}")]); ("n", JNull)]
  /\ validatePlaceholdersRecursive
       [("menu", JObj [("hello", JStr "Hi {name}")]); ("n", JNull)]
       [("menu", JObj [("hello", JStr "Hi {name}")]); ("n", JNull)]
       "" {| errors := []; warnings := [] |}
     = {| errors := []; warnings := [] |}.
Proof.
  assert (Hwf : wf_obj [("menu", JObj [("hello", JStr "Hi {name}")]); ("n", JNull)]).
  { cbn. repeat split; apply (bool_decide_unpack _); vm_compute; exact I. }
  split; [exact Hwf|].
  apply (validatePlaceholdersRecursive_self_is_clean _ _ _ Hwf).
Defined.

(** ** Every run of compareFiles *)

Lemma loadReferenceData_run (localesDir : string) (referenceData : option Obj)
    (w : World) :
  TranslationDiffAnalyzer.loadReferenceData localesDir referenceData w
  = match referenceData with
    | Some data => (Return (data, referenceData), w)
    | None =>
        match files w !! pathJoin localesDir "en_US.json" with
        | Some (Doc data) => (Return (data, Some data), w)
        | Some (Corrupt parseError) => (Throw parseError, w)
        | None => (Return ([], Some []), w)
        end
    end.
Proof.
  unfold TranslationDiffAnalyzer.loadReferenceData, existsSync, readJson,
    mbind, mret, M_bind, M_ret.
  destruct referenceData as [data|]; [done|].
  destruct (files w !! pathJoin localesDir "en_US.json") as [[data|parseError]|] eqn:E.
  - rewrite is_Some_Some_true. by rewrite E.
  - rewrite is_Some_Some_true. by rewrite E.
  - by rewrite is_Some_None_false.
Qed.

Lemma compareFiles_run (localesDir : string) (referenceData : option Obj)
    (currentPath backupPath : string) (w : World) :
  TranslationDiffAnalyzer.compareFiles localesDir referenceData currentPath backupPath w
  = (match files w !! currentPath, files w !! backupPath with
     | Some (Doc currentData), Some (Doc backupData) =>
         if bool_decide (TranslationDiffAnalyzer.changedValues
                           (extractKeyValueMap currentData "")
                           (extractKeyValueMap backupData "") = ∅)
         then Return (TranslationDiffAnalyzer.Compared
                        (diffOf currentData backupData []), referenceData)
         else
           match (TranslationDiffAnalyzer.loadReferenceData localesDir referenceData w).1
           with
           | Return loaded =>
               Return (TranslationDiffAnalyzer.Compared
                         (diffOf currentData backupData loaded.1), loaded.2)
           | Throw error =>
               Return (TranslationDiffAnalyzer.CompareError
                         ("Failed to compare files: " +:+ error), referenceData)
           end
     | Some (Doc _), Some (Corrupt error) | Some (Corrupt error), _ =>
         Return (TranslationDiffAnalyzer.CompareError
                   ("Failed to compare files: " +:+ error), referenceData)
     | Some (Doc _), None =>
         Return (TranslationDiffAnalyzer.CompareError
                   ("Failed to compare files: "
                    +:+ "ENOENT: no such file or directory, open '"
                    +:+ backupPath +:+ "'"), referenceData)
     | None, _ =>
         Return (TranslationDiffAnalyzer.CompareError
                   ("Failed to compare files: "
                    +:+ "ENOENT: no such file or directory, open '"
                    +:+ currentPath +:+ "'"), referenceData)
     end, w).
Proof.
  unfold TranslationDiffAnalyzer.compareFiles, tryCatch, readJson, mbind, mret,
    M_bind, M_ret.
  destruct (files w !! currentPath) as [[currentData|error]|]; [|done..].
  destruct (files w !! backupPath) as [[backupData|error]|]; [|done..].
  case_bool_decide as Hchanged; [done|].
  rewrite loadReferenceData_run.
  destruct referenceData as [data|]; [done|].
  by destruct (files w !! pathJoin localesDir "en_US.json") as [[data|parseError]|].
Qed.

Lemma changedValues_lookup (currentMap backupMap : gmap string JValue) (key : string) :
  TranslationDiffAnalyzer.changedValues currentMap backupMap !! key
  = match currentMap !! key, backupMap !! key with
    | Some currentValue, Some backupValue =>
        if TranslationDiffAnalyzer.strictEquals currentValue backupValue then None
        else Some (backupValue, currentValue)
    | _, _ => None
    end.
Proof.
  unfold TranslationDiffAnalyzer.changedValues. rewrite lookup_merge.
  by destruct (currentMap !! key), (backupMap !! key).
Qed.

Lemma dom_modifiedKeys (currentData backupData refData : Obj) :
  dom (TranslationDiffAnalyzer.modifiedKeys (diffOf currentData backupData refData))
  = dom (TranslationDiffAnalyzer.changedValues (extractKeyValueMap currentData "")
           (extractKeyValueMap backupData "")).
Proof.
  cbn [diffOf TranslationDiffAnalyzer.modifiedKeys]. cbv zeta.
  apply leibniz_equiv, set_equiv. intros key.
  rewrite !elem_of_dom, map_lookup_imap.
  destruct (TranslationDiffAnalyzer.changedValues _ _ !! key) as [values|]; cbn.
  - split; intros _; by eexists.
  - split; intros [? ?]; done.
Qed.

Lemma filter_absent_self (m : gmap string JValue) :
  filter (fun entry : string * JValue => m !! entry.1 = None) m = ∅.
Proof.
  apply map_empty. intros key. apply map_lookup_filter_None.
  destruct (m !! key) as [value|] eqn:Hget; [right|by left].
  intros x [= <-] Hnone. cbn in Hnone. congruence.
Qed.

Lemma positive_size_dom {A} (m : gmap string A) :
  bool_decide (0 < size m)%nat = true <-> exists key, key ∈ dom m.
Proof.
  rewrite bool_decide_eq_true. split.
  - intros Hpos. destruct (decide (m = ∅)) as [->|Hne].
    + rewrite map_size_empty in Hpos. lia.
    + apply map_choose in Hne as (key & value & Hget). exists key.
      by apply elem_of_dom_2 in Hget.
  - intros (key & Hkey). apply elem_of_dom in Hkey as [value Hget].
    pose proof (map_size_non_empty_iff m) as Hs.
    assert (m <> ∅) as Hne by (intros ->; by rewrite lookup_empty in Hget).
    apply Hs in Hne. lia.
Qed.

(** X27: [compareFiles] of a readable catalog file with itself reports no new
    and no removed key; the modified keys are the key paths whose leaf is
    not strictly equal to itself, which every array leaf is not, so that a
    catalog with an array leaf never compares as unchanged.  The call fails
    only when such a leaf exists and the reference data, not loaded yet,
    cannot be loaded: en_US.json is there and holds no catalog.  It does
    fail then when en_US.json is unparsable, and the error carries the
    message of the parser. *)
Theorem compareFiles_same_file
    (localesDir : string) (referenceData : option Obj) (path : string) (w : World)
    (data : Obj) :
  files w !! path = Some (Doc data) ->
  let leaves := extractKeyValueMap data "" in
  let differs key :=
    exists value, leaves !! key = Some value
                  /\ TranslationDiffAnalyzer.strictEquals value value = false in
  exists outcome referenceData',
    TranslationDiffAnalyzer.compareFiles localesDir referenceData path path w
    = (Return (outcome, referenceData'), w)
    /\ match outcome with
       | TranslationDiffAnalyzer.Compared diff =>
           TranslationDiffAnalyzer.newKeys diff = ∅
           /\ TranslationDiffAnalyzer.removedKeys diff = ∅
           /\ (forall key, key ∈ dom (TranslationDiffAnalyzer.modifiedKeys diff)
                           <-> differs key)
           /\ (TranslationDiffAnalyzer.hasChanges diff = true <-> exists key, differs key)
       | TranslationDiffAnalyzer.CompareError error =>
           (exists key, differs key)
           /\ referenceData = None
           /\ files w !! pathJoin localesDir "en_US.json" <> None
           /\ (forall reference,
                 files w !! pathJoin localesDir "en_US.json" <> Some (Doc reference))
           /\ (forall parseError,
                 files w !! pathJoin localesDir "en_US.json" = Some (Corrupt parseError) ->
                 error = "Failed to compare files: " +:+ parseError)
       end
    /\ (forall parseError,
          (exists key, differs key) ->
          referenceData = None ->
          files w !! pathJoin localesDir "en_US.json" = Some (Corrupt parseError) ->
          outcome = TranslationDiffAnalyzer.CompareError
                      ("Failed to compare files: " +:+ parseError))
    /\ (forall key items, leaves !! key = Some (JArr items) -> differs key).
Proof.
  intros Hfile leaves differs.
  assert (Hchanged : forall key,
            key ∈ dom (TranslationDiffAnalyzer.changedValues leaves leaves)
            <-> differs key).
  { intros key. rewrite elem_of_dom, changedValues_lookup. unfold differs.
    destruct (leaves !! key) as [value|]; cbn.
    - destruct (TranslationDiffAnalyzer.strictEquals value value) eqn:E.
      + split; [by intros [? ?]|]. intros (v & [= <-] & Hv). congruence.
      + split; [|by eexists]. intros _. by exists value.
    - split; [by intros [? ?]|]. by intros (v & ? & _). }
  assert (Hdiff : forall refData,
            let diff := diffOf data data refData in
            TranslationDiffAnalyzer.newKeys diff = ∅
            /\ TranslationDiffAnalyzer.removedKeys diff = ∅
            /\ (forall key, key ∈ dom (TranslationDiffAnalyzer.modifiedKeys diff)
                            <-> differs key)
            /\ (TranslationDiffAnalyzer.hasChanges diff = true
                <-> exists key, differs key)).
  { intros refData diff.
    assert (Hnew : TranslationDiffAnalyzer.newKeys diff = ∅)
      by apply filter_absent_self.
    assert (Hrem : TranslationDiffAnalyzer.removedKeys diff = ∅)
      by apply filter_absent_self.
    assert (Hmod : forall key, key ∈ dom (TranslationDiffAnalyzer.modifiedKeys diff)
                               <-> differs key).
    { intros key. subst diff. rewrite dom_modifiedKeys. apply Hchanged. }
    split; [done|]. split; [done|]. split; [done|].
    change (TranslationDiffAnalyzer.hasChanges diff)
      with (bool_decide (0 < size (TranslationDiffAnalyzer.modifiedKeys diff))%nat
            || bool_decide (0 < size (TranslationDiffAnalyzer.newKeys diff))%nat
            || bool_decide (0 < size (TranslationDiffAnalyzer.removedKeys diff))%nat).
    rewrite Hnew, Hrem, map_size_empty. cbn [bool_decide decide_rel].
    rewrite !orb_false_r, positive_size_dom.
    split; intros [key Hkey]; exists key; by apply Hmod. }
  assert (Harray : forall key items, leaves !! key = Some (JArr items) -> differs key).
  { intros key items Hget. exists (JArr items). done. }
  rewrite compareFiles_run, Hfile, loadReferenceData_run.
  case_bool_decide as Hnone.
  - do 2 eexists. split; [reflexivity|]. split; [apply Hdiff|]. split; [|done].
    intros parseError [key Hkey] _ _. apply Hchanged in Hkey.
    fold leaves in Hnone. rewrite Hnone in Hkey. by apply elem_of_dom in Hkey as [? ?].
  - destruct referenceData as [given|]; cbn [fst].
    { do 2 eexists. split; [reflexivity|]. split; [apply Hdiff|]. by split. }
    destruct (files w !! pathJoin localesDir "en_US.json") as [[loaded|parseError]|]
      eqn:Eref; cbn [fst].
    + do 2 eexists. split; [reflexivity|]. split; [apply Hdiff|]. by split.
    + do 2 eexists. split; [reflexivity|]. split; [|split; [|done]].
      * split; [|split; [done|split; [done|split; [done|by intros ? [= <-]]]]].
        apply map_choose in Hnone as (key & values & Hget). exists key.
        apply Hchanged. by apply elem_of_dom_2 in Hget.
      * by intros parseError' _ _ [= <-].
    + do 2 eexists. split; [reflexivity|]. split; [apply Hdiff|]. by split.
Qed.

Lemma compareFiles_same_file_witness :
  let w := scenarioWorld [("tags", JArr [JStr "a"]); ("title", JStr "T")] in
  exists outcome referenceData',
    TranslationDiffAnalyzer.compareFiles "locales" None "locales/de_DE.json"
      "locales/de_DE.json" w
    = (Return (outcome, referenceData'), w)
    /\ forall diff, outcome = TranslationDiffAnalyzer.Compared diff ->
         TranslationDiffAnalyzer.newKeys diff = ∅
         /\ TranslationDiffAnalyzer.hasChanges diff = true.
Proof.
  intros w.
  destruct (compareFiles_same_file "locales" None "locales/de_DE.json" w
              [("tags", JArr [JStr "a"]); ("title", JStr "T")] eq_refl)
    as (outcome & referenceData' & Hrun & Hout & _ & Harray).
  exists outcome, referenceData'. split; [exact Hrun|].
  intros diff ->. destruct Hout as (Hnew & _ & _ & Hchanges).
  split; [exact Hnew|]. apply Hchanges. exists "tags".
  apply (Harray "tags" [JStr "a"]). vm_compute. reflexivity.
Defined.

(** X28: [compareFiles] never throws and changes no file; when it returns
    differences, its new keys are the key paths [findNewKeys] returns for
    the same two files, no key path is both new and modified, and the new
    and the modified key paths together are at most totalCurrentKeys. *)
Theorem compareFiles_never_throws_and_agrees_with_findNewKeys
    (localesDir : string) (referenceData : option Obj)
    (currentPath backupPath : string) (w : World) :
  exists outcome referenceData',
    TranslationDiffAnalyzer.compareFiles localesDir referenceData currentPath
      backupPath w
    = (Return (outcome, referenceData'), w)
    /\ forall diff, outcome = TranslationDiffAnalyzer.Compared diff ->
         (findNewKeys currentPath backupPath w).1
         = Return (dom (TranslationDiffAnalyzer.newKeys diff), [])
         /\ dom (TranslationDiffAnalyzer.newKeys diff)
            ## dom (TranslationDiffAnalyzer.modifiedKeys diff)
         /\ (size (TranslationDiffAnalyzer.newKeys diff)
             + size (TranslationDiffAnalyzer.modifiedKeys diff)
             <= TranslationDiffAnalyzer.totalCurrentKeys diff)%nat.
Proof.
  assert (Hdiff : forall currentData backupData refData,
            files w !! currentPath = Some (Doc currentData) ->
            files w !! backupPath = Some (Doc backupData) ->
            let diff := diffOf currentData backupData refData in
            (findNewKeys currentPath backupPath w).1
            = Return (dom (TranslationDiffAnalyzer.newKeys diff), [])
            /\ dom (TranslationDiffAnalyzer.newKeys diff)
               ## dom (TranslationDiffAnalyzer.modifiedKeys diff)
            /\ (size (TranslationDiffAnalyzer.newKeys diff)
                + size (TranslationDiffAnalyzer.modifiedKeys diff)
                <= TranslationDiffAnalyzer.totalCurrentKeys diff)%nat).
  { intros currentData backupData refData Hc Hb diff.
    set (currentMap := extractKeyValueMap currentData "").
    set (backupMap := extractKeyValueMap backupData "").
    assert (Hnew : dom (TranslationDiffAnalyzer.newKeys diff)
                   = dom currentMap ∖ dom backupMap).
    { apply leibniz_equiv, set_equiv. intros key.
      change (TranslationDiffAnalyzer.newKeys diff)
        with (filter (fun entry : string * JValue => backupMap !! entry.1 = None)
                currentMap).
      rewrite elem_of_difference, not_elem_of_dom, !elem_of_dom. unfold is_Some.
      setoid_rewrite map_lookup_filter_Some. cbn [fst]. naive_solver. }
    assert (Hmod : dom (TranslationDiffAnalyzer.modifiedKeys diff)
                   ⊆ dom currentMap ∩ dom backupMap).
    { subst diff. rewrite dom_modifiedKeys. intros key.
      rewrite elem_of_intersection, !elem_of_dom, changedValues_lookup.
      fold currentMap backupMap.
      destruct (currentMap !! key), (backupMap !! key); cbn;
        try (by intros [? ?]); intros _; split; by eexists. }
    split; [|split].
    - rewrite findNewKeys_run, Hc, Hb. cbn [fst]. by rewrite Hnew.
    - rewrite Hnew. set_solver.
    - rewrite <- !size_dom. rewrite <- size_union by (rewrite Hnew; set_solver).
      change (TranslationDiffAnalyzer.totalCurrentKeys diff) with (size currentMap).
      rewrite <- (size_dom currentMap). apply subseteq_size. rewrite Hnew. set_solver. }
  rewrite compareFiles_run.
  destruct (files w !! currentPath) as [[currentData|error]|] eqn:Hc;
    [destruct (files w !! backupPath) as [[backupData|error]|] eqn:Hb|..].
  1: case_bool_decide;
    [|destruct (TranslationDiffAnalyzer.loadReferenceData localesDir referenceData w).1].
  all: do 2 eexists; (split; [reflexivity|]); intros diff [= <-]; eauto.
Qed.

(** ** The summary of a batch of updates *)

Lemma addedBySuccess_app (a b : list FileDetail) :
  addedBySuccess (a ++ b) = addedBySuccess a + addedBySuccess b.
Proof.
  induction a as [|d a IH]; cbn [app addedBySuccess foldr]; [done|].
  fold (addedBySuccess (a ++ b)). fold (addedBySuccess a). rewrite IH.
  destruct (status d); lia.
Qed.

Lemma summary_fold (updateResults : list (string * UpdateOutcome))
    (summary : UpdateSummary) :
  let out := fold_left summaryStep updateResults summary in
  totalFiles out = totalFiles summary
  /\ (successfulUpdates out + failedUpdates out + skippedUpdates out
      = successfulUpdates summary + failedUpdates summary + skippedUpdates summary
        + length updateResults)%nat
  /\ map fd_languageCode (fileDetails out)
     = map fd_languageCode (fileDetails summary) ++ updateResults.*1
  /\ (totalKeysAdded summary = addedBySuccess (fileDetails summary) ->
      totalKeysAdded out = addedBySuccess (fileDetails out))
  /\ (length (backupFiles out) <= length (backupFiles summary) + length updateResults)%nat.
Proof.
  revert summary. induction updateResults as [|[languageCode result] rest IH];
    intros summary; cbn [fold_left].
  - cbn. rewrite app_nil_r. split; [done|]. split; [lia|]. split; [done|].
    split; [done|lia].
  - destruct (IH (summaryStep summary (languageCode, result)))
      as (H1 & H2 & H3 & H4 & H5).
    cbv zeta. rewrite H1, H2, H3. clear IH H1 H2 H3.
    split; [done|]. split; [|split; [|split]].
    + cbn. destruct (success result), (skipped result); cbn; lia.
    + cbn. rewrite map_app. cbn. by rewrite <- app_assoc.
    + intros Hsum. apply H4. cbn. rewrite addedBySuccess_app, <- Hsum. cbn.
      destruct (success result), (skipped result); cbn; lia.
    + etrans; [exact H5|]. cbn.
      destruct (truthyPath (uo_backupPath result)); rewrite ?length_app; cbn; lia.
Qed.

(** X29: [generateUpdateSummary] counts every result under exactly one of
    successful, failed and skipped, lists one detail per result in the
    order of the results, adds up as totalKeysAdded the added keys of the
    details with status success, and lists at most one backup per result. *)
Theorem generateUpdateSummary_counts_every_result_once
    (updateResults : list (string * UpdateOutcome)) :
  let summary := generateUpdateSummary updateResults in
  totalFiles summary = length updateResults
  /\ (successfulUpdates summary + failedUpdates summary + skippedUpdates summary
      = totalFiles summary)%nat
  /\ map fd_languageCode (fileDetails summary) = updateResults.*1
  /\ totalKeysAdded summary = addedBySuccess (fileDetails summary)
  /\ (length (backupFiles summary) <= totalFiles summary)%nat.
Proof.
  destruct (summary_fold updateResults
              {| totalFiles := length updateResults;
                 successfulUpdates := 0; failedUpdates := 0; skippedUpdates := 0;
                 totalKeysAdded := 0; fileDetails := []; backupFiles := [] |})
    as (H1 & H2 & H3 & H4 & H5).
  cbv zeta. unfold generateUpdateSummary. rewrite H1, H2, H3. cbn in *.
  split; [done|]. split; [lia|]. split; [done|]. split; [by apply H4|lia].
Qed.
